(** * Heat2D, parallelised: a shallow embedding of [mpibackup10.c]

    The development follows the C file top to bottom:

    - the arithmetic of the stencil, kept abstract behind an interface for
      the two floating-point types the expression mixes;
    - the flat buffers [float *u1, *u2] and an access-logging state monad
      in which the two stencil passes [updateInternal] and
      [updateExternal] are written statement by statement;
    - the start-up code of [main]: argument checks, [isPrime], the search
      for the block grid, the neighbour assignment;
    - the MPI data movement ([MPI_Scatterv], the halo exchange,
      [MPI_Gatherv]) through the type maps of the derived datatypes the
      program builds, and the time-stepping loop over all ranks;
    - the remaining subroutines ([prtdat], [malloc2darr], [free2darr],
      [DUMMYDUMDUM]);
    - the time steps on the grid as a whole, against which the run of all
      ranks together is compared.

    C [int]s are modelled by [Z]; [/] and [%] are [Z.quot] and [Z.rem].
    Index expressions such as [ix*ny+iy] address an array the program
    holds in memory and are taken in [Z].  The products of [inidat] and of
    [isPrime] are not bounded by an array: [inidat] takes them in 32-bit
    two's complement ([int_mul]), as the compiled program does, and
    [isPrime] comes twice, with the product [i*i] in [Z] ([isPrime], the
    function the start-up code is stated with) and in 32 bits
    ([isPrime_int]); the two agree on every argument below 46339^2, so on
    every worker count that divides the number of cells, and on every
    [int] that is not prime. *)

From Stdlib Require Import ZArith Lia QArith Znumtheory String SpecFloat.
From stdpp Require Import base tactics list.

Local Open Scope Z_scope.

(** ** Arithmetic interface

    The right-hand side of the stencil assignment mixes [float] operands
    with the [double] literal [2.0]: the neighbour sums are [float]
    additions, everything else is done in [double], and the result is
    converted back on the store.  The interface names exactly the
    operations and literals that occur in the source. *)

Class FloatArith := {
  flt : Type;                      (* float *)
  dbl : Type;                      (* double *)
  lit_0_0 : dbl;                   (* the literal 0.0 *)
  lit_0_1 : dbl;                   (* the literal 0.1 *)
  lit_2_0 : dbl;                   (* the literal 2.0 *)
  of_int : Z -> flt;               (* (float)(int expression) *)
  to_dbl : flt -> dbl;             (* promotion of a float operand *)
  to_flt : dbl -> flt;             (* conversion on assignment to a float *)
  fadd : flt -> flt -> flt;
  dadd : dbl -> dbl -> dbl;
  dsub : dbl -> dbl -> dbl;
  dmul : dbl -> dbl -> dbl;
  (* (float)0 and 0.0 stored into a float are the same value *)
  of_int_0 : of_int 0 = to_flt lit_0_0
}.

Declare Scope flt_scope.
Delimit Scope flt_scope with flt.
Infix "+f" := fadd (at level 50, left associativity) : flt_scope.
Infix "+d" := dadd (at level 50, left associativity) : flt_scope.
Infix "-d" := dsub (at level 50, left associativity) : flt_scope.
Infix "*d" := dmul (at level 40, left associativity) : flt_scope.

(** Exact rational arithmetic, results kept in lowest terms: used to run
    the model on concrete grids. *)

Definition Qadd' (a b : Q) : Q := Qred (Qplus a b).
Definition Qsub' (a b : Q) : Q := Qred (Qminus a b).
Definition Qmul' (a b : Q) : Q := Qred (Qmult a b).

Definition exact_arith : FloatArith := {|
  flt := Q;
  dbl := Q;
  lit_0_0 := Qmake 0 1;
  lit_0_1 := Qmake 1 10;
  lit_2_0 := Qmake 2 1;
  of_int := inject_Z;
  to_dbl := fun x => x;
  to_flt := fun x => x;
  fadd := Qadd';
  dadd := Qadd';
  dsub := Qsub';
  dmul := Qmul';
  of_int_0 := eq_refl
|}.

(** IEEE 754 binary32 for [float] and binary64 for [double], rounding to
    nearest even, on the Standard Library's specification of
    floating-point numbers: the arithmetic of the compiled program. *)

Definition round_to (prec emax : Z) (x : spec_float) : spec_float :=
  match x with
  | S754_finite s m e => binary_round prec emax s m e
  | _ => x
  end.

Definition ieee_arith : FloatArith := {|
  flt := spec_float;
  dbl := spec_float;
  lit_0_0 := S754_zero false;
  lit_0_1 := SFdiv 53 1024 (binary_normalize 53 1024 1 0 false)
                           (binary_normalize 53 1024 10 0 false);
  lit_2_0 := binary_normalize 53 1024 2 0 false;
  of_int := fun z => binary_normalize 24 128 z 0 false;
  to_dbl := round_to 53 1024;
  to_flt := round_to 24 128;
  fadd := SFadd 24 128;
  dadd := SFadd 53 1024;
  dsub := SFsub 53 1024;
  dmul := SFmul 53 1024;
  of_int_0 := eq_refl
|}.

(** ** Buffers and the access-logging machine *)

Section Machine.
Context {FA : FloatArith}.

(** A [float *] into a block of floats: offset to value. *)
Definition buf := Z -> flt.

Definition poke (u : buf) (off : Z) (v : flt) : buf :=
  fun k => if k =? off then v else u k.

(** [struct Parms parms = {0.1, 0.1}] *)
Record Parms := { cx : flt; cy : flt }.
Definition parms : Parms := {| cx := to_flt lit_0_1; cy := to_flt lit_0_1 |}.

(** Every dereference is logged: [Rd off] is [*(u1+off)] read,
    [Wr off] is [*(u2+off)] assigned. *)
Inductive access := Rd (off : Z) | Wr (off : Z).

Record mach := Mach { cur : buf; nxt : buf; trace : list access }.

Definition M (A : Type) : Type := mach -> A * mach.

Definition ret {A} (a : A) : M A := fun s => (a, s).
Definition bind {A B} (m : M A) (k : A -> M B) : M B :=
  fun s => let '(a, s') := m s in k a s'.

Definition load (off : Z) : M flt :=
  fun s => (cur s off, Mach (cur s) (nxt s) (trace s ++ [Rd off])).
Definition store (off : Z) (v : flt) : M unit :=
  fun s => (tt, Mach (cur s) (poke (nxt s) off v) (trace s ++ [Wr off])).

Definition exec {A} (m : M A) (u1 u2 : buf) : mach := snd (m (Mach u1 u2 [])).

End Machine.

Notation "'let*' x ':=' m 'in' k" := (bind m (fun x => k))
  (at level 10, x name, m at level 100, k at level 200).
Notation "m ';;;' k" := (bind m (fun _ => k))
  (at level 100, k at level 200, right associativity).

Section Heat2D.
Context {FA : FloatArith}.
Local Open Scope flt_scope.

(** [MPI_PROC_NULL] comes from [mpi.h]; the program only compares ranks
    with it. *)
Variable MPI_PROC_NULL : Z.

(** [for (i = lo; i <= hi; i++) body] *)
Fixpoint for_each {A} (l : list A) (body : A -> M unit) : M unit :=
  match l with
  | [] => ret tt
  | i :: l' => body i ;;; for_each l' body
  end.

Definition forZ (lo hi : Z) (body : Z -> M unit) : M unit :=
  for_each (seqZ lo (hi - lo + 1)) body.

(** The right-hand side of the assignment, on the seven values loaded, with
    C's precedence and usual arithmetic conversions:
    [c + cx * (dn + up - 2.0 * c2) + cy * (rt + lf - 2.0 * c3)]. *)
Definition stencil_rhs (c dn up c2 rt lf c3 : flt) : flt :=
  to_flt (to_dbl c
          +d to_dbl (cx parms) *d (to_dbl (dn +f up) -d lit_2_0 *d to_dbl c2)
          +d to_dbl (cy parms) *d (to_dbl (rt +f lf) -d lit_2_0 *d to_dbl c3)).

(** The assignment statement shared by all five loops; [ny] is the row
    stride in force at the statement. *)
Definition stencil_stmt (ny ix iy : Z) : M unit :=
  let* c := load (ix*ny+iy) in
  let* dn := load ((ix+1)*ny+iy) in
  let* up := load ((ix-1)*ny+iy) in
  let* c2 := load (ix*ny+iy) in
  let* rt := load (ix*ny+iy+1) in
  let* lf := load (ix*ny+iy-1) in
  let* c3 := load (ix*ny+iy) in
  store (ix*ny+iy) (stencil_rhs c dn up c2 rt lf c3).

(** [void updateInternal(int start, int end, int ny, float *u1, float *u2)];
    the two pointers are the machine's [cur] and [nxt].  The iterations of
    the [omp for] are independent (they read [u1] and write distinct
    cells of [u2]), so they are run in source order. *)
Definition updateInternal (start end_ ny : Z) : M unit :=
  forZ start end_ (fun ix =>
    forZ 2 (ny-1) (fun iy =>
      stencil_stmt (ny+2) ix iy)).

Definition is_null (rank : Z) : bool := rank =? MPI_PROC_NULL.

(** [void updateExternal(int start, int end, int ny, int right, int left,
                         int up, int down, float *u1, float *u2)] *)
Definition updateExternal (start end_ ny right left up down : Z) : M unit :=
  let ny := ny + 2 in
  let end_ := end_ + 2 in
  (* first external row *)
  let ix := if negb (is_null up) then start else start + 1 in
  let iy := if negb (is_null left) then 1 else 2 in
  let endny := if negb (is_null right) then ny - 3 else ny - 3 in
  let is_ := iy in
  forZ is_ endny (fun iy => stencil_stmt ny ix iy) ;;;
  (* last external row *)
  let ix := if negb (is_null down) then end_ - 2 else end_ - 3 in
  let iy := if negb (is_null left) then 1 else 2 in
  let endny := if negb (is_null right) then ny - 2 else ny - 3 in
  let is_ := iy in
  forZ is_ endny (fun iy => stencil_stmt ny ix iy) ;;;
  (* first external column *)
  let ix := if negb (is_null up) then start else start + 1 in
  let iy := if negb (is_null left) then 1 else 2 in
  let endloop := if negb (is_null down) then end_ - 2 else end_ - 3 in
  let is_ := ix in
  forZ is_ (endloop - 1) (fun ix => stencil_stmt ny ix iy) ;;;
  (* last external column *)
  let ix := if negb (is_null up) then start else start + 1 in
  let iy := if negb (is_null right) then ny - 2 else ny - 3 in
  let endloop := if negb (is_null down) then end_ - 2 else end_ - 3 in
  let is_ := ix in
  forZ is_ (endloop - 1) (fun ix => stencil_stmt ny ix iy).

(** ** Start-up code of [main] *)

Definition MASTER : Z := 0.

(** A 32-bit [int]: the value of an [int] expression whose mathematical
    value is [z], reduced to two's complement as the compiled program
    leaves it. *)
Definition INT_MAX : Z := 2147483647.

Definition wrap_int (z : Z) : Z := (z + 2147483648) mod 4294967296 - 2147483648.

Definition int_mul (a b : Z) : Z := wrap_int (a * b).

(** [int isPrime(int n)].  The [fuel] bounds the iterations of the
    [for (i=3; i*i<=n; i+=2)] loop; [None] means the bound was reached.
    The product [i*i] is taken in [Z]. *)
Fixpoint isPrime_loop (fuel : nat) (n i : Z) : option Z :=
  match fuel with
  | O => None
  | S fuel' =>
      if i * i <=? n then
        if Z.rem n i =? 0 then Some 0
        else isPrime_loop fuel' n (i + 2)
      else Some 1
  end.

Definition isPrime (n : Z) : option Z :=
  if n =? 1 then Some 0
  else if n =? 2 then Some 1
  else if Z.rem n 2 =? 0 then Some 0
  else isPrime_loop (S (Z.to_nat n)) n 3.

(** [isPrime] with the product [i*i] as an [int]: from i = 46341 on it
    no longer fits 32 bits.  ([i+=2] stays in range: the loop is left at
    [i = n] at the latest.) *)
Fixpoint isPrime_loop_int (fuel : nat) (n i : Z) : option Z :=
  match fuel with
  | O => None
  | S fuel' =>
      if int_mul i i <=? n then
        if Z.rem n i =? 0 then Some 0
        else isPrime_loop_int fuel' n (i + 2)
      else Some 1
  end.

Definition isPrime_int (n : Z) : option Z :=
  if n =? 1 then Some 0
  else if n =? 2 then Some 1
  else if Z.rem n 2 =? 0 then Some 0
  else isPrime_loop_int (S (Z.to_nat n)) n 3.

(** The search for the block grid:
    [for (x=sqrt(numworkers) + 1; x>=1; x--) if (numworkers % x == 0) {...; break;}].
    [None]: the loop ended without assigning [xdim], [ydim] (or the fuel
    ran out).  The initial value [(int)(sqrt(numworkers) + 1)] is
    [Z.sqrt numworkers + 1]: the double square root of a 32-bit integer
    never rounds across an integer. *)
Fixpoint find_dims_loop (fuel : nat) (numworkers x : Z) : option (Z * Z) :=
  match fuel with
  | O => None
  | S fuel' =>
      if x >=? 1 then
        if Z.rem numworkers x =? 0 then Some (x, Z.quot numworkers x)
        else find_dims_loop fuel' numworkers (x - 1)
      else None
  end.

Definition find_dims (numworkers : Z) : option (Z * Z) :=
  let x := Z.sqrt numworkers + 1 in
  find_dims_loop (S (Z.to_nat x)) numworkers x.

(** "Swap them if necessary, in order to make the blocks more square-like" *)
Definition swap_dims (NXPROB NYPROB : Z) (d : Z * Z) : Z * Z :=
  let '(xdim, ydim) := d in
  if (NYPROB >? NXPROB) && (ydim <? xdim) then (ydim, xdim) else (xdim, ydim).

Definition block_grid (NXPROB NYPROB numworkers : Z) : option (Z * Z) :=
  swap_dims NXPROB NYPROB <$> find_dims numworkers.

Record nbrs := Nbrs { left : Z; right : Z; up : Z; down : Z }.

(** Body of the loop [for (i=1; i<numworkers; i++)]: the neighbours sent
    to worker [i]. *)
Definition worker_nbrs (xdim ydim i : Z) : nbrs :=
  let up := if i <? ydim then MPI_PROC_NULL else i - ydim in
  let down := if i >=? (xdim - 1) * ydim then MPI_PROC_NULL else i + ydim in
  let left := if Z.rem i ydim =? 0 then MPI_PROC_NULL else i - 1 in
  let right := if Z.rem i ydim =? ydim - 1 then MPI_PROC_NULL else i + 1 in
  Nbrs left right up down.

(** "Master does its part of the work" *)
Definition master_nbrs (numworkers ydim : Z) : nbrs :=
  let left := MPI_PROC_NULL in
  let up := MPI_PROC_NULL in
  if numworkers =? 1 then Nbrs left MPI_PROC_NULL up MPI_PROC_NULL
  else Nbrs left 1 up ydim.

(** The neighbours rank [taskid] works with: the master's own, or the ones
    it receives from the master. *)
Definition nbrs_of (numworkers xdim ydim taskid : Z) : nbrs :=
  if taskid =? MASTER then master_nbrs numworkers ydim
  else worker_nbrs xdim ydim taskid.

(** What a run of [main] does up to the point where the block is
    allocated, as the sequence of its observable actions. *)
Inductive event :=
| Printf (format : string) (args : list Z)
| MPI_Init_thread
| MPI_Abort (errorcode : Z)
| Inidat                       (* inidat(NXPROB,NYPROB,u) *)
| Prtdat (fnam : string)
| Send_startup (dest xdim ydim columns rows : Z) (nb : nbrs)
| Recv_startup (source : Z).

Record setup := Setup {
  s_xdim : Z; s_ydim : Z; s_rows : Z; s_columns : Z; s_nbrs : nbrs }.

Inductive outcome :=
| Returned (status : Z)        (* return from main *)
| Aborted (errorcode : Z)      (* MPI_Abort(MPI_COMM_WORLD, errorcode) *)
| Stuck                        (* xdim, ydim never assigned, or fuel *)
| Ready (s : setup).           (* goes on to allocate and scatter *)

(** The command line: [argc] and, for [argc == 2], the value
    [strtol(argv[1], NULL, 10)] converted to [int]. *)
Definition thread_count_of (argc parsed : Z) : option Z :=
  if argc =? 1 then Some 1
  else if argc =? 2 then Some parsed
  else None.

Definition master_startup (NXPROB NYPROB STEPS thread_count numworkers : Z)
  : list event * outcome :=
  let t0 := [MPI_Init_thread; Printf "Thread count = %d\n\n" [thread_count]] in
  match isPrime numworkers with
  | None => (t0, Stuck)
  | Some p =>
    if negb (p =? 0) then
      (t0 ++ [Printf "ERROR: the number of workers is prime (%d).\n" [numworkers];
              MPI_Abort 22], Aborted 22)
    else
      let t1 := t0 ++ [Printf "Starting mpi_heat2D with %d worker tasks.\n" [numworkers]] in
      if negb (Z.rem (NXPROB * NYPROB) numworkers =? 0) then
        (t1 ++ [Printf "ERROR: number of cells is not divisible by the number of workers\n" [];
                MPI_Abort 22], Aborted 22)
      else
        let t2 := t1 ++
          [Printf "Grid size: X= %d  Y= %d  Time steps= %d\n" [NXPROB; NYPROB; STEPS];
           Printf "Initializing grid and writing initial.dat file...\n" [];
           Inidat; Prtdat "initial.dat"] in
        match block_grid NXPROB NYPROB numworkers with
        | None => (t2, Stuck)
        | Some (xdim, ydim) =>
          let rows := Z.quot NXPROB xdim in
          let columns := Z.quot NYPROB ydim in
          (t2 ++ [Printf "The grid will part into a %d x %d block grid.\n" [xdim; ydim];
                  Printf "Each block is %d x %d.\n" [rows; columns]]
              ++ ((fun i => Send_startup i xdim ydim columns rows (worker_nbrs xdim ydim i))
                    <$> seqZ 1 (numworkers - 1)),
           Ready (Setup xdim ydim rows columns (master_nbrs numworkers ydim)))
        end
  end.

Definition main_startup (NXPROB NYPROB STEPS argc parsed taskid numworkers : Z)
  : list event * outcome :=
  match thread_count_of argc parsed with
  | None => ([Printf "ERROR: You gave wrong parameters\n\n" []], Returned 32)
  | Some thread_count =>
    if thread_count <=? 0 then
      ([Printf "ERROR: You gave wrong number of threads!\n\n" []], Returned 32)
    else if taskid =? MASTER then
      master_startup NXPROB NYPROB STEPS thread_count numworkers
    else
      (* a worker blocks in MPI_Recv until the master sends, or is taken
         down by the master's MPI_Abort *)
      match master_startup NXPROB NYPROB STEPS thread_count numworkers with
      | (_, Ready s) =>
          ([MPI_Init_thread; Recv_startup MASTER],
           Ready (Setup (s_xdim s) (s_ydim s) (s_rows s) (s_columns s)
                        (worker_nbrs (s_xdim s) (s_ydim s) taskid)))
      | (_, o) => ([MPI_Init_thread; Recv_startup MASTER], o)
      end
  end.

(** ** The grid and its distribution *)

(** Loops of [main] that do not go through the logged buffers. *)
Definition loopZ {St} (lo hi : Z) (body : Z -> St -> St) (s : St) : St :=
  foldl (fun s i => body i s) s (seqZ lo (hi - lo + 1)).

Definition pokes (ws : list (Z * flt)) (b : buf) : buf :=
  foldl (fun b w => poke b w.1 w.2) b ws.

(** [void inidat(int nx, int ny, float *u)]; the value stored is
    [(float)(ix * (nx - ix - 1) * iy * (ny - iy - 1))], an [int] product
    taken from left to right. *)
Definition inidat (nx ny : Z) (u : buf) : buf :=
  loopZ 0 (nx - 1) (fun ix =>
    loopZ 0 (ny - 1) (fun iy u =>
      poke u (ix*ny+iy)
           (of_int (int_mul (int_mul (int_mul ix (nx - ix - 1)) iy) (ny - iy - 1))))) u.

(** Type maps of the derived datatypes, as displacements counted in
    floats, in the order the elements travel. *)
Definition block_cells (n m : Z) : list (Z * Z) :=
  i ← seqZ 0 n; j ← seqZ 0 m; [(i, j)].

(** [MPI_Type_create_subarray(2, sizes, subsizes, starts, MPI_ORDER_C, MPI_FLOAT, _)] *)
Definition subarray (sizes subsizes starts : Z * Z) : list Z :=
  (fun c : Z * Z => (starts.1 + c.1) * sizes.2 + (starts.2 + c.2))
    <$> block_cells subsizes.1 subsizes.2.

(** [MPI_Type_vector(count, 1, stride, MPI_FLOAT, _)] *)
Definition vector (count stride : Z) : list Z :=
  (fun i => i * stride) <$> seqZ 0 count.

(** [count] consecutive [MPI_FLOAT]s *)
Definition contiguous (count : Z) : list Z := seqZ 0 count.

Definition at_offset (base : Z) (tm : list Z) : list Z := Z.add base <$> tm.

(** One message: the floats of [src] at the displacements [sd] arrive, in
    order, at the displacements [dd] of [dst]. *)
Definition transfer (src : buf) (sd : list Z) (dst : buf) (dd : list Z) : buf :=
  pokes (zip dd (src <$> sd)) dst.

Section Run.
Variables NXPROB NYPROB numworkers xdim ydim rows columns : Z.

(** [malloc2darr(&local[iz], rows+2, columns+2)]: row [ix] of the block
    starts at float [ix*(columns+2)] of the allocation. *)
Definition at_ (ix iy : Z) : Z := ix * (columns + 2) + iy.

(** "Initialize with 0's" *)
Definition zero_fill (p : buf) : buf :=
  loopZ 0 (rows + 2 - 1) (fun ix =>
    loopZ 0 (columns + 2 - 1) (fun iy p =>
      poke p (at_ ix iy) (to_flt lit_0_0))) p.

(** [sendsubarrtype] (the resized type has extent [columns] floats) and
    [recvsubarrtype]. *)
Definition sendsubarrtype : list Z := subarray (NXPROB, NYPROB) (rows, columns) (0, 0).
Definition sendsubarr_extent : Z := columns.
Definition recvsubarrtype : list Z := subarray (rows + 2, columns + 2) (rows, columns) (1, 1).

(** "Determine the starting point of every task's data": the array
    [displs] after the two nested loops. *)
Definition displs : Z -> Z :=
  fst (loopZ 0 (xdim - 1) (fun i st =>
         let st' := loopZ 0 (ydim - 1) (fun j (st : (Z -> Z) * Z) =>
                      let '(d, disp) := st in
                      ((fun k => if k =? i*ydim+j then disp else d k), disp + 1)) st in
         (st'.1, st'.2 + (rows - 1) * ydim))
       ((fun _ => 0), 0)).

(** Where rank [k]'s block lies in [u]: one [sendsubarrtype] placed
    [displs[k]] extents from the start. *)
Definition block_of (k : Z) : list Z :=
  at_offset (displs k * sendsubarr_extent) sendsubarrtype.

(** All ranks' blocks: rank, then [iz], to [local[iz]]. *)
Definition world := Z -> Z -> buf.

(** [MPI_Scatterv(&(u[0][0]), sendcounts, displs, sendsubarrtype,
                  &(local[0][0][0]), columns*rows, recvsubarrtype, MASTER, _)],
    every [sendcounts[i]] being 1; [fresh] is what [malloc] returned. *)
Definition scatter (u : buf) (fresh : world) : world :=
  fun k iz =>
    if iz =? 0 then
      transfer u (block_of k) (zero_fill (fresh k iz)) recvsubarrtype
    else zero_fill (fresh k iz).

(** [MPI_Gatherv(&(local[iz][0][0]), 1, recvsubarrtype, &(u[0][0]),
                 sendcounts, displs, sendsubarrtype, MASTER, _)]:
    the root stores the ranks' messages in rank order. *)
Definition gather (iz : Z) (w : world) (u : buf) : buf :=
  loopZ 0 (numworkers - 1) (fun k u =>
    transfer (w k iz) recvsubarrtype u (block_of k)) u.

(** *** Halo exchange *)

(** [column] is [MPI_Type_vector(rows, 1, columns+2, MPI_FLOAT, _)]. *)
Definition column_at (ix iy : Z) : list Z := at_offset (at_ ix iy) (vector rows (columns + 2)).
Definition row_at (ix iy : Z) : list Z := at_offset (at_ ix iy) (contiguous columns).

(** The four sends and the four receives a rank posts on [local[newiz]],
    in posting order, each with its peer. *)
Definition sends_of (nb : nbrs) : list (Z * list Z) :=
  [ (right nb, column_at 1 columns);
    (left nb,  column_at 1 1);
    (up nb,    row_at 1 1);
    (down nb,  row_at rows 1) ].

Definition recvs_of (nb : nbrs) : list (Z * list Z) :=
  [ (left nb,  column_at 1 0);
    (right nb, column_at 1 (columns + 1));
    (down nb,  row_at (rows + 1) 1);
    (up nb,    row_at 0 1) ].

(** Matching is by source, tag (always 0) and communicator, in posting
    order: the [n]-th receive from a source takes its [n]-th send to us. *)
Fixpoint nth_send (me : Z) (n : nat) (sends : list (Z * list Z)) : option (list Z) :=
  match sends with
  | [] => None
  | (dest, sd) :: rest =>
      if dest =? me then
        match n with
        | O => Some sd
        | S n' => nth_send me n' rest
        end
      else nth_send me n rest
  end.

Definition earlier_from (source : Z) (posted : list (Z * list Z)) : nat :=
  length (filter (fun r => r.1 = source) posted).

Definition nb_of (k : Z) : nbrs := nbrs_of numworkers xdim ydim k.

(** The receives of rank [me], completed one after the other; [None] when
    a receive from a real neighbour has no matching send and the wait on
    it never returns.  Sends read rows 1..rows, receives fill the ring
    around them, so every send reads the buffer as it was before the
    exchange. *)
Fixpoint receive (w : world) (iz me : Z) (posted todo : list (Z * list Z))
    (b : buf) : option buf :=
  match todo with
  | [] => Some b
  | (source, dd) :: todo' =>
      if is_null source then receive w iz me (posted ++ [(source, dd)]) todo' b
      else
        match nth_send me (earlier_from source posted) (sends_of (nb_of source)) with
        | None => None
        | Some sd =>
            receive w iz me (posted ++ [(source, dd)]) todo'
                    (transfer (w source iz) sd b dd)
        end
  end.

Definition exchange_rank (w : world) (iz me : Z) : option buf :=
  receive w iz me [] (recvs_of (nb_of me)) (w me iz).

Definition is_rank (k : Z) : bool := (0 <=? k) && (k <? numworkers).

Definition exchange (iz : Z) (w : world) : option world :=
  if forallb (fun k => bool_decide (is_Some (exchange_rank w iz k))) (seqZ 0 numworkers)
  then Some (fun k z =>
               if is_rank k && (z =? iz) then default (w k z) (exchange_rank w iz k)
               else w k z)
  else None.

(** *** One time step on every rank *)

(** The two calls of the loop body on one rank.  The waits on the
    receives sit between them in the source; [updateInternal] reads no
    cell of the halo ring (proved below), so running both on the exchanged
    buffer is the same. *)
Definition update_block (nb : nbrs) (u1 u2 : buf) : buf :=
  nxt (exec (updateInternal 2 (rows - 1) columns ;;;
             updateExternal 1 rows columns (right nb) (left nb) (up nb) (down nb))
            u1 u2).

Definition step (it : Z) (w : world) : option world :=
  let newiz := Z.rem it 2 * (-1) + 1 in
  w' ← exchange newiz w;
  Some (fun k z =>
          if is_rank k && (z =? 1 - newiz)
          then update_block (nb_of k) (w' k newiz) (w' k (1 - newiz))
          else w' k z).

(** [for (it = 1; it <= STEPS; it++)] *)
Definition steps (STEPS : Z) (w : world) : option world :=
  foldl (fun ow it => ow ≫= step it) (Some w) (seqZ 1 STEPS).

(** From the scatter to the gather, for a block grid already chosen. *)
Definition run_grid (STEPS : Z) (u : buf) (fresh : world) : option buf :=
  w ← exchange 0 (scatter u fresh);       (* MPI_Startall, MPI_Waitall *)
  w' ← steps STEPS w;
  Some (gather (Z.rem STEPS 2) w' u).

End Run.

(** The whole computation on the grid [u] the master holds after
    [inidat]: the final contents of [u]. *)
Definition simulate (NXPROB NYPROB STEPS numworkers : Z) (u : buf) (fresh : world)
  : option buf :=
  '(xdim, ydim) ← block_grid NXPROB NYPROB numworkers;
  run_grid NXPROB NYPROB numworkers xdim ydim
           (Z.quot NXPROB xdim) (Z.quot NYPROB ydim) STEPS u fresh.

(** ** Iteration spaces and footprints

    What a loop nest of stencil statements amounts to: the list of cells
    it visits, in order; the stores those visits make; the accesses they
    log. *)

Definition cell_val (ny : Z) (u1 : buf) (c : Z * Z) : flt :=
  let '(ix, iy) := c in
  stencil_rhs (u1 (ix*ny+iy)) (u1 ((ix+1)*ny+iy)) (u1 ((ix-1)*ny+iy))
              (u1 (ix*ny+iy)) (u1 (ix*ny+iy+1)) (u1 (ix*ny+iy-1))
              (u1 (ix*ny+iy)).

Definition cell_reads (ny : Z) (c : Z * Z) : list Z :=
  let '(ix, iy) := c in
  [ix*ny+iy; (ix+1)*ny+iy; (ix-1)*ny+iy; ix*ny+iy; ix*ny+iy+1; ix*ny+iy-1; ix*ny+iy].

Definition cell_trace (ny : Z) (c : Z * Z) : list access :=
  (Rd <$> cell_reads ny c) ++ [Wr (c.1*ny+c.2)].

Definition cell_store (ny : Z) (u1 : buf) (c : Z * Z) : Z * flt :=
  (c.1*ny+c.2, cell_val ny u1 c).

Definition sweep (ny : Z) (cs : list (Z * Z)) (s : mach) : mach :=
  Mach (cur s)
       (pokes (cell_store ny (cur s) <$> cs) (nxt s))
       (trace s ++ (cs ≫= cell_trace ny)).

Definition sweeps (m : M unit) (ny : Z) (cs : list (Z * Z)) : Prop :=
  forall s, m s = (tt, sweep ny cs s).

(** Cells visited by [updateInternal start end ny]. *)
Definition internal_cells (start end_ ny : Z) : list (Z * Z) :=
  ix ← seqZ start (end_ - start + 1); iy ← seqZ 2 (ny - 1 - 2 + 1); [(ix, iy)].

(** First and last row and column the exterior pass works on, for the
    call [updateExternal(1, rows, columns, ...)]. *)
Definition row_lo (nb : nbrs) : Z := if is_null (up nb) then 2 else 1.
Definition row_hi (rows : Z) (nb : nbrs) : Z := if is_null (down nb) then rows - 1 else rows.
Definition col_lo (nb : nbrs) : Z := if is_null (left nb) then 2 else 1.
Definition col_hi (columns : Z) (nb : nbrs) : Z :=
  if is_null (right nb) then columns - 1 else columns.

Definition first_row_cells (columns : Z) (nb : nbrs) : list (Z * Z) :=
  (fun iy => (row_lo nb, iy)) <$> seqZ (col_lo nb) (columns - 1 - col_lo nb + 1).
Definition last_row_cells (rows columns : Z) (nb : nbrs) : list (Z * Z) :=
  (fun iy => (row_hi rows nb, iy)) <$> seqZ (col_lo nb) (col_hi columns nb - col_lo nb + 1).
Definition first_column_cells (rows : Z) (nb : nbrs) : list (Z * Z) :=
  (fun ix => (ix, col_lo nb)) <$> seqZ (row_lo nb) (row_hi rows nb - 1 - row_lo nb + 1).
Definition last_column_cells (rows columns : Z) (nb : nbrs) : list (Z * Z) :=
  (fun ix => (ix, col_hi columns nb)) <$> seqZ (row_lo nb) (row_hi rows nb - 1 - row_lo nb + 1).

Definition external_cells (rows columns : Z) (nb : nbrs) : list (Z * Z) :=
  first_row_cells columns nb ++ last_row_cells rows columns nb ++
  first_column_cells rows nb ++ last_column_cells rows columns nb.

(** ** Statements about the exterior pass *)

(** The one-cell-wide ring of the block's own cells. *)
Definition on_ring (rows columns ix iy : Z) : Prop :=
  1 <= ix <= rows /\ 1 <= iy <= columns /\
  (ix = 1 \/ ix = rows \/ iy = 1 \/ iy = columns).

(** A cell of the block in a row or column whose outer side is a domain
    edge (no neighbour there). *)
Definition at_domain_edge (rows columns : Z) (nb : nbrs) (ix iy : Z) : Prop :=
  (is_null (up nb) = true /\ ix = 1) \/
  (is_null (down nb) = true /\ ix = rows) \/
  (is_null (left nb) = true /\ iy = 1) \/
  (is_null (right nb) = true /\ iy = columns).

(** One call of the exterior pass assigns the stencil value to every ring
    cell not at a domain edge, and leaves the rows and columns at a domain
    edge unwritten. *)
Definition exterior_pass_spec (rows columns : Z) (nb : nbrs) (u1 u2 : buf) : Prop :=
  let s' := exec (updateExternal 1 rows columns (right nb) (left nb) (up nb) (down nb))
                 u1 u2 in
  (forall ix iy, on_ring rows columns ix iy -> ~ at_domain_edge rows columns nb ix iy ->
     Wr (at_ columns ix iy) ∈ trace s' /\
     nxt s' (at_ columns ix iy) = cell_val (columns + 2) u1 (ix, iy)) /\
  (forall ix iy, 1 <= ix <= rows -> 1 <= iy <= columns ->
     at_domain_edge rows columns nb ix iy ->
     (Wr (at_ columns ix iy) ∉ trace s') /\
     nxt s' (at_ columns ix iy) = u2 (at_ columns ix iy)).

(** A pass assigns only cells of rows 1..rows, columns 1..columns, so the
    ring of halo cells around them keeps its contents. *)
Definition keeps_off_halo (rows columns : Z) (m : M unit) (u1 u2 : buf) : Prop :=
  let s' := exec m u1 u2 in
  (forall off, Wr off ∈ trace s' ->
     exists ix iy, 1 <= ix <= rows /\ 1 <= iy <= columns /\ off = at_ columns ix iy) /\
  (forall ix iy, 0 <= ix <= rows + 1 -> 0 <= iy <= columns + 1 ->
     ix = 0 \/ ix = rows + 1 \/ iy = 0 \/ iy = columns + 1 ->
     nxt s' (at_ columns ix iy) = u2 (at_ columns ix iy)).

(** ** Statements about whole runs *)

(** Cells in a row or column at a domain edge hold the same values in two
    worlds. *)
Definition same_edges (W xdim ydim rows columns : Z) (w w' : world) : Prop :=
  forall k z ix iy,
    0 <= k < W -> 1 <= ix <= rows -> 1 <= iy <= columns ->
    at_domain_edge rows columns (nb_of W xdim ydim k) ix iy ->
    w' k z (at_ columns ix iy) = w k z (at_ columns ix iy).

(** ** Inputs for concrete runs

    Exact rational arithmetic, and -1 for [MPI_PROC_NULL]. *)

Definition null : Z := -1.
Definition no_nbrs : nbrs := Nbrs null null null null.

(** A buffer holding its own offsets, one holding ones, one holding zeros. *)
Definition ramp : @buf exact_arith := fun k => inject_Z k.
Definition ones : @buf exact_arith := fun _ => inject_Z 1.
Definition zeros : @buf exact_arith := fun _ => inject_Z 0.

(** [ramp] on the rows 1..rows, columns 1..columns of a block, 1000 on the
    ring around them and beyond. *)
Definition ramp_inside (rows columns : Z) : @buf exact_arith :=
  fun k =>
    let ix := k / (columns + 2) in
    let iy := k mod (columns + 2) in
    if (1 <=? ix) && (ix <=? rows) && (1 <=? iy) && (iy <=? columns)
    then inject_Z k else inject_Z 1000.

(** Uninitialised memory for runs in IEEE arithmetic. *)
Definition nans : @buf ieee_arith := fun _ => S754_nan.

(** Buffers of several ranks, every rank holding values of its own:
    100 * rank + offset in both buffers. *)
Definition ranked : Z -> Z -> @buf exact_arith := fun k _ off => inject_Z (100 * k + off).

(** ** The remaining subroutines *)

(** [void DUMMYDUMDUM(int nx, int ny, float *u)]: the loop state is the
    buffer and the counter [n] of [*(u+ix*ny+iy) = n++]. *)
Definition DUMMYDUMDUM (nx ny : Z) (u : buf) : buf :=
  fst (loopZ 0 (nx - 1) (fun ix =>
         loopZ 0 (ny - 1) (fun iy (st : buf * Z) =>
           let '(u, n) := st in (poke u (ix*ny+iy) (of_int n), n + 1)))
       (u, 0)).

(** What [prtdat] does to the file, call by call; [fopen] is taken to
    succeed (the source does not test its result). *)
Inductive file_call :=
| Fopen (fnam mode : string)
| Fprintf_float (format : string) (v : flt)   (* fprintf(fp, "%6.1f", v) *)
| Fprintf_text (text : string)                (* fprintf(fp, " "), fprintf(fp, "\n") *)
| Fclose.

(** [for (iy = hi; iy >= 0; iy--)]: the values [hi], [hi-1], ..., 0. *)
Definition down_to_0 (hi : Z) : list Z := (fun k => hi - k) <$> seqZ 0 (hi + 1).

(** [void prtdat(int nx, int ny, float *u1, char *fnam)] *)
Definition prtdat_cell (nx ny : Z) (u1 : buf) (iy ix : Z) : list file_call :=
  [Fprintf_float "%6.1f" (u1 (ix*ny+iy));
   if negb (ix =? nx - 1) then Fprintf_text " " else Fprintf_text "\n"].

Definition prtdat (nx ny : Z) (u1 : buf) (fnam : string) : list file_call :=
  [Fopen fnam "w"] ++
  (iy ← down_to_0 (ny - 1); ix ← seqZ 0 (nx - 1 - 0 + 1); prtdat_cell nx ny u1 iy ix) ++
  [Fclose].

(** The allocator as the two functions below use it: the calls made, in
    order.  What a [malloc] returns is an input of the model; [None] is
    the null pointer.  Pointers are byte addresses. *)
Inductive heap_call :=
| Malloc (size : Z) (result : option Z)
| Free (ptr : option Z).

(** A [float **]: the pointer itself and the row pointers it leads to. *)
Record float2d := Float2d { table : option Z; row : Z -> option Z }.

Section Alloc.
Variables sizeof_float sizeof_ptr : Z.

(** [int malloc2darr(float ***array, int n, int m)].  [array] is what
    [*array] held on entry, [p] and [t] what the two mallocs return (the
    second is not called when the first fails), [junk] the contents of the
    fresh row table.  Result: the value returned, [*array] on return, the
    allocator calls. *)
Definition malloc2darr (array : float2d) (junk : Z -> option Z) (n m : Z)
    (p t : option Z) : Z * float2d * list heap_call :=
  match p with
  | None => (-1, array, [Malloc (n*m*sizeof_float) None])
  | Some p_ =>
      match t with
      | None =>
          (-1, Float2d None (row array),
           [Malloc (n*m*sizeof_float) p; Malloc (n*sizeof_ptr) None; Free p])
      | Some _ =>
          (0,
           Float2d t (loopZ 0 (n - 1) (fun i (rw : Z -> option Z) =>
                        fun k => if k =? i then Some (p_ + i*m*sizeof_float) else rw k)
                      junk),
           [Malloc (n*m*sizeof_float) p; Malloc (n*sizeof_ptr) t])
      end
  end.

(** [int free2darr(float ***array)] *)
Definition free2darr (array : float2d) : Z * list heap_call :=
  (0, [Free (row array 0); Free (table array)]).

(** The address of [array[i][j]]. *)
Definition elem_addr (array : float2d) (i j : Z) : option Z :=
  (fun r => r + j * sizeof_float) <$> row array i.

End Alloc.

(** ** The grid as a whole

    The stencil statement of the two passes, applied to every cell of an
    [NX] x [NY] grid that is not on its boundary: what one time step
    amounts to when the grid is not cut into blocks. *)
Definition grid := Z -> Z -> flt.

Definition grid_of (NY : Z) (u : buf) : grid := fun i j => u (i * NY + j).

(** The cells with all four neighbours on the grid. *)
Definition inner (NX NY i j : Z) : bool :=
  (1 <=? i) && (i <=? NX - 2) && (1 <=? j) && (j <=? NY - 2).

Definition serial_step (NX NY : Z) (g : grid) : grid :=
  fun i j =>
    if inner NX NY i j
    then stencil_rhs (g i j) (g (i + 1) j) (g (i - 1) j) (g i j)
                     (g i (j + 1)) (g i (j - 1)) (g i j)
    else g i j.

Definition serial_steps (NX NY : Z) (n : nat) (g : grid) : grid :=
  Nat.iter n (serial_step NX NY) g.

(** Buffer [z] of every rank holds, in rows 1..rows and columns
    1..columns, its block of the grid [g]. *)
Definition holds_grid (xdim ydim rows columns : Z) (w : world) (z : Z) (g : grid) : Prop :=
  forall r c a b,
    0 <= r < xdim -> 0 <= c < ydim -> 0 <= a < rows -> 0 <= b < columns ->
    w (r * ydim + c) z (at_ columns (1 + a) (1 + b)) = g (r * rows + a) (c * columns + b).

(** The blocks a sequence of allocator calls leaves allocated, newest
    first; [free(NULL)] does nothing. *)
Fixpoint release (p : Z) (blocks : list Z) : list Z :=
  match blocks with
  | [] => []
  | q :: rest => if q =? p then rest else q :: release p rest
  end.

Definition after_call (blocks : list Z) (c : heap_call) : list Z :=
  match c with
  | Malloc _ (Some p) => p :: blocks
  | Malloc _ None => blocks
  | Free (Some p) => release p blocks
  | Free None => blocks
  end.

Definition allocated (calls : list heap_call) : list Z := foldl after_call [] calls.

(** One time step on the whole grid, the cells on the boundary taking
    their values from [edge]; [serial_step] keeps the boundary as it is. *)
Definition step_keeping (NX NY : Z) (edge g : grid) : grid :=
  fun i j =>
    if inner NX NY i j
    then stencil_rhs (g i j) (g (i + 1) j) (g (i - 1) j) (g i j)
                     (g i (j + 1)) (g i (j - 1)) (g i j)
    else edge i j.

(** Time steps on the whole grid with the boundary the two buffers of
    the program hold: the initial values in [local[0]], where the even
    steps store, and 0.0 in [local[1]], where the odd steps store. *)
Fixpoint two_buffer_steps (NX NY : Z) (u : grid) (n : nat) : grid :=
  match n with
  | O => u
  | S n' =>
      step_keeping NX NY (if Z.odd (Z.of_nat n) then (fun _ _ => to_flt lit_0_0) else u)
                   (two_buffer_steps NX NY u n')
  end.

(** The worker counts the program is written for: [W] passes the start-up
    checks, its block grid cuts the NX x NY grid into equal blocks with
    nothing left over, and a block has at least two rows and two columns
    (three where it spans the grid in that direction). *)
Definition cuts_evenly (NX NY W xdim ydim : Z) : Prop :=
  1 <= W /\ ~ Z.prime W /\
  block_grid NX NY W = Some (xdim, ydim) /\
  xdim * (NX ÷ xdim) = NX /\ ydim * (NY ÷ ydim) = NY /\
  2 <= NX ÷ xdim /\ 2 <= NY ÷ ydim /\
  (3 <= NX ÷ xdim \/ 2 <= xdim) /\ (3 <= NY ÷ ydim \/ 2 <= ydim).

(** The two calls as the loop body has them: [updateInternal] runs while
    the receives are in flight and reads the buffer as it is [before] they
    complete, [updateExternal] runs after the waits and reads it as it is
    [after]. *)
Definition update_block_overlapped (rows columns : Z) (nb : nbrs)
    (before after u2 : buf) : buf :=
  nxt (exec (updateExternal 1 rows columns (right nb) (left nb) (up nb) (down nb))
            after
            (nxt (exec (updateInternal 2 (rows - 1) columns) before u2))).

(** The two files the master writes in a run that gets past start-up:
    [initial.dat] from the field [inidat] leaves in [u], [final.dat] from
    the gathered field.  [None]: the run does not reach the gather. *)
Definition main_files (NXPROB NYPROB STEPS numworkers : Z) (u : buf) (fresh : world)
  : option (list file_call * list file_call) :=
  let u0 := inidat NXPROB NYPROB u in
  fin ← simulate NXPROB NYPROB STEPS numworkers u0 fresh;
  Some (prtdat NXPROB NYPROB u0 "initial.dat", prtdat NXPROB NYPROB fin "final.dat").

(** * Proofs *)

(** ** 32-bit products *)

Lemma wrap_int_range z : - 2147483648 <= wrap_int z <= INT_MAX.
Proof.
  unfold wrap_int, INT_MAX.
  pose proof (Z.mod_pos_bound (z + 2147483648) 4294967296). lia.
Qed.

Lemma wrap_int_small z : - 2147483648 <= z <= INT_MAX -> wrap_int z = z.
Proof. unfold wrap_int, INT_MAX. intros. rewrite Z.mod_small; lia. Qed.

(** Reducing a factor first does not change the reduced product. *)
Lemma wrap_int_mul_l a b : wrap_int (wrap_int a * b) = wrap_int (a * b).
Proof.
  unfold wrap_int. f_equal.
  rewrite (Z.mod_eq (a + 2147483648)) by lia.
  replace ((a + 2147483648 - 4294967296 * ((a + 2147483648) / 4294967296) - 2147483648) * b
           + 2147483648)
    with (a * b + 2147483648 + (- ((a + 2147483648) / 4294967296) * b) * 4294967296) by ring.
  apply Z_mod_plus_full.
Qed.

(** ** Buffers *)

Lemma poke_eq (u : buf) off v : poke u off v off = v.
Proof. unfold poke. by rewrite Z.eqb_refl. Qed.

Lemma poke_ne (u : buf) off v k : k <> off -> poke u off v k = u k.
Proof. unfold poke. intros Hne. by destruct (Z.eqb_spec k off). Qed.

Lemma pokes_app ws1 ws2 b : pokes (ws1 ++ ws2) b = pokes ws2 (pokes ws1 b).
Proof. unfold pokes. apply foldl_app. Qed.

Lemma pokes_snoc ws w b : pokes (ws ++ [w]) b = poke (pokes ws b) w.1 w.2.
Proof. by rewrite pokes_app. Qed.

(** A displacement no store goes to keeps its value. *)
Lemma pokes_notin ws b off : off ∉ ws.*1 -> pokes ws b off = b off.
Proof.
  induction ws as [|w ws IH] using rev_ind; [done|].
  rewrite fmap_app, not_elem_of_app, pokes_snoc. simpl.
  intros [Hws Hw]. rewrite poke_ne; [auto|].
  intros ->. apply Hw. left.
Qed.

(** A displacement all of whose stores carry [v] ends up holding [v]. *)
Lemma pokes_in ws b off v :
  (off, v) ∈ ws -> (forall v', (off, v') ∈ ws -> v' = v) -> pokes ws b off = v.
Proof.
  induction ws as [|w ws IH] using rev_ind; [by intros ?%elem_of_nil|].
  intros Hin Hall. rewrite pokes_snoc.
  destruct (decide (w.1 = off)) as [<-|Hne].
  - rewrite poke_eq. apply Hall. rewrite elem_of_app, list_elem_of_singleton.
    right. by destruct w.
  - rewrite poke_ne by done. apply IH.
    + apply elem_of_app in Hin as [?|Hin]; [done|].
      apply list_elem_of_singleton in Hin. subst w. done.
    + intros v' Hv'. apply Hall. rewrite elem_of_app. by left.
Qed.

(** Row-major addressing is one-to-one on in-range columns. *)
Lemma flat_inj ny ix iy ix' iy' :
  0 <= iy < ny -> 0 <= iy' < ny -> ix*ny+iy = ix'*ny+iy' -> ix = ix' /\ iy = iy'.
Proof. intros. assert (ix = ix') by nia. subst. lia. Qed.

(** ** Loop nests of stencil statements are sweeps *)

Lemma sweep_nil ny s : sweep ny [] s = s.
Proof. destruct s. unfold sweep. simpl. by rewrite app_nil_r. Qed.

Lemma sweep_app ny cs1 cs2 s : sweep ny (cs1 ++ cs2) s = sweep ny cs2 (sweep ny cs1 s).
Proof.
  unfold sweep. simpl. by rewrite fmap_app, pokes_app, bind_app, app_assoc.
Qed.

Lemma sweeps_ret ny : sweeps (ret tt) ny [].
Proof. intros s. unfold ret. by rewrite sweep_nil. Qed.

Lemma sweeps_stmt ny ix iy : sweeps (stencil_stmt ny ix iy) ny [(ix, iy)].
Proof.
  intros [u1 u2 t]. unfold stencil_stmt, bind, load, store, sweep. simpl.
  by rewrite <- !app_assoc.
Qed.

Lemma sweeps_seq m1 m2 ny cs1 cs2 :
  sweeps m1 ny cs1 -> sweeps m2 ny cs2 -> sweeps (m1 ;;; m2) ny (cs1 ++ cs2).
Proof.
  intros H1 H2 s. unfold bind. by rewrite H1, H2, sweep_app.
Qed.

Lemma sweeps_for_each {A} (l : list A) body ny (g : A -> list (Z * Z)) :
  (forall i, sweeps (body i) ny (g i)) -> sweeps (for_each l body) ny (l ≫= g).
Proof.
  intros Hbody. induction l as [|i l IH]; simpl.
  - apply sweeps_ret.
  - apply sweeps_seq; auto.
Qed.

Lemma sweeps_forZ lo hi body ny (g : Z -> list (Z * Z)) :
  (forall i, sweeps (body i) ny (g i)) ->
  sweeps (forZ lo hi body) ny (seqZ lo (hi - lo + 1) ≫= g).
Proof. apply sweeps_for_each. Qed.

Lemma sweeps_forZ_stmt lo hi ny (f : Z -> Z * Z) :
  sweeps (forZ lo hi (fun i => stencil_stmt ny (f i).1 (f i).2)) ny
         (f <$> seqZ lo (hi - lo + 1)).
Proof.
  replace (f <$> seqZ lo (hi - lo + 1)) with (seqZ lo (hi - lo + 1) ≫= fun i => [f i]).
  - apply sweeps_forZ. intros i. destruct (f i) eqn:E. apply sweeps_stmt.
  - induction (seqZ lo (hi - lo + 1)); simpl; [done|]. by f_equal.
Qed.

Lemma updateInternal_sweeps start end_ ny :
  sweeps (updateInternal start end_ ny) (ny + 2) (internal_cells start end_ ny).
Proof.
  unfold updateInternal, internal_cells.
  apply sweeps_forZ. intros ix. apply sweeps_forZ. intros iy. apply sweeps_stmt.
Qed.

Lemma sweeps_forZ_row lo hi lo' n ny ix ix' :
  ix = ix' -> lo = lo' -> n = hi - lo + 1 ->
  sweeps (forZ lo hi (fun iy => stencil_stmt ny ix iy)) ny
         ((fun iy => (ix', iy)) <$> seqZ lo' n).
Proof. intros -> -> ->. apply (sweeps_forZ_stmt lo' hi ny (fun iy => (ix', iy))). Qed.

Lemma sweeps_forZ_col lo hi lo' n ny iy iy' :
  iy = iy' -> lo = lo' -> n = hi - lo + 1 ->
  sweeps (forZ lo hi (fun ix => stencil_stmt ny ix iy)) ny
         ((fun ix => (ix, iy')) <$> seqZ lo' n).
Proof. intros -> -> ->. apply (sweeps_forZ_stmt lo' hi ny (fun ix => (ix, iy'))). Qed.

Lemma updateExternal_sweeps rows columns nb :
  sweeps (updateExternal 1 rows columns (right nb) (left nb) (up nb) (down nb))
         (columns + 2) (external_cells rows columns nb).
Proof.
  unfold updateExternal, external_cells.
  unfold first_row_cells, last_row_cells, first_column_cells, last_column_cells.
  unfold row_lo, row_hi, col_lo, col_hi.
  cbv zeta.
  apply sweeps_seq; [|apply sweeps_seq; [|apply sweeps_seq]];
    destruct (is_null (up nb)), (is_null (down nb)),
             (is_null (left nb)), (is_null (right nb)); simpl negb; cbv iota.
  1-32: apply sweeps_forZ_row; lia.
  all: apply sweeps_forZ_col; lia.
Qed.

(** ** What a sweep leaves behind *)

Lemma exec_sweeps m ny cs u1 u2 :
  sweeps m ny cs -> exec m u1 u2 = sweep ny cs (Mach u1 u2 []).
Proof. intros H. unfold exec. by rewrite H. Qed.

Lemma sweep_frame ny cs s off :
  (forall c, c ∈ cs -> off <> c.1*ny+c.2) -> nxt (sweep ny cs s) off = nxt s off.
Proof.
  intros Hout. simpl. apply pokes_notin.
  rewrite <- list_fmap_compose. intros (c & -> & Hc)%list_elem_of_fmap.
  by apply (Hout c).
Qed.

Lemma sweep_written ny cs s c :
  c ∈ cs ->
  (forall c', c' ∈ cs -> c'.1*ny+c'.2 = c.1*ny+c.2 -> c' = c) ->
  nxt (sweep ny cs s) (c.1*ny+c.2) = cell_val ny (cur s) c.
Proof.
  intros Hc Huniq. simpl. apply pokes_in.
  - apply list_elem_of_fmap. by exists c.
  - intros v' (c' & [= Hoff ->] & Hc')%list_elem_of_fmap.
    by rewrite (Huniq c' Hc').
Qed.

Lemma sweep_trace ny cs s a :
  a ∈ trace (sweep ny cs s) <-> a ∈ trace s \/ exists c, c ∈ cs /\ a ∈ cell_trace ny c.
Proof.
  simpl. rewrite elem_of_app, list_elem_of_bind.
  split; (intros [?|(c & ? & ?)]; [by left | right; by exists c]).
Qed.

Lemma cell_trace_Wr ny c off : Wr off ∈ cell_trace ny c <-> off = c.1*ny+c.2.
Proof.
  unfold cell_trace. rewrite elem_of_app, list_elem_of_fmap, list_elem_of_singleton.
  split; [|intros ->; by right]. intros [(? & ? & _)|?]; by simplify_eq.
Qed.

Lemma cell_trace_Rd ny c off : Rd off ∈ cell_trace ny c <-> off ∈ cell_reads ny c.
Proof.
  unfold cell_trace. rewrite elem_of_app, list_elem_of_fmap, list_elem_of_singleton.
  split.
  - intros [(? & [= ->] & ?)|[=]]; done.
  - intros ?. left. eauto.
Qed.

(** The five cells a stencil statement reads. *)
Lemma cell_reads_spec ny ix iy off :
  off ∈ cell_reads ny (ix, iy) ->
  off = ix*ny+iy \/ off = (ix+1)*ny+iy \/ off = (ix-1)*ny+iy \/
  off = ix*ny+(iy+1) \/ off = ix*ny+(iy-1).
Proof.
  unfold cell_reads. rewrite !elem_of_cons, elem_of_nil. lia.
Qed.

(** ** Membership in the iteration spaces *)

Lemma elem_of_internal_cells start end_ ny ix iy :
  (ix, iy) ∈ internal_cells start end_ ny <-> start <= ix <= end_ /\ 2 <= iy <= ny - 1.
Proof.
  unfold internal_cells. rewrite list_elem_of_bind. split.
  - intros (x & (y & Hxy & Hy%elem_of_seqZ)%list_elem_of_bind & Hx%elem_of_seqZ).
    apply list_elem_of_singleton in Hxy as [= -> ->]. lia.
  - intros [Hx Hy]. exists ix. split; [|apply elem_of_seqZ; lia].
    apply list_elem_of_bind. exists iy. split; [by apply list_elem_of_singleton|].
    apply elem_of_seqZ; lia.
Qed.

Lemma elem_of_first_row_cells columns nb ix iy :
  (ix, iy) ∈ first_row_cells columns nb <->
  ix = row_lo nb /\ col_lo nb <= iy <= columns - 1.
Proof.
  unfold first_row_cells. rewrite list_elem_of_fmap. setoid_rewrite elem_of_seqZ.
  split; [intros (? & [= -> ->] & ?); lia|]. intros [-> ?]. exists iy. split; [done|lia].
Qed.

Lemma elem_of_last_row_cells rows columns nb ix iy :
  (ix, iy) ∈ last_row_cells rows columns nb <->
  ix = row_hi rows nb /\ col_lo nb <= iy <= col_hi columns nb.
Proof.
  unfold last_row_cells. rewrite list_elem_of_fmap. setoid_rewrite elem_of_seqZ.
  split; [intros (? & [= -> ->] & ?); lia|]. intros [-> ?]. exists iy. split; [done|lia].
Qed.

Lemma elem_of_first_column_cells rows nb ix iy :
  (ix, iy) ∈ first_column_cells rows nb <->
  iy = col_lo nb /\ row_lo nb <= ix <= row_hi rows nb - 1.
Proof.
  unfold first_column_cells. rewrite list_elem_of_fmap. setoid_rewrite elem_of_seqZ.
  split; [intros (? & [= -> ->] & ?); lia|]. intros [-> ?]. exists ix. split; [done|lia].
Qed.

Lemma elem_of_last_column_cells rows columns nb ix iy :
  (ix, iy) ∈ last_column_cells rows columns nb <->
  iy = col_hi columns nb /\ row_lo nb <= ix <= row_hi rows nb - 1.
Proof.
  unfold last_column_cells. rewrite list_elem_of_fmap. setoid_rewrite elem_of_seqZ.
  split; [intros (? & [= -> ->] & ?); lia|]. intros [-> ?]. exists ix. split; [done|lia].
Qed.

Lemma elem_of_external_cells rows columns nb ix iy :
  (ix, iy) ∈ external_cells rows columns nb <->
  (ix = row_lo nb /\ col_lo nb <= iy <= columns - 1) \/
  (ix = row_hi rows nb /\ col_lo nb <= iy <= col_hi columns nb) \/
  (iy = col_lo nb /\ row_lo nb <= ix <= row_hi rows nb - 1) \/
  (iy = col_hi columns nb /\ row_lo nb <= ix <= row_hi rows nb - 1).
Proof.
  unfold external_cells. rewrite !elem_of_app.
  by rewrite elem_of_first_row_cells, elem_of_last_row_cells,
    elem_of_first_column_cells, elem_of_last_column_cells.
Qed.

Lemma row_lo_cases nb : row_lo nb = 1 \/ row_lo nb = 2.
Proof. unfold row_lo. destruct (is_null _); lia. Qed.
Lemma col_lo_cases nb : col_lo nb = 1 \/ col_lo nb = 2.
Proof. unfold col_lo. destruct (is_null _); lia. Qed.
Lemma row_hi_cases rows nb : row_hi rows nb = rows \/ row_hi rows nb = rows - 1.
Proof. unfold row_hi. destruct (is_null _); lia. Qed.
Lemma col_hi_cases columns nb : col_hi columns nb = columns \/ col_hi columns nb = columns - 1.
Proof. unfold col_hi. destruct (is_null _); lia. Qed.

(** ** The interior pass *)

Lemma internal_cells_inj rows columns c c' :
  c ∈ internal_cells 2 (rows - 1) columns ->
  c' ∈ internal_cells 2 (rows - 1) columns ->
  c'.1*(columns+2)+c'.2 = c.1*(columns+2)+c.2 -> c' = c.
Proof.
  destruct c as [ix iy], c' as [ix' iy'].
  rewrite !elem_of_internal_cells. simpl. intros ? ? Heq.
  apply flat_inj in Heq as [-> ->]; [done|lia..].
Qed.

Lemma cell_val_at columns (u1 : buf) ix iy :
  cell_val (columns + 2) u1 (ix, iy) =
  to_flt (to_dbl (u1 (at_ columns ix iy))
          +d to_dbl (cx parms) *d
               (to_dbl (u1 (at_ columns (ix+1) iy) +f u1 (at_ columns (ix-1) iy))
                -d lit_2_0 *d to_dbl (u1 (at_ columns ix iy)))
          +d to_dbl (cy parms) *d
               (to_dbl (u1 (at_ columns ix (iy+1)) +f u1 (at_ columns ix (iy-1)))
                -d lit_2_0 *d to_dbl (u1 (at_ columns ix iy)))).
Proof.
  unfold cell_val, stencil_rhs, at_.
  replace (ix * (columns + 2) + iy + 1) with (ix * (columns + 2) + (iy + 1)) by lia.
  replace (ix * (columns + 2) + iy - 1) with (ix * (columns + 2) + (iy - 1)) by lia.
  done.
Qed.

(** C3. [updateInternal(2, rows-1, columns, u1, u2)] assigns exactly the
    cells (ix, iy) with 2 <= ix <= rows-1 and 2 <= iy <= columns-1, each
    receiving the stencil expression evaluated on [u1] with both
    coefficients the constant 0.1, leaves every other cell of [u2] as it
    was, and dereferences [u1] only at cells of rows 1..rows and columns
    1..columns. *)
Theorem updateInternal_interior_pass (rows columns : Z) (u1 u2 : buf) :
  let s' := exec (updateInternal 2 (rows - 1) columns) u1 u2 in
  (forall ix iy, 2 <= ix <= rows - 1 -> 2 <= iy <= columns - 1 ->
     nxt s' (at_ columns ix iy) =
     to_flt (to_dbl (u1 (at_ columns ix iy))
             +d to_dbl (cx parms) *d
                  (to_dbl (u1 (at_ columns (ix+1) iy) +f u1 (at_ columns (ix-1) iy))
                   -d lit_2_0 *d to_dbl (u1 (at_ columns ix iy)))
             +d to_dbl (cy parms) *d
                  (to_dbl (u1 (at_ columns ix (iy+1)) +f u1 (at_ columns ix (iy-1)))
                   -d lit_2_0 *d to_dbl (u1 (at_ columns ix iy))))) /\
  cx parms = to_flt lit_0_1 /\ cy parms = to_flt lit_0_1 /\
  (forall off, Wr off ∈ trace s' <->
     exists ix iy, 2 <= ix <= rows - 1 /\ 2 <= iy <= columns - 1 /\
                   off = at_ columns ix iy) /\
  (forall off, Wr off ∉ trace s' -> nxt s' off = u2 off) /\
  (forall off, Rd off ∈ trace s' ->
     exists ix iy, 1 <= ix <= rows /\ 1 <= iy <= columns /\ off = at_ columns ix iy) /\
  cur s' = u1.
Proof.
  intros s'. subst s'.
  rewrite (exec_sweeps _ _ _ u1 u2 (updateInternal_sweeps 2 (rows - 1) columns)).
  assert (Hwr : forall off,
    Wr off ∈ trace (sweep (columns + 2) (internal_cells 2 (rows - 1) columns) (Mach u1 u2 [])) <->
    exists ix iy, 2 <= ix <= rows - 1 /\ 2 <= iy <= columns - 1 /\ off = at_ columns ix iy).
  { intros off. rewrite sweep_trace. simpl. rewrite elem_of_nil. split.
    - intros [[]|([ix iy] & Hc%elem_of_internal_cells & ->%cell_trace_Wr)].
      exists ix, iy. unfold at_. simpl. lia.
    - intros (ix & iy & ? & ? & ->). right. exists (ix, iy).
      rewrite elem_of_internal_cells, cell_trace_Wr. unfold at_. simpl. lia. }
  split; [|split; [done|split; [done|split; [exact Hwr|split; [|split]]]]].
  - intros ix iy Hx Hy. rewrite <- cell_val_at.
    apply (sweep_written (columns + 2) _ (Mach u1 u2 []) (ix, iy)).
    + by apply elem_of_internal_cells.
    + intros c' Hc'. apply (internal_cells_inj rows); [|done].
      by apply elem_of_internal_cells.
  - intros off Hoff. rewrite sweep_frame; [done|].
    intros [ix iy] Hc%elem_of_internal_cells ->. apply Hoff, Hwr.
    exists ix, iy. unfold at_. simpl. lia.
  - intros off. rewrite sweep_trace. simpl. rewrite elem_of_nil.
    intros [[]|([ix iy] & Hc%elem_of_internal_cells & Hrd%cell_trace_Rd)].
    apply cell_reads_spec in Hrd. unfold at_.
    destruct Hrd as [-> | [-> | [-> | [-> | ->]]]].
    + exists ix, iy. lia.
    + exists (ix + 1), iy. lia.
    + exists (ix - 1), iy. lia.
    + exists ix, (iy + 1). lia.
    + exists ix, (iy - 1). lia.
  - done.
Qed.

(** C5. Two current buffers that agree on rows 1..rows, columns
    1..columns and differ at will on the ring around them make the
    interior pass produce the same next buffer and the same accesses. *)
Theorem interior_independent_of_halo (rows columns : Z) (u1 u1' u2 : buf) :
  (forall ix iy, 1 <= ix <= rows -> 1 <= iy <= columns ->
     u1 (at_ columns ix iy) = u1' (at_ columns ix iy)) ->
  (forall off, nxt (exec (updateInternal 2 (rows - 1) columns) u1 u2) off =
               nxt (exec (updateInternal 2 (rows - 1) columns) u1' u2) off) /\
  trace (exec (updateInternal 2 (rows - 1) columns) u1 u2) =
  trace (exec (updateInternal 2 (rows - 1) columns) u1' u2).
Proof.
  intros Hagree.
  rewrite !(exec_sweeps _ _ _ _ u2 (updateInternal_sweeps 2 (rows - 1) columns)).
  split; [|done]. intros off. simpl. f_equal.
  apply Forall_fmap_ext, Forall_forall.
  intros [ix iy] Hc%elem_of_internal_cells. unfold cell_store. f_equal.
  rewrite !cell_val_at.
  rewrite !Hagree by lia. done.
Qed.

(** ** The exterior pass *)

Lemma not_at_domain_edge rows columns nb ix iy :
  1 <= ix <= rows -> 1 <= iy <= columns ->
  ~ at_domain_edge rows columns nb ix iy <->
  row_lo nb <= ix <= row_hi rows nb /\ col_lo nb <= iy <= col_hi columns nb.
Proof.
  unfold at_domain_edge, row_lo, row_hi, col_lo, col_hi. intros Hx Hy.
  destruct (is_null (up nb)), (is_null (down nb)),
           (is_null (left nb)), (is_null (right nb));
    (split; [intros Hn; repeat split;
               destruct (decide (ix = 1)), (decide (ix = rows)),
                        (decide (iy = 1)), (decide (iy = columns));
               try lia; exfalso; apply Hn; auto
            |intros ? [[? ?]|[[? ?]|[[? ?]|[? ?]]]]; try discriminate; lia]).
Qed.

(** With at least two rows and two columns every cell visited is one of
    the block's own. *)
Lemma external_cells_range rows columns nb ix iy :
  2 <= rows -> 2 <= columns ->
  (ix, iy) ∈ external_cells rows columns nb ->
  1 <= ix <= rows /\ 1 <= iy <= columns.
Proof.
  intros Hr Hc. rewrite elem_of_external_cells.
  pose proof (row_lo_cases nb). pose proof (col_lo_cases nb).
  pose proof (row_hi_cases rows nb). pose proof (col_hi_cases columns nb).
  lia.
Qed.

(** Unless both ends of a two-row (two-column) block are domain edges,
    the cells visited avoid the rows and columns at a domain edge. *)
Lemma external_cells_live rows columns nb ix iy :
  row_lo nb <= row_hi rows nb -> col_lo nb <= col_hi columns nb ->
  (ix, iy) ∈ external_cells rows columns nb ->
  row_lo nb <= ix <= row_hi rows nb /\ col_lo nb <= iy <= col_hi columns nb.
Proof.
  intros Hr Hc. rewrite elem_of_external_cells.
  pose proof (col_hi_cases columns nb). lia.
Qed.

Lemma external_cells_cover rows columns nb ix iy :
  row_lo nb <= row_hi rows nb -> col_lo nb <= col_hi columns nb ->
  on_ring rows columns ix iy ->
  row_lo nb <= ix <= row_hi rows nb -> col_lo nb <= iy <= col_hi columns nb ->
  (ix, iy) ∈ external_cells rows columns nb.
Proof.
  intros Hr Hc (Hx & Hy & Hring) Hlx Hly. rewrite elem_of_external_cells.
  pose proof (row_lo_cases nb). pose proof (col_lo_cases nb).
  pose proof (row_hi_cases rows nb). pose proof (col_hi_cases columns nb).
  lia.
Qed.

Lemma external_cells_inj rows columns nb c c' :
  2 <= rows -> 2 <= columns ->
  c ∈ external_cells rows columns nb -> c' ∈ external_cells rows columns nb ->
  c'.1*(columns+2)+c'.2 = c.1*(columns+2)+c.2 -> c' = c.
Proof.
  destruct c as [ix iy], c' as [ix' iy']. simpl.
  intros Hr Hc H1%external_cells_range H2%external_cells_range Heq; try done.
  apply flat_inj in Heq as [-> ->]; [done|lia..].
Qed.

Lemma live_rows rows nb :
  2 <= rows ->
  ~ (rows = 2 /\ is_null (up nb) = true /\ is_null (down nb) = true) ->
  row_lo nb <= row_hi rows nb.
Proof.
  unfold row_lo, row_hi. intros Hr Hn.
  destruct (is_null (up nb)), (is_null (down nb));
    first [lia | destruct (decide (rows = 2)); [exfalso; by apply Hn | lia]].
Qed.

Lemma live_columns columns nb :
  2 <= columns ->
  ~ (columns = 2 /\ is_null (left nb) = true /\ is_null (right nb) = true) ->
  col_lo nb <= col_hi columns nb.
Proof.
  unfold col_lo, col_hi. intros Hr Hn.
  destruct (is_null (left nb)), (is_null (right nb));
    first [lia | destruct (decide (columns = 2)); [exfalso; by apply Hn | lia]].
Qed.

Lemma Wr_external rows columns nb u1 u2 off :
  Wr off ∈ trace (exec (updateExternal 1 rows columns (right nb) (left nb) (up nb) (down nb))
                       u1 u2) <->
  exists c, c ∈ external_cells rows columns nb /\ off = c.1*(columns+2)+c.2.
Proof.
  rewrite (exec_sweeps _ _ _ u1 u2 (updateExternal_sweeps rows columns nb)).
  rewrite sweep_trace. simpl. rewrite elem_of_nil.
  split.
  - intros [[]|(c & ? & ?%cell_trace_Wr)]. by exists c.
  - intros (c & ? & ?). right. exists c. by rewrite cell_trace_Wr.
Qed.

(** Where the exterior pass does what is expected of it.  For a block of
    at least two rows and two columns, other than a two-row block with
    neither an upper nor a lower neighbour and a two-column block with
    neither a left nor a right one, the pass assigns the stencil value of
    the current buffer to every ring cell that is not in a row or column
    at a domain edge (with four real neighbours: to every ring cell), and
    assigns no cell of a row or column at a domain edge.  The blocks left
    out are those on which the strips shifted away from two opposite
    edges cross. *)
Lemma exterior_pass_ring (rows columns : Z) (nb : nbrs) (u1 u2 : buf) :
  2 <= rows -> 2 <= columns ->
  ~ (rows = 2 /\ is_null (up nb) = true /\ is_null (down nb) = true) ->
  ~ (columns = 2 /\ is_null (left nb) = true /\ is_null (right nb) = true) ->
  exterior_pass_spec rows columns nb u1 u2 /\
  (is_null (up nb) = false -> is_null (down nb) = false ->
   is_null (left nb) = false -> is_null (right nb) = false ->
   forall ix iy, on_ring rows columns ix iy ->
     nxt (exec (updateExternal 1 rows columns (right nb) (left nb) (up nb) (down nb))
               u1 u2) (at_ columns ix iy) = cell_val (columns + 2) u1 (ix, iy)).
Proof.
  intros Hr Hc Hr2%live_rows Hc2%live_columns; [|done..].
  assert (Hspec : exterior_pass_spec rows columns nb u1 u2).
  { split.
    - intros ix iy Hring Hedge.
      assert (Hin : (ix, iy) ∈ external_cells rows columns nb).
      { destruct Hring as (Hx & Hy & ?).
        apply not_at_domain_edge in Hedge as [? ?]; [|done..].
        by apply external_cells_cover. }
      split.
      + apply Wr_external. by exists (ix, iy).
      + rewrite (exec_sweeps _ _ _ u1 u2 (updateExternal_sweeps rows columns nb)).
        apply (sweep_written (columns + 2) _ (Mach u1 u2 []) (ix, iy)); [done|].
        intros c' Hc'. by apply (external_cells_inj rows columns nb).
    - intros ix iy Hx Hy Hedge.
      assert (Hout : forall c, c ∈ external_cells rows columns nb ->
                 at_ columns ix iy <> c.1*(columns+2)+c.2).
      { intros [ix' iy'] Hc' Heq. unfold at_ in Heq. simpl in Heq.
        pose proof (external_cells_range _ _ _ _ _ Hr Hc Hc') as [? ?].
        apply flat_inj in Heq as [<- <-]; [|lia..].
        apply external_cells_live in Hc'; [|done..].
        by apply (not_at_domain_edge rows columns nb ix iy) in Hc'. }
      split.
      + intros (c & Hc' & Heq)%Wr_external. by apply (Hout c).
      + rewrite (exec_sweeps _ _ _ u1 u2 (updateExternal_sweeps rows columns nb)).
        by apply sweep_frame. }
  split; [done|].
  intros Hu Hd Hl Hrt ix iy Hring. apply Hspec; [done|].
  unfold at_domain_edge. rewrite Hu, Hd, Hl, Hrt. intros [[? ?]|[[? ?]|[[? ?]|[? ?]]]]; done.
Qed.

(** Exactly where: the pass meets that description on the blocks above
    and on those on which its four loops are all empty, and on no other
    block of at least two rows and two columns. *)
Lemma exterior_pass_exactly rows columns nb (u1 u2 : buf) :
  2 <= rows -> 2 <= columns ->
  exterior_pass_spec rows columns nb u1 u2 <->
  (~ (rows = 2 /\ is_null (up nb) = true /\ is_null (down nb) = true) /\
   ~ (columns = 2 /\ is_null (left nb) = true /\ is_null (right nb) = true)) \/
  external_cells rows columns nb = [].
Proof.
  intros Hr Hc. split.
  - intros [_ Hedge].
    destruct (decide (rows = 2 /\ is_null (up nb) = true /\ is_null (down nb) = true))
      as [Hthin|Hthick];
    [|destruct (decide (columns = 2 /\ is_null (left nb) = true /\
                        is_null (right nb) = true)) as [Hthin|Hthick']; [|by left]];
    right;
    (destruct (external_cells rows columns nb) as [|[ix iy] l] eqn:Hcells; [done|]);
    (assert (Hin : (ix, iy) ∈ external_cells rows columns nb)
       by (rewrite Hcells; left));
    pose proof (external_cells_range rows columns nb ix iy Hr Hc Hin) as [Hx Hy];
    exfalso.
    + destruct Hthin as (-> & Hu & Hd).
      destruct (Hedge ix iy Hx Hy) as [Hw _].
      { destruct (decide (ix = 1)) as [->|]; [by left|right; left; split; [done|lia]]. }
      apply Hw. apply Wr_external. by exists (ix, iy).
    + destruct Hthin as (-> & Hl & Hrt).
      destruct (Hedge ix iy Hx Hy) as [Hw _].
      { destruct (decide (iy = 1)) as [->|];
          [right; right; by left|right; right; right; split; [done|lia]]. }
      apply Hw. apply Wr_external. by exists (ix, iy).
  - intros [[Hthick Hthick']|Hnil]; [by apply exterior_pass_ring|].
    split.
    + intros ix iy Hring Hlive. exfalso.
      destruct Hring as (Hx & Hy & Hring).
      apply not_at_domain_edge in Hlive as [? ?]; [|done..].
      assert (Hin : (ix, iy) ∈ external_cells rows columns nb)
        by (apply external_cells_cover; [lia|lia|done|done|done]).
      rewrite Hnil in Hin. by apply elem_of_nil in Hin.
    + intros ix iy Hx Hy _. split.
      * intros (c & Hin & _)%Wr_external. rewrite Hnil in Hin. by apply elem_of_nil in Hin.
      * rewrite (exec_sweeps _ _ _ u1 u2 (updateExternal_sweeps rows columns nb)).
        apply sweep_frame. intros c Hin. rewrite Hnil in Hin. by apply elem_of_nil in Hin.
Qed.

(** The two-row blocks left out.  With no neighbour above and none below,
    and three columns or more, the first-row loop runs on row 2 and
    assigns cell (2,2), which lies in a row at a domain edge. *)
Lemma two_row_block_edge_assigned columns nb (u1 u2 : buf) :
  3 <= columns -> is_null (up nb) = true -> is_null (down nb) = true ->
  at_domain_edge 2 columns nb 2 2 /\
  Wr (at_ columns 2 2) ∈
    trace (exec (updateExternal 1 2 columns (right nb) (left nb) (up nb) (down nb)) u1 u2).
Proof.
  intros Hc Hu Hd. split; [right; left; done|].
  apply Wr_external. exists (2, 2). split; [|done].
  apply elem_of_external_cells. left. unfold row_lo, col_lo. rewrite Hu.
  destruct (is_null (left nb)); lia.
Qed.

(** ** Neither pass writes the halo ring *)

Lemma keeps_off_halo_of_cells rows columns m cs u1 u2 :
  0 <= columns ->
  sweeps m (columns + 2) cs ->
  (forall ix iy, (ix, iy) ∈ cs -> 1 <= ix <= rows /\ 1 <= iy <= columns) ->
  keeps_off_halo rows columns m u1 u2.
Proof.
  intros Hc Hm Hcs. unfold keeps_off_halo. rewrite (exec_sweeps _ _ _ u1 u2 Hm). split.
  - intros off. rewrite sweep_trace. simpl. rewrite elem_of_nil.
    intros [[]|([ix iy] & Hin & ->%cell_trace_Wr)].
    exists ix, iy. apply Hcs in Hin. unfold at_. simpl. lia.
  - intros ix iy Hx Hy Hhalo. apply sweep_frame.
    intros [ix' iy'] Hin%Hcs Heq. unfold at_ in Heq. simpl in Heq.
    apply flat_inj in Heq; lia.
Qed.

Lemma external_cells_inside rows columns nb ix iy :
  1 <= rows -> 1 <= columns ->
  (rows = 1 -> is_null (up nb) = false /\ is_null (down nb) = false) ->
  (columns = 1 -> is_null (left nb) = false /\ is_null (right nb) = false) ->
  (ix, iy) ∈ external_cells rows columns nb ->
  1 <= ix <= rows /\ 1 <= iy <= columns.
Proof.
  intros Hr Hc Hr1 Hc1. rewrite elem_of_external_cells.
  unfold row_lo, row_hi, col_lo, col_hi.
  destruct (decide (rows = 1)) as [Er|Er]; [destruct (Hr1 Er) as [-> ->]|clear Hr1];
    (destruct (decide (columns = 1)) as [Ec|Ec];
       [destruct (Hc1 Ec) as [-> ->]|clear Hc1]);
    repeat match goal with |- context [is_null ?x] => destruct (is_null x) end; lia.
Qed.

(** Where the passes keep off the halo.  For every buffer, every block of
    at least one row and one column, and every choice of neighbours in
    which a one-row block has both an upper and a lower neighbour and a
    one-column block both a left and a right one, every cell either pass
    assigns lies in rows 1..rows and columns 1..columns, and every cell of
    the halo ring of the next buffer is left as it was.  On the other
    one-row and one-column blocks a strip shifted away from a domain edge
    can land on the halo. *)
Lemma passes_keep_off_halo (rows columns : Z) (nb : nbrs) (u1 u2 : buf) :
  1 <= rows -> 1 <= columns ->
  (rows = 1 -> is_null (up nb) = false /\ is_null (down nb) = false) ->
  (columns = 1 -> is_null (left nb) = false /\ is_null (right nb) = false) ->
  keeps_off_halo rows columns (updateInternal 2 (rows - 1) columns) u1 u2 /\
  keeps_off_halo rows columns
    (updateExternal 1 rows columns (right nb) (left nb) (up nb) (down nb)) u1 u2.
Proof.
  intros Hr Hc Hr1 Hc1. split.
  - apply (keeps_off_halo_of_cells _ _ _ (internal_cells 2 (rows - 1) columns)); [lia| |].
    + apply updateInternal_sweeps.
    + intros ix iy ?%elem_of_internal_cells. lia.
  - apply (keeps_off_halo_of_cells _ _ _ (external_cells rows columns nb)); [lia| |].
    + apply updateExternal_sweeps.
    + intros ix iy ?. by apply (external_cells_inside rows columns nb).
Qed.

(** The one-row blocks left out.  With no neighbour below, a left
    neighbour, and a right neighbour or a second column, the last-row loop
    runs on row 0: it assigns halo cell (0,1) and reads the cell above
    it, which lies before the first float of the block. *)
Lemma one_row_block_halo_assigned columns nb (u1 u2 : buf) :
  1 <= columns -> is_null (down nb) = true -> is_null (left nb) = false ->
  is_null (right nb) = false \/ 2 <= columns ->
  Wr (at_ columns 0 1) ∈
    trace (exec (updateExternal 1 1 columns (right nb) (left nb) (up nb) (down nb)) u1 u2) /\
  Rd (at_ columns (-1) 1) ∈
    trace (exec (updateExternal 1 1 columns (right nb) (left nb) (up nb) (down nb)) u1 u2) /\
  at_ columns (-1) 1 < 0.
Proof.
  intros Hc Hd Hl Hr.
  assert (Hin : (0, 1) ∈ external_cells 1 columns nb).
  { apply elem_of_external_cells. right. left. unfold row_hi, col_lo, col_hi.
    rewrite Hd, Hl. destruct Hr as [-> | ?]; [lia|]. destruct (is_null (right nb)); lia. }
  split; [|split].
  - apply Wr_external. by exists (0, 1).
  - rewrite (exec_sweeps _ _ _ u1 u2 (updateExternal_sweeps 1 columns nb)).
    apply sweep_trace. right. exists (0, 1). split; [done|].
    apply cell_trace_Rd. unfold cell_reads, at_. rewrite !elem_of_cons. right. right. left. lia.
  - unfold at_. lia.
Qed.

(** ** [isPrime] *)

Lemma rem_zero_divide n d : 0 < d -> Z.rem n d = 0 <-> (d | n).
Proof. intros. apply Z.rem_divide. lia. Qed.

Lemma small_factor n a b : 1 < a -> 1 < b -> n = a * b -> exists d, 1 < d /\ d * d <= n /\ (d | n).
Proof.
  intros Ha Hb ->. destruct (Z_le_gt_dec a b).
  - exists a. split; [lia|]. split; [nia|]. by exists b; lia.
  - exists b. split; [lia|]. split; [nia|]. by exists a.
Qed.

Lemma isPrime_loop_spec fuel n i :
  3 <= n -> Z.odd n = true -> 3 <= i -> Z.odd i = true ->
  (0 < fuel)%nat -> n - i < Z.of_nat fuel ->
  (forall d, 1 < d < i -> ~ (d | n)) ->
  (isPrime_loop fuel n i = Some 0 /\ exists d, 1 < d < n /\ (d | n)) \/
  (isPrime_loop fuel n i = Some 1 /\ Z.prime n).
Proof.
  intros Hn Hodd. revert i. induction fuel as [|fuel IH]; [lia|].
  intros i Hi Hiodd _ Hfuel Hnone. simpl.
  destruct (Z.leb_spec (i * i) n) as [Hsq|Hsq].
  - destruct (Z.eqb_spec (Z.rem n i) 0) as [Hrem|Hrem].
    + left. split; [done|]. exists i. split; [nia|]. apply rem_zero_divide; [lia|done].
    + apply IH; [lia| |nia|lia|].
      * rewrite Z.odd_add, Hiodd. done.
      * intros d Hd Hdiv. destruct (decide (d < i)); [by apply (Hnone d); [lia|]|].
        destruct (decide (d = i)) as [->|].
        { apply Hrem. apply rem_zero_divide; [lia|done]. }
        assert (d = i + 1) as -> by lia.
        assert (Z.odd (i + 1) = false) as Heven by (rewrite Z.odd_add, Hiodd; done).
        assert (Z.even (i + 1) = true) as [k Hk]%Z.even_spec
          by (rewrite <- Z.negb_odd, Heven; done).
        destruct Hdiv as [q Hq]. rewrite Hk in Hq.
        assert (Z.odd n = false) as Hc; [|congruence].
        rewrite <- Z.negb_even. apply negb_false_iff, Z.even_spec.
        exists (q * k). lia.
  - right. split; [done|]. split; [lia|].
    intros d Hd [q Hq].
    destruct (small_factor n q d) as (e & He & Hee & Hediv); [nia|lia|done|].
    apply (Hnone e); [nia|done].
Qed.

Lemma isPrime_spec n :
  1 <= n ->
  (isPrime n = Some 0 /\ ~ Z.prime n) \/ (isPrime n = Some 1 /\ Z.prime n).
Proof.
  intros Hn. unfold isPrime.
  destruct (Z.eqb_spec n 1) as [->|H1].
  { left. split; [done|]. apply Z.not_prime_1. }
  destruct (Z.eqb_spec n 2) as [->|H2].
  { right. split; [done|]. apply Z.prime_2. }
  destruct (Z.eqb_spec (Z.rem n 2) 0) as [Hrem|Hrem].
  { left. split; [done|]. intros [_ Hp]. apply (Hp 2); [lia|].
    apply rem_zero_divide; [lia|done]. }
  assert (Z.odd n = true) as Hodd.
  { rewrite <- Z.negb_even. apply negb_true_iff.
    destruct (Z.even n) eqn:E; [|done]. apply Z.even_spec in E as [k ->].
    exfalso. apply Hrem. apply rem_zero_divide; [lia|]. exists k. lia. }
  destruct (isPrime_loop_spec (S (Z.to_nat n)) n 3) as [[-> (d & Hd & Hdiv)]|[-> Hp]];
    [lia|done|lia|done|lia|lia| | |].
  - intros d Hd [q Hq]. assert (d = 2) as -> by lia.
    apply Hrem. apply rem_zero_divide; [lia|]. by exists q.
  - left. split; [done|]. intros [_ Hp]. by apply (Hp d).
  - by right.
Qed.

(** [isPrime] returns, and returns non-zero exactly on the primes. *)
Lemma isPrime_prime n : 1 <= n -> Z.prime n -> isPrime n = Some 1.
Proof. intros Hn Hp. by destruct (isPrime_spec n Hn) as [[_ ?]|[? _]]. Qed.

Lemma isPrime_composite n : 1 <= n -> ~ Z.prime n -> isPrime n = Some 0.
Proof. intros Hn Hp. by destruct (isPrime_spec n Hn) as [[? _]|[_ ?]]. Qed.

Lemma not_prime_factor n :
  1 < n -> ~ Z.prime n -> exists d, 1 < d /\ d * d <= n /\ (d | n).
Proof.
  intros Hn Hp. assert (exists d, 1 < d < n /\ (d | n)) as (d & Hd & [q Hq]).
  { destruct (Z.eqb_spec n 2) as [->|H2]; [destruct Hp; apply Z.prime_2|].
    destruct (Z.eqb_spec (Z.rem n 2) 0) as [Hrem|Hrem].
    { exists 2. split; [lia|]. apply rem_zero_divide; [lia|done]. }
    assert (Z.odd n = true) as Hodd.
    { rewrite <- Z.negb_even. apply negb_true_iff.
      destruct (Z.even n) eqn:E; [|done]. apply Z.even_spec in E as [k ->].
      exfalso. apply Hrem. apply rem_zero_divide; [lia|]. exists k. lia. }
    destruct (isPrime_loop_spec (S (Z.to_nat n)) n 3) as [[_ ?]|[_ ?]];
      [lia|done|lia|done|lia|lia| |done|done].
    intros d Hd [q Hq]. assert (d = 2) as -> by lia.
    apply Hrem. apply rem_zero_divide; [lia|]. by exists q. }
  apply (small_factor n q d); [nia|lia|done].
Qed.

(** ** The block grid *)

Lemma find_dims_loop_spec x0 fuel W x :
  1 <= W -> 1 <= x -> x < Z.of_nat fuel ->
  (forall d, x < d <= x0 -> ~ (d | W)) ->
  exists x', find_dims_loop fuel W x = Some (x', W ÷ x') /\
             1 <= x' <= x /\ (x' | W) /\
             (forall d, x' < d <= x0 -> ~ (d | W)).
Proof.
  intros HW. revert x. induction fuel as [|fuel IH]; [lia|].
  intros x Hx Hfuel Hnone. simpl.
  destruct (Z.geb_spec x 1) as [_|?]; [|lia].
  destruct (Z.eqb_spec (Z.rem W x) 0) as [Hrem|Hrem].
  - exists x. split; [done|]. split; [lia|]. split; [|done].
    apply rem_zero_divide; [lia|done].
  - assert (x <> 1) by (intros ->; apply Hrem; by rewrite Z.rem_1_r).
    destruct (IH (x - 1)) as (x' & -> & ? & ? & ?); [lia|lia| |].
    + intros d Hd Hdiv. destruct (decide (d = x)) as [->|]; [|apply (Hnone d); [lia|done]].
      apply Hrem. apply rem_zero_divide; [lia|done].
    + exists x'. split; [done|]. split; [lia|]. done.
Qed.

(** The scan always ends on a divisor: the largest one not above
    [sqrt W + 1]. *)
Lemma find_dims_spec W :
  1 <= W ->
  exists x, find_dims W = Some (x, W ÷ x) /\
            1 <= x <= Z.sqrt W + 1 /\ (x | W) /\
            (forall d, 1 <= d <= Z.sqrt W + 1 -> (d | W) -> d <= x).
Proof.
  intros HW. unfold find_dims.
  pose proof (Z.sqrt_nonneg W).
  destruct (find_dims_loop_spec (Z.sqrt W + 1) (S (Z.to_nat (Z.sqrt W + 1))) W (Z.sqrt W + 1))
    as (x & -> & ? & ? & Hmax); [lia..| |].
  { intros d ?. lia. }
  exists x. split; [done|]. split; [done|]. split; [done|].
  intros d Hd Hdiv. destruct (decide (d <= x)); [done|].
  exfalso. apply (Hmax d); [lia|done].
Qed.

Lemma divisor_quot W x : 1 <= W -> 1 <= x -> (x | W) -> x * (W ÷ x) = W /\ 1 <= W ÷ x.
Proof.
  intros HW Hx [q ->]. rewrite Z.quot_mul by lia. nia.
Qed.

(** Shape of the block grid; a count that is neither 1 nor prime gets at
    least two block rows and two block columns. *)
Lemma block_grid_shape NX NY W xdim ydim :
  1 <= W -> block_grid NX NY W = Some (xdim, ydim) ->
  xdim * ydim = W /\ 1 <= xdim /\ 1 <= ydim /\
  (~ Z.prime W -> W = 1 \/ (2 <= xdim /\ 2 <= ydim)).
Proof.
  intros HW. unfold block_grid.
  destruct (find_dims_spec W HW) as (x & -> & Hx & Hdiv & Hmax). simpl.
  destruct (divisor_quot W x HW) as [Hmul Hq]; [lia|done|].
  assert (~ Z.prime W -> W = 1 \/ (2 <= x /\ 2 <= W ÷ x)) as Htwo.
  { intros Hp. destruct (decide (W = 1)); [by left|right].
    destruct (not_prime_factor W) as (d & Hd & Hdd & Hddiv); [lia|done|].
    pose proof (Z.sqrt_spec W) as Hs. simpl in Hs.
    assert (d <= Z.sqrt W) by (apply Z.sqrt_le_square; lia).
    assert (d <= x) by (apply Hmax; [lia|done]).
    split; [lia|]. assert (Z.sqrt W * Z.sqrt W <= W) by lia.
    assert (2 <= Z.sqrt W) by lia.
    destruct (decide (W ÷ x = 1)) as [E|]; [|lia]. rewrite E in Hmul. nia. }
  destruct (_ && _); intros [= <- <-]; (split; [lia|split; [lia|split; [lia|]]]);
    intros Hp; destruct (Htwo Hp); [by left|right; lia|by left|right; lia].
Qed.

(** C7. For a worker count W >= 1 that is not prime the search ends with
    the largest divisor x of W not above sqrt(W)+1 (at worst 1), the grid
    is x by W/x, swapped exactly when NY > NX and W/x < x, and the
    returned pair multiplies to W with both factors at least 1. *)
Theorem block_grid_factor_pair (NX NY W : Z) :
  1 <= W -> ~ Z.prime W ->
  exists x,
    find_dims W = Some (x, W ÷ x) /\
    1 <= x <= Z.sqrt W + 1 /\ (x | W) /\
    (forall d, 1 <= d <= Z.sqrt W + 1 -> (d | W) -> d <= x) /\
    block_grid NX NY W =
      Some (if (NY >? NX) && (W ÷ x <? x) then (W ÷ x, x) else (x, W ÷ x)) /\
    (forall xdim ydim, block_grid NX NY W = Some (xdim, ydim) ->
       xdim * ydim = W /\ 1 <= xdim /\ 1 <= ydim).
Proof.
  intros HW _. destruct (find_dims_spec W HW) as (x & Hfind & Hx & Hdiv & Hmax).
  exists x. split; [done|]. split; [done|]. split; [done|]. split; [done|]. split.
  - unfold block_grid. rewrite Hfind. done.
  - intros xdim ydim Hgrid.
    destruct (block_grid_shape NX NY W xdim ydim HW Hgrid) as (? & ? & ? & _). done.
Qed.

(** ** Neighbours on the block grid *)

Lemma block_row_bounds xdim ydim i :
  1 <= ydim -> 0 <= i < xdim * ydim -> 0 <= i / ydim <= xdim - 1.
Proof.
  intros Hy Hi. split; [apply Z.div_pos; lia|].
  assert (i / ydim < xdim); [|lia]. apply Z.div_lt_upper_bound; lia.
Qed.

Lemma nbrs_of_spec W xdim ydim i :
  1 <= xdim -> 1 <= ydim -> xdim * ydim = W ->
  W = 1 \/ (2 <= xdim /\ 2 <= ydim) ->
  0 <= i < W ->
  let nb := nbrs_of W xdim ydim i in
  up nb = (if i / ydim =? 0 then MPI_PROC_NULL else i - ydim) /\
  down nb = (if i / ydim =? xdim - 1 then MPI_PROC_NULL else i + ydim) /\
  left nb = (if i mod ydim =? 0 then MPI_PROC_NULL else i - 1) /\
  right nb = (if i mod ydim =? ydim - 1 then MPI_PROC_NULL else i + 1).
Proof.
  intros Hx Hy HW Hshape Hi. unfold nbrs_of, MASTER.
  destruct (Z.eqb_spec i 0) as [->|Hi0].
  - unfold master_nbrs. rewrite Z.div_0_l, Z.mod_0_l by lia.
    destruct (Z.eqb_spec W 1) as [->|HW1]; cbn [up down left right].
    + assert (xdim = 1 /\ ydim = 1) as [-> ->] by nia. repeat split; reflexivity.
    + destruct Hshape as [?|[? ?]]; [done|].
      destruct (Z.eqb_spec 0 (xdim - 1)); [lia|].
      destruct (Z.eqb_spec 0 (ydim - 1)); [lia|]. repeat split; reflexivity.
  - unfold worker_nbrs. cbn [up down left right].
    rewrite Z.rem_mod_nonneg by lia.
    pose proof (block_row_bounds xdim ydim i Hy ltac:(lia)) as Hrow.
    pose proof (Z.div_mod i ydim ltac:(lia)) as Hdm.
    pose proof (Z.mod_pos_bound i ydim ltac:(lia)) as Hmod.
    repeat split.
    + destruct (Z.ltb_spec i ydim), (Z.eqb_spec (i / ydim) 0); try done; nia.
    + destruct (Z.geb_spec i ((xdim - 1) * ydim)), (Z.eqb_spec (i / ydim) (xdim - 1));
        try done; nia.
Qed.

(** A block that [main] hands out without neighbours on two opposite
    sides spans the grid in that direction: it has all NX rows, or all NY
    columns. *)
Lemma isolated_direction_spans_grid NX NY W xdim ydim k :
  MPI_PROC_NULL < 0 -> 1 <= W -> ~ Z.prime W ->
  block_grid NX NY W = Some (xdim, ydim) -> 0 <= k < W ->
  (is_null (up (nbrs_of W xdim ydim k)) = true ->
   is_null (down (nbrs_of W xdim ydim k)) = true -> xdim = 1 /\ NX ÷ xdim = NX) /\
  (is_null (left (nbrs_of W xdim ydim k)) = true ->
   is_null (right (nbrs_of W xdim ydim k)) = true -> ydim = 1 /\ NY ÷ ydim = NY).
Proof.
  intros Hnull HW Hp Hgrid Hk.
  destruct (block_grid_shape NX NY W xdim ydim HW Hgrid) as (Hmul & Hx & Hy & Hshape).
  specialize (Hshape Hp).
  destruct (nbrs_of_spec W xdim ydim k Hx Hy Hmul Hshape Hk) as (Hu & Hd & Hl & Hr).
  pose proof (Z.div_mod k ydim ltac:(lia)) as Hdm.
  pose proof (Z.mod_pos_bound k ydim ltac:(lia)) as Hmod.
  assert (0 <= k / ydim <= xdim - 1) as Hrow by (apply block_row_bounds; lia).
  unfold is_null. rewrite Hu, Hd, Hl, Hr. split.
  - intros Hup%Z.eqb_eq Hdown%Z.eqb_eq.
    destruct (Z.eqb_spec (k / ydim) 0); [|nia].
    destruct (Z.eqb_spec (k / ydim) (xdim - 1)); [|nia].
    assert (xdim = 1) as -> by lia. by rewrite Z.quot_1_r.
  - intros Hleft%Z.eqb_eq Hright%Z.eqb_eq.
    destruct (Z.eqb_spec (k mod ydim) 0); [|lia].
    destruct (Z.eqb_spec (k mod ydim) (ydim - 1)); [|lia].
    assert (ydim = 1) as -> by lia. by rewrite Z.quot_1_r.
Qed.

(** C8. On the block grid chosen for a worker count W >= 1 that is not
    prime, rank i (the master, rank 0, included) at block row r = i / ydim
    and block column c = i % ydim has no upper neighbour iff r = 0 and
    otherwise rank i - ydim, no lower neighbour iff r = xdim - 1 and
    otherwise rank i + ydim, no left neighbour iff c = 0 and otherwise
    rank i - 1, no right neighbour iff c = ydim - 1 and otherwise rank
    i + 1. *)
Theorem neighbours_on_block_grid (NX NY W xdim ydim i : Z) :
  MPI_PROC_NULL < 0 ->
  1 <= W -> ~ Z.prime W ->
  block_grid NX NY W = Some (xdim, ydim) ->
  0 <= i < W ->
  let r := i ÷ ydim in
  let c := Z.rem i ydim in
  let nb := nbrs_of W xdim ydim i in
  (up nb = MPI_PROC_NULL <-> r = 0) /\ (r <> 0 -> up nb = i - ydim) /\
  (down nb = MPI_PROC_NULL <-> r = xdim - 1) /\ (r <> xdim - 1 -> down nb = i + ydim) /\
  (left nb = MPI_PROC_NULL <-> c = 0) /\ (c <> 0 -> left nb = i - 1) /\
  (right nb = MPI_PROC_NULL <-> c = ydim - 1) /\ (c <> ydim - 1 -> right nb = i + 1).
Proof.
  intros Hnull HW Hp Hgrid Hi.
  destruct (block_grid_shape NX NY W xdim ydim HW Hgrid) as (Hmul & Hx & Hy & Hshape).
  specialize (Hshape Hp).
  destruct (nbrs_of_spec W xdim ydim i Hx Hy Hmul Hshape Hi) as (Hu & Hd & Hl & Hr).
  intros r c nb. subst r c.
  rewrite Z.quot_div_nonneg, Z.rem_mod_nonneg by lia.
  fold nb in Hu, Hd, Hl, Hr. rewrite Hu, Hd, Hl, Hr.
  pose proof (Z.div_mod i ydim ltac:(lia)) as Hdm.
  pose proof (Z.mod_pos_bound i ydim ltac:(lia)) as Hmod.
  assert (0 <= i / ydim <= xdim - 1) as Hrow by (apply block_row_bounds; lia).
  destruct (Z.eqb_spec (i / ydim) 0), (Z.eqb_spec (i / ydim) (xdim - 1)),
           (Z.eqb_spec (i mod ydim) 0), (Z.eqb_spec (i mod ydim) (ydim - 1));
    repeat split; intros; try done; try lia; try nia.
Qed.

(** ** Configuration errors *)

Lemma master_startup_prime NX NY STEPS tc W :
  1 <= W -> Z.prime W ->
  master_startup NX NY STEPS tc W =
    ([MPI_Init_thread; Printf "Thread count = %d\n\n" [tc];
      Printf "ERROR: the number of workers is prime (%d).\n" [W];
      MPI_Abort 22], Aborted 22).
Proof.
  intros HW Hp. unfold master_startup. by rewrite (isPrime_prime W HW Hp).
Qed.

Lemma master_startup_indivisible NX NY STEPS tc W :
  1 <= W -> ~ Z.prime W -> Z.rem (NX * NY) W <> 0 ->
  master_startup NX NY STEPS tc W =
    ([MPI_Init_thread; Printf "Thread count = %d\n\n" [tc];
      Printf "Starting mpi_heat2D with %d worker tasks.\n" [W];
      Printf "ERROR: number of cells is not divisible by the number of workers\n" [];
      MPI_Abort 22], Aborted 22).
Proof.
  intros HW Hp Hrem. unfold master_startup. rewrite (isPrime_composite W HW Hp).
  simpl. by destruct (Z.eqb_spec (Z.rem (NX * NY) W) 0).
Qed.

(** C10. More than one command-line argument, or a thread count that is
    not positive: the process prints its message and returns 32, having
    neither initialised MPI nor touched the grid.  A prime worker count,
    or a cell count the worker count does not divide: the master prints
    its message and calls MPI_Abort with 22 before [inidat], the block
    grid or any send; every other rank ends with the same abort. *)
Theorem configuration_errors (NX NY STEPS argc parsed taskid W : Z) :
  1 <= W ->
  (2 < argc ->
     main_startup NX NY STEPS argc parsed taskid W =
       ([Printf "ERROR: You gave wrong parameters\n\n" []], Returned 32)) /\
  (argc = 2 -> parsed <= 0 ->
     main_startup NX NY STEPS argc parsed taskid W =
       ([Printf "ERROR: You gave wrong number of threads!\n\n" []], Returned 32)) /\
  (forall tc, thread_count_of argc parsed = Some tc -> 0 < tc ->
     (Z.prime W ->
        main_startup NX NY STEPS argc parsed MASTER W =
          ([MPI_Init_thread; Printf "Thread count = %d\n\n" [tc];
            Printf "ERROR: the number of workers is prime (%d).\n" [W];
            MPI_Abort 22], Aborted 22) /\
        snd (main_startup NX NY STEPS argc parsed taskid W) = Aborted 22) /\
     (~ Z.prime W -> Z.rem (NX * NY) W <> 0 ->
        main_startup NX NY STEPS argc parsed MASTER W =
          ([MPI_Init_thread; Printf "Thread count = %d\n\n" [tc];
            Printf "Starting mpi_heat2D with %d worker tasks.\n" [W];
            Printf "ERROR: number of cells is not divisible by the number of workers\n" [];
            MPI_Abort 22], Aborted 22) /\
        snd (main_startup NX NY STEPS argc parsed taskid W) = Aborted 22)).
Proof.
  intros HW. split; [|split].
  - intros Hargc. unfold main_startup, thread_count_of.
    destruct (Z.eqb_spec argc 1); [lia|]. by destruct (Z.eqb_spec argc 2); [lia|].
  - intros -> Hparsed. unfold main_startup, thread_count_of. simpl.
    by destruct (Z.leb_spec parsed 0); [|lia].
  - intros tc Htc Hpos. unfold main_startup. rewrite Htc.
    destruct (Z.leb_spec tc 0); [lia|]. split.
    + intros Hp. rewrite (master_startup_prime NX NY STEPS tc W HW Hp).
      split; [done|]. by destruct (taskid =? MASTER).
    + intros Hp Hrem. rewrite (master_startup_indivisible NX NY STEPS tc W HW Hp Hrem).
      split; [done|]. by destruct (taskid =? MASTER).
Qed.

(** ** Loops of [main] *)

(** Invariant rule for [for (i = lo; i <= hi; i++)]. *)
Lemma loopZ_ind {St} (P : Z -> St -> Prop) lo hi (body : Z -> St -> St) s :
  lo <= hi + 1 ->
  P lo s ->
  (forall i s, lo <= i <= hi -> P i s -> P (i + 1) (body i s)) ->
  P (hi + 1) (loopZ lo hi body s).
Proof.
  intros Hle H0 Hstep. unfold loopZ.
  assert (Haux : forall n : nat, lo + Z.of_nat n <= hi + 1 ->
    P (lo + Z.of_nat n) (foldl (fun s i => body i s) s (seqZ lo (Z.of_nat n)))).
  { induction n as [|n IH]; intros Hn.
    - simpl. by rewrite Z.add_0_r.
    - rewrite seqZ_S, foldl_snoc.
      replace (lo + Z.of_nat (S n)) with (lo + Z.of_nat n + 1) by lia.
      apply Hstep; [lia|]. apply IH. lia. }
  specialize (Haux (Z.to_nat (hi - lo + 1))).
  rewrite Z2Nat.id in Haux by lia.
  replace (lo + (hi - lo + 1)) with (hi + 1) in Haux by lia.
  apply Haux. lia.
Qed.

Lemma loopZ_empty {St} lo hi (body : Z -> St -> St) s : hi < lo -> loopZ lo hi body s = s.
Proof. intros H. unfold loopZ. by rewrite seqZ_nil by lia. Qed.

(** After "Initialize with 0's" every cell of the allocation holds 0.0. *)
Lemma zero_fill_spec rows columns (p : buf) ix iy :
  0 <= ix <= rows + 1 -> 0 <= iy <= columns + 1 ->
  zero_fill rows columns p (at_ columns ix iy) = to_flt lit_0_0.
Proof.
  intros Hx Hy. unfold zero_fill.
  pose (P := fun (i : Z) (q : buf) =>
    forall ix' iy', 0 <= ix' < i -> 0 <= iy' <= columns + 1 ->
      q (at_ columns ix' iy') = to_flt lit_0_0).
  assert (HP : P (rows + 2 - 1 + 1)
    (loopZ 0 (rows + 2 - 1) (fun ix0 => loopZ 0 (columns + 2 - 1)
       (fun iy0 p0 => poke p0 (at_ columns ix0 iy0) (to_flt lit_0_0))) p)).
  { apply loopZ_ind; [lia|intros ? ? ?; lia|].
    intros i q Hi HPi.
    pose (Q := fun (j : Z) (q' : buf) =>
      (forall ix' iy', 0 <= ix' < i -> 0 <= iy' <= columns + 1 ->
         q' (at_ columns ix' iy') = to_flt lit_0_0) /\
      (forall iy', 0 <= iy' < j -> q' (at_ columns i iy') = to_flt lit_0_0)).
    assert (HQ : Q (columns + 2 - 1 + 1)
      (loopZ 0 (columns + 2 - 1)
         (fun iy0 p0 => poke p0 (at_ columns i iy0) (to_flt lit_0_0)) q)).
    { apply loopZ_ind; [lia| |].
      - split; [exact HPi|intros; lia].
      - intros j q' Hj [HQ1 HQ2]. split.
        + intros ix' iy' Hx' Hy'. rewrite poke_ne; [by apply HQ1|].
          unfold at_. intros Heq. apply flat_inj in Heq; lia.
        + intros iy' Hy'. destruct (decide (iy' = j)) as [->|].
          * apply poke_eq.
          * rewrite poke_ne; [apply HQ2; lia|].
            unfold at_. intros Heq. apply flat_inj in Heq; lia. }
    destruct HQ as [HQ1 HQ2]. intros ix' iy' Hx' Hy'.
    destruct (decide (ix' = i)) as [->|]; [apply HQ2; lia|apply HQ1; lia]. }
  apply HP; lia.
Qed.

(** The starting points computed for the blocks: block (i, j) of the grid
    starts [i*rows*ydim + j] extents into [u]. *)
Lemma displs_spec xdim ydim rows i j :
  0 <= xdim -> 0 <= ydim -> 0 <= i < xdim -> 0 <= j < ydim ->
  displs xdim ydim rows (i * ydim + j) = i * rows * ydim + j.
Proof.
  intros Hxd Hyd Hi Hj. unfold displs.
  pose (P := fun (n : Z) (st : (Z -> Z) * Z) =>
    st.2 = n * rows * ydim /\
    forall i' j', 0 <= i' < n -> 0 <= j' < ydim ->
      st.1 (i' * ydim + j') = i' * rows * ydim + j').
  match goal with |- (loopZ 0 (xdim - 1) ?body ?s0).1 _ = _ =>
    assert (HP : P (xdim - 1 + 1) (loopZ 0 (xdim - 1) body s0)) end.
  { apply loopZ_ind; [lia|split; [simpl; lia|intros; lia]|].
    intros n [d disp] Hn [Hdisp Hd]. simpl in Hdisp, Hd.
    pose (Q := fun (m : Z) (st : (Z -> Z) * Z) =>
      st.2 = disp + m /\
      (forall i' j', 0 <= i' < n -> 0 <= j' < ydim ->
         st.1 (i' * ydim + j') = i' * rows * ydim + j') /\
      (forall j', 0 <= j' < m -> st.1 (n * ydim + j') = disp + j')).
    match goal with |- P _ ((loopZ 0 (ydim - 1) ?body ?s0).1, _) =>
      assert (HQ : Q (ydim - 1 + 1) (loopZ 0 (ydim - 1) body s0)) end.
    { apply loopZ_ind; [lia| |].
      - split; [simpl; lia|]. split; [exact Hd|intros; lia].
      - intros m [d' disp'] Hm (HQ0 & HQ1 & HQ2). simpl in HQ0, HQ1, HQ2.
        split; [simpl; lia|]. simpl. split.
        + intros i' j' Hi' Hj'.
          destruct (Z.eqb_spec (i' * ydim + j') (n * ydim + m)) as [Heq|_]; [|by apply HQ1].
          apply flat_inj in Heq; lia.
        + intros j' Hj'.
          destruct (Z.eqb_spec (n * ydim + j') (n * ydim + m)) as [Heq|Hne].
          * assert (j' = m) by lia. lia.
          * apply HQ2. lia. }
    destruct HQ as (HQ0 & HQ1 & HQ2). split; simpl.
    - rewrite HQ0, Hdisp. lia.
    - intros i' j' Hi' Hj'. destruct (decide (i' = n)) as [->|].
      + rewrite HQ2 by lia. lia.
      + apply HQ1; lia. }
  destruct HP as [_ HP]. apply HP; lia.
Qed.

(** ** Type maps and messages *)

Lemma elem_of_block_cells n m a b :
  (a, b) ∈ block_cells n m <-> 0 <= a < n /\ 0 <= b < m.
Proof.
  unfold block_cells. rewrite list_elem_of_bind. split.
  - intros (x & (y & Hxy & Hy%elem_of_seqZ)%list_elem_of_bind & Hx%elem_of_seqZ).
    apply list_elem_of_singleton in Hxy as [= -> ->]. lia.
  - intros [Ha Hb]. exists a. split; [|apply elem_of_seqZ; lia].
    apply list_elem_of_bind. exists b. split; [by apply list_elem_of_singleton|].
    apply elem_of_seqZ; lia.
Qed.

Lemma zip_fmap_same {A B C} (f : A -> B) (g : A -> C) (l : list A) :
  zip (f <$> l) (g <$> l) = (fun x => (f x, g x)) <$> l.
Proof. induction l as [|x l IH]; simpl; [done|]. by f_equal. Qed.

Lemma transfer_cells {A} (src dst : buf) (f g : A -> Z) (cs : list A) :
  transfer src (f <$> cs) dst (g <$> cs) = pokes ((fun c => (g c, src (f c))) <$> cs) dst.
Proof.
  unfold transfer. f_equal. rewrite <- list_fmap_compose.
  apply (zip_fmap_same g (src ∘ f)).
Qed.

(** A message changes nothing outside the displacements it is received at. *)
Lemma transfer_frame (src dst : buf) sd dd off :
  off ∉ dd -> transfer src sd dst dd off = dst off.
Proof.
  intros Hoff. unfold transfer. apply pokes_notin.
  intros ([o v] & -> & Hin)%list_elem_of_fmap. apply Hoff.
  by apply elem_of_zip_l in Hin.
Qed.

Lemma transfer_hit {A} (src dst : buf) (f g : A -> Z) (cs : list A) c :
  c ∈ cs -> (forall c', c' ∈ cs -> g c' = g c -> c' = c) ->
  transfer src (f <$> cs) dst (g <$> cs) (g c) = src (f c).
Proof.
  intros Hc Hinj. rewrite transfer_cells. apply pokes_in.
  - apply list_elem_of_fmap. by exists c.
  - intros v' (c' & [= Hg ->] & Hc')%list_elem_of_fmap. by rewrite (Hinj c' Hc').
Qed.

Lemma sendsub_cells NX NY rows columns base :
  at_offset base (sendsubarrtype NX NY rows columns) =
  (fun c : Z * Z => base + (c.1 * NY + c.2)) <$> block_cells rows columns.
Proof.
  unfold at_offset, sendsubarrtype, subarray. rewrite <- list_fmap_compose.
  apply list_fmap_ext. intros _ [a b] _. simpl. lia.
Qed.

Lemma recvsub_cells rows columns :
  recvsubarrtype rows columns =
  (fun c : Z * Z => at_ columns (1 + c.1) (1 + c.2)) <$> block_cells rows columns.
Proof. done. Qed.

Lemma recvsub_inj rows columns (c c' : Z * Z) :
  c ∈ block_cells rows columns -> c' ∈ block_cells rows columns ->
  at_ columns (1 + c'.1) (1 + c'.2) = at_ columns (1 + c.1) (1 + c.2) -> c' = c.
Proof.
  destruct c as [a b], c' as [a' b']. rewrite !elem_of_block_cells. simpl.
  unfold at_. intros ? ? Heq. apply flat_inj in Heq; [|lia..].
  f_equal; lia.
Qed.

Lemma elem_of_column_at rows columns ix iy off :
  off ∈ column_at rows columns ix iy <->
  exists i, 0 <= i < rows /\ off = at_ columns (ix + i) iy.
Proof.
  unfold column_at, at_offset, vector. rewrite <- list_fmap_compose, list_elem_of_fmap.
  setoid_rewrite elem_of_seqZ. unfold at_. simpl.
  split; intros (i & ? & ?); exists i; split; lia.
Qed.

Lemma elem_of_row_at columns ix iy off :
  off ∈ row_at columns ix iy <->
  exists j, 0 <= j < columns /\ off = at_ columns ix (iy + j).
Proof.
  unfold row_at, at_offset, contiguous. rewrite list_elem_of_fmap.
  setoid_rewrite elem_of_seqZ. unfold at_.
  split; intros (j & ? & ?); exists j; split; lia.
Qed.

(** ** Scatter and gather *)

Lemma scatter_interior NX NY xdim ydim rows columns (u : buf) fresh k a b :
  0 <= a < rows -> 0 <= b < columns ->
  scatter NX NY xdim ydim rows columns u fresh k 0 (at_ columns (1 + a) (1 + b)) =
  u (displs xdim ydim rows k * columns + (a * NY + b)).
Proof.
  intros Ha Hb. unfold scatter, block_of, sendsubarr_extent. simpl.
  rewrite sendsub_cells, recvsub_cells.
  apply (transfer_hit u _ (fun c : Z * Z => displs xdim ydim rows k * columns + (c.1 * NY + c.2))
           (fun c : Z * Z => at_ columns (1 + c.1) (1 + c.2)) _ (a, b)).
  - by apply elem_of_block_cells.
  - intros c' Hc'. apply (recvsub_inj rows); [|done]. by apply elem_of_block_cells.
Qed.

(** The halo ring of [local[0]] and all of [local[1]] start as zeros. *)
Lemma scatter_halo NX NY xdim ydim rows columns (u : buf) fresh k ix iy :
  0 <= ix <= rows + 1 -> 0 <= iy <= columns + 1 ->
  ix = 0 \/ ix = rows + 1 \/ iy = 0 \/ iy = columns + 1 ->
  scatter NX NY xdim ydim rows columns u fresh k 0 (at_ columns ix iy) = to_flt lit_0_0.
Proof.
  intros Hx Hy Hring. unfold scatter. simpl. rewrite transfer_frame.
  - by apply zero_fill_spec.
  - rewrite recvsub_cells. intros ([a b] & Heq & Hc%elem_of_block_cells)%list_elem_of_fmap.
    simpl in *. unfold at_ in Heq. apply flat_inj in Heq; lia.
Qed.

Lemma scatter_next NX NY xdim ydim rows columns (u : buf) fresh k ix iy :
  0 <= ix <= rows + 1 -> 0 <= iy <= columns + 1 ->
  scatter NX NY xdim ydim rows columns u fresh k 1 (at_ columns ix iy) = to_flt lit_0_0.
Proof. intros Hx Hy. unfold scatter. simpl. by apply zero_fill_spec. Qed.

Section Gather.
Variables NX NY W xdim ydim rows columns iz : Z.
Variable w : world.
Variable u : buf.

(** A float no rank's block is received at keeps its value. *)
Lemma gather_frame off :
  0 <= W ->
  (forall k, 0 <= k < W -> off ∉ block_of NX NY xdim ydim rows columns k) ->
  gather NX NY W xdim ydim rows columns iz w u off = u off.
Proof.
  intros HW Hout. unfold gather.
  pose (P := fun (i : Z) (u' : buf) => u' off = u off).
  apply (loopZ_ind P); [lia|done|].
  intros k u' Hk HP. unfold P. rewrite transfer_frame; [done|]. apply Hout. lia.
Qed.

(** A float only rank [k]'s block is received at holds what [k] sent. *)
Lemma gather_hit k a b :
  0 <= k < W -> 0 <= a < rows -> 0 <= b < columns -> columns <= NY ->
  (forall k', 0 <= k' < W -> k' <> k ->
     displs xdim ydim rows k * columns + (a * NY + b) ∉
       block_of NX NY xdim ydim rows columns k') ->
  gather NX NY W xdim ydim rows columns iz w u
         (displs xdim ydim rows k * columns + (a * NY + b)) =
  w k iz (at_ columns (1 + a) (1 + b)).
Proof.
  intros Hk Ha Hb HNY Hothers. unfold gather.
  pose (P := fun (i : Z) (u' : buf) =>
    k < i -> u' (displs xdim ydim rows k * columns + (a * NY + b)) =
             w k iz (at_ columns (1 + a) (1 + b))).
  assert (HP : P (W - 1 + 1)
    (loopZ 0 (W - 1) (fun k0 u0 => transfer (w k0 iz) (recvsubarrtype rows columns) u0
                                  (block_of NX NY xdim ydim rows columns k0)) u)).
  { apply loopZ_ind; [lia|intros ?; lia|].
    intros i u' Hi HPi Hlt. destruct (decide (i = k)) as [->|Hne].
    - clear HPi. unfold block_of, sendsubarr_extent. rewrite sendsub_cells, recvsub_cells.
      apply (transfer_hit (w k iz) u' (fun c : Z * Z => at_ columns (1 + c.1) (1 + c.2))
               (fun c : Z * Z => displs xdim ydim rows k * columns + (c.1 * NY + c.2))
               _ (a, b)).
      + by apply elem_of_block_cells.
      + intros [a' b'] Hc'%elem_of_block_cells Heq. simpl in *.
        apply Z.add_reg_l in Heq. apply flat_inj in Heq; [|lia..].
        destruct Heq as [-> ->]. done.
    - rewrite transfer_frame; [apply HPi; lia|]. apply Hothers; lia. }
  apply HP. lia.
Qed.

End Gather.

(** ** Blocks of a grid whose columns divide evenly *)

Section ExactGrid.
Variables NX NY W xdim ydim rows columns : Z.
Hypothesis Hxdim : 1 <= xdim.
Hypothesis Hydim : 1 <= ydim.
Hypothesis Hranks : xdim * ydim = W.
Hypothesis Hrows : 1 <= rows.
Hypothesis Hcolumns : 1 <= columns.
Hypothesis Hexact : ydim * columns = NY.

Lemma rank_rc k :
  0 <= k < W -> exists r c, 0 <= r < xdim /\ 0 <= c < ydim /\ k = r * ydim + c.
Proof.
  intros Hk. exists (k / ydim), (k mod ydim).
  pose proof (Z.div_mod k ydim ltac:(lia)).
  pose proof (Z.mod_pos_bound k ydim ltac:(lia)).
  pose proof (block_row_bounds xdim ydim k Hydim ltac:(lia)). lia.
Qed.

Lemma rc_rank r c : 0 <= r < xdim -> 0 <= c < ydim -> 0 <= r * ydim + c < W.
Proof. intros. nia. Qed.

Lemma column_in_range c b : 0 <= c < ydim -> 0 <= b < columns -> 0 <= c * columns + b < NY.
Proof. intros. nia. Qed.

(** Block (r, c) is the rows r*rows .. r*rows+rows-1 and the columns
    c*columns .. c*columns+columns-1 of the global grid. *)
Lemma block_of_rc r c off :
  0 <= r < xdim -> 0 <= c < ydim ->
  off ∈ block_of NX NY xdim ydim rows columns (r * ydim + c) <->
  exists a b, 0 <= a < rows /\ 0 <= b < columns /\
              off = (r * rows + a) * NY + (c * columns + b).
Proof.
  intros Hr Hc. unfold block_of, sendsubarr_extent.
  rewrite sendsub_cells, displs_spec by lia. rewrite list_elem_of_fmap. split.
  - intros ([a b] & -> & Hab%elem_of_block_cells). exists a, b. simpl.
    split; [lia|]. split; [lia|]. rewrite <- Hexact. ring.
  - intros (a & b & Ha & Hb & ->). exists (a, b). simpl.
    split; [rewrite <- Hexact; ring|]. by apply elem_of_block_cells.
Qed.

Lemma global_cell_unique r c a b r' c' a' b' :
  0 <= c < ydim -> 0 <= c' < ydim ->
  0 <= a < rows -> 0 <= a' < rows -> 0 <= b < columns -> 0 <= b' < columns ->
  (r * rows + a) * NY + (c * columns + b) = (r' * rows + a') * NY + (c' * columns + b') ->
  r = r' /\ c = c' /\ a = a' /\ b = b'.
Proof.
  intros Hc Hc' Ha Ha' Hb Hb' Heq.
  apply flat_inj in Heq as [Hrow Hcol]; [|by apply column_in_range..].
  apply flat_inj in Hrow; [|lia..]. apply flat_inj in Hcol; [|lia..]. lia.
Qed.

Lemma gather_covered iz (w : world) (u : buf) r c a b :
  0 <= r < xdim -> 0 <= c < ydim -> 0 <= a < rows -> 0 <= b < columns ->
  gather NX NY W xdim ydim rows columns iz w u
         ((r * rows + a) * NY + (c * columns + b)) =
  w (r * ydim + c) iz (at_ columns (1 + a) (1 + b)).
Proof.
  intros Hr Hc Ha Hb.
  replace ((r * rows + a) * NY + (c * columns + b))
    with (displs xdim ydim rows (r * ydim + c) * columns + (a * NY + b))
    by (rewrite displs_spec by lia; rewrite <- Hexact; ring).
  apply gather_hit; [by apply rc_rank|done|done|nia|].
  intros k' Hk' Hne.
  destruct (rank_rc k' Hk') as (r' & c' & Hr' & Hc' & ->).
  rewrite block_of_rc by done. intros (a' & b' & Ha' & Hb' & Heq).
  rewrite displs_spec in Heq by lia.
  replace ((r * rows * ydim + c) * columns + (a * NY + b))
    with ((r * rows + a) * NY + (c * columns + b)) in Heq by (rewrite <- Hexact; ring).
  apply global_cell_unique in Heq as (-> & -> & _); done.
Qed.

(** Rows below the last block row are not part of any block. *)
Lemma gather_uncovered iz (w : world) (u : buf) i j :
  xdim * rows <= i -> 0 <= j < NY ->
  gather NX NY W xdim ydim rows columns iz w u (i * NY + j) = u (i * NY + j).
Proof.
  intros Hi Hj. apply gather_frame; [nia|].
  intros k Hk. destruct (rank_rc k Hk) as (r & c & Hr & Hc & ->).
  rewrite block_of_rc by done. intros (a & b & Ha & Hb & Heq).
  apply flat_inj in Heq as [-> _]; [nia|lia|by apply column_in_range].
Qed.

End ExactGrid.

(** ** Halo exchange: what it leaves alone *)

Lemma receive_nil W xdim ydim rows columns (w : world) iz me posted (b : buf) :
  receive W xdim ydim rows columns w iz me posted [] b = Some b.
Proof. done. Qed.

Lemma receive_cons W xdim ydim rows columns (w : world) iz me posted source dd todo (b : buf) :
  receive W xdim ydim rows columns w iz me posted ((source, dd) :: todo) b =
  if is_null source
  then receive W xdim ydim rows columns w iz me (posted ++ [(source, dd)]) todo b
  else match nth_send me (earlier_from source posted)
                      (sends_of rows columns (nb_of W xdim ydim source)) with
       | None => None
       | Some sd =>
           receive W xdim ydim rows columns w iz me (posted ++ [(source, dd)]) todo
                   (transfer (w source iz) sd b dd)
       end.
Proof. done. Qed.

Lemma receive_frame W xdim ydim rows columns (w : world) iz me todo :
  forall posted (b b' : buf) off,
  receive W xdim ydim rows columns w iz me posted todo b = Some b' ->
  (forall r, r ∈ todo -> off ∉ r.2) ->
  b' off = b off.
Proof.
  induction todo as [|[source dd] todo IH]; intros posted b b' off.
  - rewrite receive_nil. by intros [= ->].
  - rewrite receive_cons. intros Hrecv Hout. destruct (is_null source).
    + apply (IH _ _ _ _ Hrecv). intros r Hr. apply Hout. by right.
    + destruct (nth_send _ _ _) as [sd|]; [|done].
      rewrite (IH _ _ _ _ Hrecv).
      * apply transfer_frame. apply (Hout (source, dd)). by left.
      * intros r Hr. apply Hout. by right.
Qed.

(** The receives fill cells of the halo ring only. *)
Lemma recvs_on_halo rows columns nb r ix iy :
  0 <= columns ->
  r ∈ recvs_of rows columns nb ->
  1 <= ix <= rows -> 1 <= iy <= columns ->
  at_ columns ix iy ∉ r.2.
Proof.
  intros Hc Hr Hx Hy. unfold recvs_of in Hr.
  rewrite !elem_of_cons, elem_of_nil in Hr.
  destruct Hr as [-> | [-> | [-> | [-> | []]]]]; simpl;
    rewrite ?elem_of_column_at, ?elem_of_row_at; intros (i & Hi & Heq);
    unfold at_ in Heq; apply flat_inj in Heq; lia.
Qed.

(** The sends read cells of rows 1..rows, columns 1..columns only, which
    no receive fills: the order in which the messages of one exchange
    complete does not matter. *)
Lemma sends_inside rows columns nb s off :
  1 <= rows -> 1 <= columns ->
  s ∈ sends_of rows columns nb -> off ∈ s.2 ->
  exists ix iy, 1 <= ix <= rows /\ 1 <= iy <= columns /\ off = at_ columns ix iy.
Proof.
  intros Hr Hc Hs. unfold sends_of in Hs.
  rewrite !elem_of_cons, elem_of_nil in Hs.
  destruct Hs as [-> | [-> | [-> | [-> | []]]]]; simpl;
    rewrite ?elem_of_column_at, ?elem_of_row_at; intros (i & Hi & ->).
  - exists (1 + i), columns. lia.
  - exists (1 + i), 1. lia.
  - exists 1, (1 + i). lia.
  - exists rows, (1 + i). lia.
Qed.

Lemma exchange_frame W xdim ydim rows columns iz (w w' : world) k z ix iy :
  0 <= columns ->
  exchange W xdim ydim rows columns iz w = Some w' ->
  1 <= ix <= rows -> 1 <= iy <= columns ->
  w' k z (at_ columns ix iy) = w k z (at_ columns ix iy).
Proof.
  intros Hc Hex Hx Hy. unfold exchange in Hex.
  destruct (forallb _ _); [|done]. injection Hex as <-.
  destruct (is_rank W k && (z =? iz)) eqn:E; [|done].
  apply andb_true_iff in E as [_ ->%Z.eqb_eq].
  destruct (exchange_rank W xdim ydim rows columns w iz k) as [b|] eqn:Eb; [|done].
  simpl. unfold exchange_rank in Eb.
  apply (receive_frame _ _ _ _ _ _ _ _ _ _ _ _ _ Eb).
  intros r Hr. by apply (recvs_on_halo rows columns (nb_of W xdim ydim k)).
Qed.

Lemma exchange_other W xdim ydim rows columns iz (w w' : world) k z :
  exchange W xdim ydim rows columns iz w = Some w' ->
  z <> iz -> w' k z = w k z.
Proof.
  intros Hex Hz. unfold exchange in Hex.
  destruct (forallb _ _); [|done]. injection Hex as <-.
  destruct (Z.eqb_spec z iz); [done|]. by rewrite andb_false_r.
Qed.

(** ** Halo exchange: every receive is matched *)

Section Topology.
Variables W xdim ydim rows columns : Z.
Hypothesis Hnull : MPI_PROC_NULL < 0.
Hypothesis Hxdim : 1 <= xdim.
Hypothesis Hydim : 1 <= ydim.
Hypothesis Hranks : xdim * ydim = W.
Hypothesis Hshape : W = 1 \/ (2 <= xdim /\ 2 <= ydim).

Lemma is_null_rank k : 0 <= k -> is_null k = false.
Proof. intros Hk. unfold is_null. apply Z.eqb_neq. lia. Qed.

Lemma is_null_NULL : is_null MPI_PROC_NULL = true.
Proof. apply Z.eqb_refl. Qed.

(** The neighbours of the rank at block row [r], block column [c]. *)
Lemma nb_rc r c :
  0 <= r < xdim -> 0 <= c < ydim ->
  nb_of W xdim ydim (r * ydim + c) =
  Nbrs (if c =? 0 then MPI_PROC_NULL else r * ydim + c - 1)
       (if c =? ydim - 1 then MPI_PROC_NULL else r * ydim + c + 1)
       (if r =? 0 then MPI_PROC_NULL else r * ydim + c - ydim)
       (if r =? xdim - 1 then MPI_PROC_NULL else r * ydim + c + ydim).
Proof.
  intros Hr Hc. unfold nb_of.
  destruct (nbrs_of_spec W xdim ydim (r * ydim + c) Hxdim Hydim Hranks Hshape)
    as (Hu & Hd & Hl & Hrt); [nia|].
  assert ((r * ydim + c) / ydim = r) as Hdiv
    by (symmetry; apply (Z.div_unique _ _ r c); lia).
  assert ((r * ydim + c) mod ydim = c) as Hmod
    by (symmetry; apply (Z.mod_unique _ _ r c); lia).
  rewrite Hdiv, Hmod in *.
  destruct (nbrs_of W xdim ydim (r * ydim + c)) as [l rt u d]. simpl in *.
  by subst.
Qed.

Lemma earlier_from_none source posted :
  (forall p, p ∈ posted -> p.1 <> source) -> earlier_from source posted = 0%nat.
Proof.
  intros Hnone. unfold earlier_from.
  induction posted as [|p posted IH]; [done|].
  rewrite filter_cons_False.
  - apply IH. intros q Hq. apply Hnone. by right.
  - apply Hnone. by left.
Qed.

Lemma match_left r c :
  0 <= r < xdim -> 0 < c < ydim ->
  nth_send (r * ydim + c) 0 (sends_of rows columns (nb_of W xdim ydim (r * ydim + c - 1)))
  = Some (column_at rows columns 1 columns).
Proof.
  intros Hr Hc. replace (r * ydim + c - 1) with (r * ydim + (c - 1)) by lia.
  rewrite nb_rc by lia. unfold sends_of, nth_send. cbn [right].
  destruct (Z.eqb_spec (c - 1) (ydim - 1)); [lia|].
  by destruct (Z.eqb_spec (r * ydim + (c - 1) + 1) (r * ydim + c)); [|lia].
Qed.

Lemma match_right r c :
  0 <= r < xdim -> 0 <= c < ydim - 1 ->
  nth_send (r * ydim + c) 0 (sends_of rows columns (nb_of W xdim ydim (r * ydim + c + 1)))
  = Some (column_at rows columns 1 1).
Proof.
  intros Hr Hc. replace (r * ydim + c + 1) with (r * ydim + (c + 1)) by lia.
  rewrite nb_rc by lia. unfold sends_of, nth_send. cbn [right left].
  destruct (Z.eqb_spec (c + 1) 0); [lia|].
  destruct (Z.eqb_spec (r * ydim + (c + 1) - 1) (r * ydim + c)); [|lia].
  by destruct (c + 1 =? ydim - 1);
    match goal with |- context [?a =? ?b] => destruct (Z.eqb_spec a b); [lia|] end.
Qed.

Lemma match_down r c :
  0 <= r < xdim - 1 -> 0 <= c < ydim ->
  nth_send (r * ydim + c) 0 (sends_of rows columns (nb_of W xdim ydim (r * ydim + c + ydim)))
  = Some (row_at columns 1 1).
Proof.
  intros Hr Hc. replace (r * ydim + c + ydim) with ((r + 1) * ydim + c) by lia.
  rewrite nb_rc by lia. unfold sends_of, nth_send. cbn [right left up].
  destruct (Z.eqb_spec (r + 1) 0); [lia|].
  destruct (Z.eqb_spec ((r + 1) * ydim + c - ydim) (r * ydim + c)); [|lia].
  destruct (Z.eqb_spec c (ydim - 1)), (Z.eqb_spec c 0);
    repeat match goal with
           | |- context [?a =? ?b] => destruct (Z.eqb_spec a b); [lia|]
           end; done.
Qed.

Lemma match_up r c :
  0 < r < xdim -> 0 <= c < ydim ->
  nth_send (r * ydim + c) 0 (sends_of rows columns (nb_of W xdim ydim (r * ydim + c - ydim)))
  = Some (row_at columns rows 1).
Proof.
  intros Hr Hc. replace (r * ydim + c - ydim) with ((r - 1) * ydim + c) by lia.
  rewrite nb_rc by lia. unfold sends_of, nth_send. cbn [right left up down].
  destruct (Z.eqb_spec (r - 1) (xdim - 1)); [lia|].
  destruct (Z.eqb_spec ((r - 1) * ydim + c + ydim) (r * ydim + c)); [|lia].
  destruct (Z.eqb_spec c (ydim - 1)), (Z.eqb_spec c 0), (Z.eqb_spec (r - 1) 0);
    repeat match goal with
           | |- context [?a =? ?b] => destruct (Z.eqb_spec a b); [lia|]
           end; done.
Qed.

End Topology.

Ltac not_posted :=
  let p := fresh "p" in
  let Hp := fresh "Hp" in
  intros p Hp;
  rewrite ?elem_of_app, ?list_elem_of_singleton, ?elem_of_nil in Hp;
  intuition (subst; simpl in *; lia).

Ltac receive_one :=
  rewrite receive_cons;
  first
    [ rewrite is_null_NULL
    | rewrite is_null_rank by lia;
      rewrite earlier_from_none by not_posted;
      first [ rewrite match_left by (done || lia)
            | rewrite match_right by (done || lia)
            | rewrite match_down by (done || lia)
            | rewrite match_up by (done || lia) ] ].

Section ExchangeTotal.
Variables W xdim ydim rows columns : Z.
Hypothesis Hnull : MPI_PROC_NULL < 0.
Hypothesis Hxdim : 1 <= xdim.
Hypothesis Hydim : 1 <= ydim.
Hypothesis Hranks : xdim * ydim = W.
Hypothesis Hshape : W = 1 \/ (2 <= xdim /\ 2 <= ydim).

Lemma exchange_rank_some (w : world) iz r c :
  0 <= r < xdim -> 0 <= c < ydim ->
  is_Some (exchange_rank W xdim ydim rows columns w iz (r * ydim + c)).
Proof.
  intros Hr Hc. unfold exchange_rank, recvs_of.
  assert (0 <= r * ydim) by nia.
  assert (0 < r -> ydim <= r * ydim) by nia.
  rewrite (nb_rc W xdim ydim Hxdim Hydim Hranks Hshape r c Hr Hc).
  cbn [left right up down].
  destruct (Z.eqb_spec c 0), (Z.eqb_spec c (ydim - 1)),
           (Z.eqb_spec r 0), (Z.eqb_spec r (xdim - 1));
    do 4 receive_one; rewrite receive_nil; eauto.
Qed.

(** On the block grid no wait of the exchange hangs. *)
Lemma exchange_total iz (w : world) :
  is_Some (exchange W xdim ydim rows columns iz w).
Proof.
  unfold exchange.
  assert (forallb (fun k => bool_decide (is_Some (exchange_rank W xdim ydim rows columns w iz k)))
                  (seqZ 0 W) = true) as ->; [|eauto].
  apply forallb_forall. intros k Hk%list_elem_of_In%elem_of_seqZ.
  apply bool_decide_eq_true.
  destruct (rank_rc W xdim ydim Hydim Hranks k) as (r & c & Hr & Hc & ->); [lia|].
  by apply exchange_rank_some.
Qed.

End ExchangeTotal.

(** ** Cells at a domain edge are never assigned *)

Lemma update_block_frame rows columns nb (u1 u2 : buf) ix iy :
  2 <= rows -> 2 <= columns ->
  row_lo nb <= row_hi rows nb -> col_lo nb <= col_hi columns nb ->
  1 <= ix <= rows -> 1 <= iy <= columns ->
  at_domain_edge rows columns nb ix iy ->
  update_block rows columns nb u1 u2 (at_ columns ix iy) = u2 (at_ columns ix iy).
Proof.
  intros Hr Hc Hlr Hlc Hx Hy Hedge. unfold update_block.
  rewrite (exec_sweeps _ _ _ u1 u2
             (sweeps_seq _ _ _ _ _ (updateInternal_sweeps 2 (rows - 1) columns)
                         (updateExternal_sweeps rows columns nb))).
  apply sweep_frame. intros [ix' iy'] Hin Heq. unfold at_ in Heq. simpl in Heq.
  assert (1 <= ix' <= rows /\ 1 <= iy' <= columns /\
          ~ at_domain_edge rows columns nb ix' iy') as (Hx' & Hy' & Hlive).
  { apply elem_of_app in Hin as [Hin%elem_of_internal_cells|Hin].
    - split; [lia|]. split; [lia|]. unfold at_domain_edge. lia.
    - pose proof (external_cells_range _ _ _ _ _ Hr Hc Hin) as [? ?].
      split; [done|]. split; [done|].
      apply not_at_domain_edge; [done..|]. by apply external_cells_live. }
  apply flat_inj in Heq as [<- <-]; [|lia..]. done.
Qed.

Section Steps.
Variables W xdim ydim rows columns : Z.
Hypothesis Hnull : MPI_PROC_NULL < 0.
Hypothesis Hxdim : 1 <= xdim.
Hypothesis Hydim : 1 <= ydim.
Hypothesis Hranks : xdim * ydim = W.
Hypothesis Hshape : W = 1 \/ (2 <= xdim /\ 2 <= ydim).
Hypothesis Hrows : 2 <= rows.
Hypothesis Hcolumns : 2 <= columns.
Hypothesis Hthick_rows : 3 <= rows \/ 2 <= xdim.
Hypothesis Hthick_columns : 3 <= columns \/ 2 <= ydim.

Lemma rank_live k :
  0 <= k < W ->
  row_lo (nb_of W xdim ydim k) <= row_hi rows (nb_of W xdim ydim k) /\
  col_lo (nb_of W xdim ydim k) <= col_hi columns (nb_of W xdim ydim k).
Proof.
  intros Hk.
  destruct (rank_rc W xdim ydim Hydim Hranks k Hk) as (r & c & Hr & Hc & ->).
  assert (0 <= r * ydim) by nia.
  assert (0 < r -> ydim <= r * ydim) by nia.
  rewrite (nb_rc W xdim ydim Hxdim Hydim Hranks Hshape r c Hr Hc).
  unfold row_lo, row_hi, col_lo, col_hi. cbn [left right up down].
  destruct (Z.eqb_spec c 0), (Z.eqb_spec c (ydim - 1)),
           (Z.eqb_spec r 0), (Z.eqb_spec r (xdim - 1));
    rewrite ?is_null_NULL, ?is_null_rank by lia; lia.
Qed.

Lemma step_edges it (w : world) :
  exists w', step W xdim ydim rows columns it w = Some w' /\ same_edges W xdim ydim rows columns w w'.
Proof.
  unfold step.
  destruct (exchange_total W xdim ydim rows columns Hnull Hxdim Hydim Hranks Hshape
              (Z.rem it 2 * -1 + 1) w) as [w1 Hw1].
  rewrite Hw1. simpl. eexists. split; [done|].
  intros k z ix iy Hk Hx Hy Hedge.
  destruct (is_rank W k && (z =? 1 - (Z.rem it 2 * -1 + 1))) eqn:E.
  - apply andb_true_iff in E as [_ ->%Z.eqb_eq].
    destruct (rank_live k Hk) as [? ?].
    rewrite update_block_frame by done.
    apply (exchange_frame W xdim ydim rows columns _ w w1 _ _ _ _ ltac:(lia) Hw1 Hx Hy).
  - apply (exchange_frame W xdim ydim rows columns _ w w1 _ _ _ _ ltac:(lia) Hw1 Hx Hy).
Qed.

Lemma steps_edges STEPS (w : world) :
  exists w', steps W xdim ydim rows columns STEPS w = Some w' /\ same_edges W xdim ydim rows columns w w'.
Proof.
  unfold steps. generalize (seqZ 1 STEPS). intros l. revert w.
  induction l as [|it l IH]; intros w.
  - exists w. split; [done|]. by intros ? ? ? ? ? ? ? ?.
  - simpl. destruct (step_edges it w) as (w1 & -> & H1).
    destruct (IH w1) as (w2 & -> & H2). exists w2. split; [done|].
    intros k z ix iy Hk Hx Hy Hedge. rewrite H2, H1 by done. done.
Qed.

End Steps.

(** ** Domain boundary cells over a whole run *)

Lemma split_index n i m :
  1 <= n -> 0 <= i < m * n ->
  0 <= i / n < m /\ 0 <= i mod n < n /\ i = (i / n) * n + i mod n.
Proof.
  intros Hn Hi.
  pose proof (Z.div_mod i n ltac:(lia)).
  pose proof (Z.mod_pos_bound i n ltac:(lia)).
  assert (0 <= i / n) by (apply Z.div_pos; lia).
  assert (i / n < m) by (apply Z.div_lt_upper_bound; lia).
  lia.
Qed.

Lemma quot_ge_2_nonneg a b : 1 <= b -> 2 <= a ÷ b -> 0 <= a.
Proof.
  intros Hb H. destruct (Z.lt_ge_cases a 0) as [Hn|]; [|lia].
  assert (a ÷ b <= 0); [|lia]. replace a with (- (- a)) by lia.
  rewrite Z.quot_opp_l by lia.
  assert (0 <= (- a) ÷ b) by (apply Z.quot_pos; lia). lia.
Qed.

Section Run_boundary.
Variables NX NY W xdim ydim rows columns : Z.
Hypothesis Hnull : MPI_PROC_NULL < 0.
Hypothesis Hxdim : 1 <= xdim.
Hypothesis Hydim : 1 <= ydim.
Hypothesis Hranks : xdim * ydim = W.
Hypothesis Hshape : W = 1 \/ (2 <= xdim /\ 2 <= ydim).
Hypothesis Hrows : 2 <= rows.
Hypothesis Hcolumns : 2 <= columns.
Hypothesis Hthick_rows : 3 <= rows \/ 2 <= xdim.
Hypothesis Hthick_columns : 3 <= columns \/ 2 <= ydim.
Hypothesis Hexact : ydim * columns = NY.
Hypothesis Hfit : xdim * rows <= NX.

Lemma boundary_cell_at_edge r a c b :
  0 <= r < xdim -> 0 <= a < rows -> 0 <= c < ydim -> 0 <= b < columns ->
  r * rows + a = 0 \/ r * rows + a = xdim * rows - 1 \/
  c * columns + b = 0 \/ c * columns + b = NY - 1 ->
  at_domain_edge rows columns (nb_of W xdim ydim (r * ydim + c)) (1 + a) (1 + b).
Proof.
  intros Hr Ha Hc Hb Hbd.
  rewrite (nb_rc W xdim ydim Hxdim Hydim Hranks Hshape r c Hr Hc).
  unfold at_domain_edge. cbn [left right up down].
  destruct Hbd as [H | [H | [H | H]]].
  - left. assert (r = 0 /\ a = 0) as [-> ->] by nia.
    rewrite Z.eqb_refl, is_null_NULL. split; [done|lia].
  - right. left. assert (r = xdim - 1 /\ a = rows - 1) as [-> ->] by nia.
    rewrite Z.eqb_refl, is_null_NULL. split; [done|lia].
  - right. right. left. assert (c = 0 /\ b = 0) as [-> ->] by nia.
    rewrite Z.eqb_refl, is_null_NULL. split; [done|lia].
  - right. right. right. assert (c = ydim - 1 /\ b = columns - 1) as [-> ->] by nia.
    rewrite Z.eqb_refl, is_null_NULL. split; [done|lia].
Qed.

Lemma run_grid_boundary STEPS (u : buf) (fresh : world) :
  0 <= STEPS ->
  exists fin,
    run_grid NX NY W xdim ydim rows columns STEPS u fresh = Some fin /\
    forall i j, 0 <= i < NX -> 0 <= j < NY ->
      i = 0 \/ i = NX - 1 \/ j = 0 \/ j = NY - 1 ->
      fin (i * NY + j) =
      if Z.odd STEPS && (i <? xdim * rows) then to_flt lit_0_0 else u (i * NY + j).
Proof.
  intros HSTEPS. unfold run_grid.
  destruct (exchange_total W xdim ydim rows columns Hnull Hxdim Hydim Hranks Hshape
              0 (scatter NX NY xdim ydim rows columns u fresh)) as [w1 Hw1].
  rewrite Hw1. simpl.
  destruct (steps_edges W xdim ydim rows columns Hnull Hxdim Hydim Hranks Hshape
              Hrows Hcolumns Hthick_rows Hthick_columns STEPS w1) as (w2 & -> & Hsame).
  simpl. eexists. split; [done|].
  intros i j Hi Hj Hbd.
  destruct (Z.ltb_spec i (xdim * rows)) as [Hcov|Hcov].
  - destruct (split_index rows i xdim) as (Hr & Ha & Hia); [lia..|].
    destruct (split_index columns j ydim) as (Hc & Hb & Hjb); [lia..|].
    set (r := i / rows) in *. set (a := i mod rows) in *.
    set (c := j / columns) in *. set (b := j mod columns) in *.
    assert (at_domain_edge rows columns (nb_of W xdim ydim (r * ydim + c)) (1 + a) (1 + b))
      as Hedge by (apply boundary_cell_at_edge; [done..|lia]).
    rewrite Hia, Hjb.
    rewrite (gather_covered NX NY W xdim ydim rows columns) by (done || lia).
    rewrite Hsame; [|nia|lia|lia|done].
    rewrite (exchange_frame W xdim ydim rows columns 0 _ w1 _ _ _ _ ltac:(lia) Hw1)
      by lia.
    rewrite Z.rem_mod_nonneg, Zmod_odd by lia.
    destruct (Z.odd STEPS); simpl.
    + apply scatter_next; lia.
    + rewrite scatter_interior by done. f_equal.
      rewrite displs_spec by lia. rewrite <- Hexact. ring.
  - rewrite andb_false_r.
    apply (gather_uncovered NX NY W xdim ydim rows columns); done || lia.
Qed.

End Run_boundary.

(** C2, as the code has it.  On a grid whose columns divide evenly among
    the block columns and whose blocks have at least two rows and two
    columns (three where there is a single block row, resp. column), the
    run completes, and a domain boundary cell of the gathered field holds
    its initial value when the number of steps is even or when the cell
    lies below the last block row, and holds 0.0, the initial fill of
    [local[1]], when the number of steps is odd.  So the boundary is
    unchanged after an even number of steps, and after any number of
    steps when the initial field is zero on the boundary. *)
Theorem boundary_cells_after_run (NX NY W STEPS xdim ydim : Z) (u : buf) (fresh : world) :
  MPI_PROC_NULL < 0 ->
  1 <= W -> ~ Z.prime W -> 0 <= STEPS ->
  block_grid NX NY W = Some (xdim, ydim) ->
  ydim * (NY ÷ ydim) = NY ->
  2 <= NX ÷ xdim -> 2 <= NY ÷ ydim ->
  3 <= NX ÷ xdim \/ 2 <= xdim ->
  3 <= NY ÷ ydim \/ 2 <= ydim ->
  exists fin,
    simulate NX NY STEPS W u fresh = Some fin /\
    (forall i j, 0 <= i < NX -> 0 <= j < NY ->
       i = 0 \/ i = NX - 1 \/ j = 0 \/ j = NY - 1 ->
       fin (i * NY + j) =
       if Z.odd STEPS && (i <? xdim * (NX ÷ xdim)) then to_flt lit_0_0
       else u (i * NY + j)) /\
    (Z.even STEPS = true ->
     forall i j, 0 <= i < NX -> 0 <= j < NY ->
       i = 0 \/ i = NX - 1 \/ j = 0 \/ j = NY - 1 ->
       fin (i * NY + j) = u (i * NY + j)) /\
    ((forall i j, 0 <= i < NX -> 0 <= j < NY ->
        i = 0 \/ i = NX - 1 \/ j = 0 \/ j = NY - 1 ->
        u (i * NY + j) = to_flt lit_0_0) ->
     forall i j, 0 <= i < NX -> 0 <= j < NY ->
       i = 0 \/ i = NX - 1 \/ j = 0 \/ j = NY - 1 ->
       fin (i * NY + j) = u (i * NY + j)).
Proof.
  intros Hnull HW Hp HSTEPS Hgrid Hexact Hrows Hcolumns Htr Htc.
  destruct (block_grid_shape NX NY W xdim ydim HW Hgrid) as (Hmul & Hx & Hy & Hshape).
  specialize (Hshape Hp).
  assert (0 <= NX) as HNX by (apply (quot_ge_2_nonneg NX xdim); lia).
  assert (xdim * (NX ÷ xdim) <= NX) as Hfit.
  { rewrite Z.quot_div_nonneg by lia. apply Z.mul_div_le. lia. }
  destruct (run_grid_boundary NX NY W xdim ydim (NX ÷ xdim) (NY ÷ ydim)
              Hnull Hx Hy Hmul Hshape Hrows Hcolumns Htr Htc Hexact Hfit STEPS u fresh HSTEPS)
    as (fin & Hrun & Hfin).
  exists fin. unfold simulate. rewrite Hgrid. simpl. split; [exact Hrun|].
  split; [exact Hfin|]. split.
  - intros Heven i j Hi Hj Hbd. rewrite Hfin by done.
    by rewrite <- Z.negb_even, Heven.
  - intros Hzero i j Hi Hj Hbd. rewrite Hfin by done.
    destruct (_ && _); [|done]. symmetry. by apply Hzero.
Qed.

(** ** One worker, one step *)

Lemma inidat_cell nx ny (u : buf) ix iy :
  0 <= ix < nx -> 0 <= iy < ny ->
  inidat nx ny u (ix * ny + iy) =
  of_int (int_mul (int_mul (int_mul ix (nx - ix - 1)) iy) (ny - iy - 1)).
Proof.
  intros Hx Hy. unfold inidat.
  pose (P := fun (i : Z) (q : buf) =>
    forall ix' iy', 0 <= ix' < i -> 0 <= iy' < ny ->
      q (ix' * ny + iy') =
      of_int (int_mul (int_mul (int_mul ix' (nx - ix' - 1)) iy') (ny - iy' - 1))).
  match goal with |- loopZ 0 (nx - 1) ?body ?s0 _ = _ =>
    assert (HP : P (nx - 1 + 1) (loopZ 0 (nx - 1) body s0)) end.
  { apply loopZ_ind; [lia|intros ? ? ?; lia|].
    intros i q Hi HPi.
    pose (Q := fun (j : Z) (q' : buf) =>
      (forall ix' iy', 0 <= ix' < i -> 0 <= iy' < ny ->
         q' (ix' * ny + iy') =
         of_int (int_mul (int_mul (int_mul ix' (nx - ix' - 1)) iy') (ny - iy' - 1))) /\
      (forall iy', 0 <= iy' < j ->
         q' (i * ny + iy') =
         of_int (int_mul (int_mul (int_mul i (nx - i - 1)) iy') (ny - iy' - 1)))).
    match goal with |- P _ (loopZ 0 (ny - 1) ?body ?s0) =>
      assert (HQ : Q (ny - 1 + 1) (loopZ 0 (ny - 1) body s0)) end.
    { apply loopZ_ind; [lia| |].
      - split; [exact HPi|intros; lia].
      - intros j q' Hj [HQ1 HQ2]. split.
        + intros ix' iy' Hx' Hy'. rewrite poke_ne; [by apply HQ1|].
          intros Heq. apply flat_inj in Heq; lia.
        + intros iy' Hy'. destruct (decide (iy' = j)) as [->|].
          * apply poke_eq.
          * rewrite poke_ne; [apply HQ2; lia|].
            intros Heq. apply flat_inj in Heq; lia. }
    destruct HQ as [HQ1 HQ2]. intros ix' iy' Hx' Hy'.
    destruct (decide (ix' = i)) as [->|]; [apply HQ2; lia|apply HQ1; lia]. }
  apply HP; lia.
Qed.

(** The value stored in cell (ix, iy) is the product reduced to 32 bits. *)
Lemma inidat_spec nx ny (u : buf) ix iy :
  0 <= ix < nx -> 0 <= iy < ny ->
  inidat nx ny u (ix * ny + iy) =
  of_int (wrap_int (ix * (nx - ix - 1) * iy * (ny - iy - 1))).
Proof.
  intros Hx Hy. rewrite inidat_cell by done. unfold int_mul.
  by rewrite (wrap_int_mul_l (ix * (nx - ix - 1)) iy), wrap_int_mul_l.
Qed.

(** What the two passes together leave in a cell of the interior pass. *)
Lemma update_block_interior rows columns nb (u1 u2 : buf) ix iy :
  2 <= rows -> 2 <= columns ->
  2 <= ix <= rows - 1 -> 2 <= iy <= columns - 1 ->
  update_block rows columns nb u1 u2 (at_ columns ix iy) =
  cell_val (columns + 2) u1 (ix, iy).
Proof.
  intros Hr Hc Hx Hy. unfold update_block.
  rewrite (exec_sweeps _ _ _ u1 u2
             (sweeps_seq _ _ _ _ _ (updateInternal_sweeps 2 (rows - 1) columns)
                         (updateExternal_sweeps rows columns nb))).
  apply (sweep_written (columns + 2) _ (Mach u1 u2 []) (ix, iy)).
  - apply elem_of_app. left. by apply elem_of_internal_cells.
  - intros [ix' iy'] Hin Heq. simpl in Heq.
    assert (1 <= ix' <= rows /\ 1 <= iy' <= columns) as [? ?].
    { apply elem_of_app in Hin as [Hin%elem_of_internal_cells|Hin]; [lia|].
      by apply (external_cells_range rows columns nb). }
    apply flat_inj in Heq as [-> ->]; [done|lia..].
Qed.

Lemma nb_of_single : nb_of 1 1 1 0 = Nbrs MPI_PROC_NULL MPI_PROC_NULL MPI_PROC_NULL MPI_PROC_NULL.
Proof. done. Qed.

Lemma exchange_single rows columns iz (w : world) :
  is_Some (exchange 1 1 1 rows columns iz w).
Proof.
  unfold exchange.
  assert (exchange_rank 1 1 1 rows columns w iz 0 = Some (w 0 iz)) as Hrank.
  { unfold exchange_rank, recvs_of. rewrite nb_of_single. cbn [left right up down].
    rewrite !receive_cons, !is_null_NULL. apply receive_nil. }
  change (seqZ 0 1) with [0]. cbn [forallb]. rewrite Hrank.
  rewrite bool_decide_eq_true_2 by eauto. simpl. eauto.
Qed.

Lemma single_edges rows columns :
  3 <= rows -> 3 <= columns ->
  let alone := Nbrs MPI_PROC_NULL MPI_PROC_NULL MPI_PROC_NULL MPI_PROC_NULL in
  row_lo alone <= row_hi rows alone /\ col_lo alone <= col_hi columns alone /\
  forall ix iy, ix = 1 \/ ix = rows \/ iy = 1 \/ iy = columns ->
    at_domain_edge rows columns alone ix iy.
Proof.
  intros Hr Hc alone. subst alone. unfold row_lo, row_hi, col_lo, col_hi, at_domain_edge.
  cbn [left right up down]. rewrite is_null_NULL.
  split; [lia|]. split; [lia|]. intros ix iy. tauto.
Qed.

(** A run with one worker and one step: the boundary of the gathered field
    holds the zeros of [local[1]], every other cell the stencil expression
    on the initial field. *)
Lemma single_worker_one_step NX NY (u : buf) (fresh : world) :
  3 <= NX -> 3 <= NY ->
  exists fin,
    simulate NX NY 1 1 u fresh = Some fin /\
    (forall i j, 0 <= i < NX -> 0 <= j < NY ->
       i = 0 \/ i = NX - 1 \/ j = 0 \/ j = NY - 1 ->
       fin (i * NY + j) = to_flt lit_0_0) /\
    (forall i j, 1 <= i <= NX - 2 -> 1 <= j <= NY - 2 ->
       fin (i * NY + j) =
       to_flt (to_dbl (u (i * NY + j))
               +d to_dbl (cx parms) *d
                    (to_dbl (u ((i + 1) * NY + j) +f u ((i - 1) * NY + j))
                     -d lit_2_0 *d to_dbl (u (i * NY + j)))
               +d to_dbl (cy parms) *d
                    (to_dbl (u (i * NY + (j + 1)) +f u (i * NY + (j - 1)))
                     -d lit_2_0 *d to_dbl (u (i * NY + j))))).
Proof.
  intros HNX HNY. unfold simulate.
  assert (block_grid NX NY 1 = Some (1, 1)) as ->.
  { unfold block_grid. change (find_dims 1) with (Some (1, 1)). simpl.
    by rewrite andb_false_r. }
  simpl. rewrite !Z.quot_1_r. unfold run_grid.
  destruct (exchange_single NX NY 0 (scatter NX NY 1 1 NX NY u fresh)) as [w1 Hw1].
  rewrite Hw1. simpl. unfold steps. change (seqZ 1 1) with [1]. simpl. unfold step.
  change (Z.rem 1 2 * -1 + 1) with 0. change (1 - 0) with 1.
  destruct (exchange_single NX NY 0 w1) as [w1' Hw1'].
  rewrite Hw1'. simpl. eexists. split; [done|].
  change (Z.rem 1 2) with 1.
  assert (Hcell : forall i j, 0 <= i < NX -> 0 <= j < NY ->
    gather NX NY 1 1 1 NX NY 1
      (fun k z => if is_rank 1 k && (z =? 1)
                  then update_block NX NY (nb_of 1 1 1 k) (w1' k 0) (w1' k 1)
                  else w1' k z) u (i * NY + j)
    = update_block NX NY (nb_of 1 1 1 0) (w1' 0 0) (w1' 0 1) (at_ NY (1 + i) (1 + j))).
  { intros i j Hi Hj.
    replace (i * NY + j) with ((0 * NX + i) * NY + (0 * NY + j)) by lia.
    rewrite (gather_covered NX NY 1 1 1 NX NY) by lia. done. }
  assert (Hin : forall z ix iy, 1 <= ix <= NX -> 1 <= iy <= NY ->
    w1' 0 z (at_ NY ix iy) = scatter NX NY 1 1 NX NY u fresh 0 z (at_ NY ix iy)).
  { intros z ix iy Hx Hy.
    rewrite (exchange_frame 1 1 1 NX NY 0 w1 w1' _ _ _ _ ltac:(lia) Hw1' Hx Hy).
    apply (exchange_frame 1 1 1 NX NY 0 _ w1 _ _ _ _ ltac:(lia) Hw1 Hx Hy). }
  rewrite nb_of_single in Hcell.
  destruct (single_edges NX NY HNX HNY) as (Hlr & Hlc & Hedge).
  split.
  - intros i j Hi Hj Hbd. rewrite Hcell by done.
    rewrite update_block_frame; [|lia|lia|done|done|lia|lia|apply Hedge; lia].
    rewrite Hin by lia. apply scatter_next; lia.
  - intros i j Hi Hj. rewrite Hcell by lia.
    rewrite update_block_interior by lia. rewrite cell_val_at.
    replace (1 + i + 1) with (1 + (i + 1)) by lia.
    replace (1 + i - 1) with (1 + (i - 1)) by lia.
    replace (1 + j + 1) with (1 + (j + 1)) by lia.
    replace (1 + j - 1) with (1 + (j - 1)) by lia.
    rewrite !Hin by lia. rewrite !scatter_interior by lia.
    change (displs 1 1 NX 0) with (displs 1 1 NX (0 * 1 + 0)).
    rewrite displs_spec by lia. repeat f_equal; lia.
Qed.

(** C4. NX = NY = 4, one worker, one step, cx = cy = 0.1, on the field
    [inidat] builds, u(i,j) = i*(3-i)*j*(3-j): the run completes; every boundary cell of
    the gathered field equals its initial value, which is 0; each of the
    four interior cells equals the stencil expression evaluated on the
    initial field. *)
Theorem one_step_on_4x4_grid (junk : buf) (fresh : world) :
  let u0 := inidat 4 4 junk in
  (forall i j, 0 <= i < 4 -> 0 <= j < 4 ->
     u0 (i * 4 + j) = of_int (i * (3 - i) * j * (3 - j))) /\
  cx parms = to_flt lit_0_1 /\ cy parms = to_flt lit_0_1 /\
  exists fin,
    simulate 4 4 1 1 u0 fresh = Some fin /\
    (forall i j, 0 <= i < 4 -> 0 <= j < 4 ->
       i = 0 \/ i = 3 \/ j = 0 \/ j = 3 ->
       fin (i * 4 + j) = u0 (i * 4 + j) /\ u0 (i * 4 + j) = of_int 0) /\
    (forall i j, 1 <= i <= 2 -> 1 <= j <= 2 ->
       fin (i * 4 + j) =
       to_flt (to_dbl (u0 (i * 4 + j))
               +d to_dbl (cx parms) *d
                    (to_dbl (u0 ((i + 1) * 4 + j) +f u0 ((i - 1) * 4 + j))
                     -d lit_2_0 *d to_dbl (u0 (i * 4 + j)))
               +d to_dbl (cy parms) *d
                    (to_dbl (u0 (i * 4 + (j + 1)) +f u0 (i * 4 + (j - 1)))
                     -d lit_2_0 *d to_dbl (u0 (i * 4 + j))))).
Proof.
  intros u0.
  assert (Hu0 : forall i j, 0 <= i < 4 -> 0 <= j < 4 ->
            u0 (i * 4 + j) = of_int (i * (3 - i) * j * (3 - j))).
  { intros i j Hi Hj. subst u0. rewrite inidat_spec by done. f_equal.
    replace (i * (4 - i - 1) * j * (4 - j - 1)) with (i * (3 - i) * j * (3 - j)) by ring.
    apply wrap_int_small. unfold INT_MAX.
    assert (i = 0 \/ i = 1 \/ i = 2 \/ i = 3) as [-> | [-> | [-> | ->]]] by lia;
      assert (j = 0 \/ j = 1 \/ j = 2 \/ j = 3) as [-> | [-> | [-> | ->]]] by lia; lia. }
  split; [exact Hu0|]. do 2 (split; [reflexivity|]).
  destruct (single_worker_one_step 4 4 u0 fresh) as (fin & Hrun & Hbd & Hin); [lia..|].
  exists fin. split; [exact Hrun|]. split.
  - intros i j Hi Hj Hedge.
    assert (u0 (i * 4 + j) = of_int 0) as Hzero.
    { rewrite Hu0 by done. f_equal.
      destruct Hedge as [-> | [-> | [-> | ->]]]; ring. }
    split; [|exact Hzero]. rewrite Hzero, of_int_0. apply Hbd; [done..|lia].
  - intros i j Hi Hj. apply Hin; lia.
Qed.

(** ** Scatter, then gather *)

Section Round_trip.
Variables NX NY W xdim ydim rows columns : Z.
Hypothesis Hnull : MPI_PROC_NULL < 0.
Hypothesis Hxdim : 1 <= xdim.
Hypothesis Hydim : 1 <= ydim.
Hypothesis Hranks : xdim * ydim = W.
Hypothesis Hshape : W = 1 \/ (2 <= xdim /\ 2 <= ydim).
Hypothesis Hrows : 1 <= rows.
Hypothesis Hcolumns : 1 <= columns.
Hypothesis Hexact : ydim * columns = NY.

(** When the columns divide evenly, block (r, c) is taken from row
    r*rows, column c*columns of the grid on, into rows 1..rows, columns
    1..columns of the rank's buffer. *)
Lemma scatter_block (u : buf) (fresh : world) r c a b :
  0 <= r < xdim -> 0 <= c < ydim -> 0 <= a < rows -> 0 <= b < columns ->
  scatter NX NY xdim ydim rows columns u fresh (r * ydim + c) 0 (at_ columns (1 + a) (1 + b))
  = u ((r * rows + a) * NY + (c * columns + b)).
Proof.
  intros Hr Hc Ha Hb. rewrite scatter_interior by done. f_equal.
  rewrite displs_spec by lia. rewrite <- Hexact. ring.
Qed.

(** With no step in between the gathered field is the scattered one. *)
Lemma scatter_gather_identity (u : buf) (fresh : world) :
  exists fin,
    run_grid NX NY W xdim ydim rows columns 0 u fresh = Some fin /\
    forall i j, 0 <= i -> 0 <= j < NY -> fin (i * NY + j) = u (i * NY + j).
Proof.
  unfold run_grid.
  destruct (exchange_total W xdim ydim rows columns Hnull Hxdim Hydim Hranks Hshape
              0 (scatter NX NY xdim ydim rows columns u fresh)) as [w1 Hw1].
  rewrite Hw1. simpl.
  eexists. split; [done|]. intros i j Hi Hj. change (Z.rem 0 2) with 0.
  destruct (Z.ltb_spec i (xdim * rows)) as [Hcov|Hcov].
  - destruct (split_index rows i xdim) as (Hr & Ha & Hia); [lia..|].
    destruct (split_index columns j ydim) as (Hc & Hb & Hjb); [lia..|].
    rewrite Hia, Hjb.
    rewrite (gather_covered NX NY W xdim ydim rows columns) by (done || lia).
    rewrite (exchange_frame W xdim ydim rows columns 0 _ w1 _ _ _ _ ltac:(lia) Hw1)
      by lia.
    by apply scatter_block.
  - apply (gather_uncovered NX NY W xdim ydim rows columns); done || lia.
Qed.

End Round_trip.

(** * Further properties of the code *)

(** ** [isPrime] on every argument *)

(** The compiled function.  Up to [i = 46340] the product [i*i] fits 32
    bits, and an argument below 46339^2 lets the loop go no further. *)
Lemma isPrime_loop_int_agrees fuel n i :
  n < 46339 * 46339 -> 0 <= i <= 46340 ->
  isPrime_loop_int fuel n i = isPrime_loop fuel n i.
Proof.
  intros Hn. revert i. induction fuel as [|fuel IH]; intros i Hi; [done|].
  simpl. unfold int_mul. rewrite wrap_int_small by (unfold INT_MAX; nia).
  destruct (Z.leb_spec (i * i) n) as [Hsq|]; [|done].
  destruct (Z.rem n i =? 0); [done|].
  apply IH. assert (i < 46339) by nia. lia.
Qed.

Lemma isPrime_int_agrees n : n < 46339 * 46339 -> isPrime_int n = isPrime n.
Proof.
  intros Hn. unfold isPrime_int, isPrime.
  destruct (n =? 1); [done|]. destruct (n =? 2); [done|].
  destruct (Z.rem n 2 =? 0); [done|].
  apply isPrime_loop_int_agrees; [done|lia].
Qed.

(** With the wrapped product the loop still ends, at [i = n] at the
    latest, and it still answers 1 on primes only: where the wrapped
    product is above [n], so is the product itself. *)
Lemma isPrime_loop_int_spec fuel n i :
  3 <= n <= INT_MAX -> Z.odd n = true -> 3 <= i <= n -> Z.odd i = true ->
  n - i < Z.of_nat fuel ->
  (forall d, 1 < d < i -> ~ (d | n)) ->
  isPrime_loop_int fuel n i = Some 0 \/
  (isPrime_loop_int fuel n i = Some 1 /\ Z.prime n).
Proof.
  intros Hn Hodd. revert i. induction fuel as [|fuel IH]; [lia|].
  intros i Hi Hiodd Hfuel Hnone. simpl.
  destruct (Z.leb_spec (int_mul i i) n) as [Hsq|Hsq].
  - destruct (Z.eqb_spec (Z.rem n i) 0) as [Hrem|Hrem]; [by left|].
    assert (i <> n) by (intros ->; apply Hrem, Z.rem_same; lia).
    assert (i + 2 <= n).
    { apply Z.odd_spec in Hodd as [k ->]. apply Z.odd_spec in Hiodd as [k' ->]. lia. }
    apply IH; [lia| |lia|].
    + rewrite Z.odd_add, Hiodd. done.
    + intros d Hd Hdiv. destruct (decide (d < i)); [by apply (Hnone d); [lia|]|].
      destruct (decide (d = i)) as [->|].
      { apply Hrem. apply rem_zero_divide; [lia|done]. }
      assert (d = i + 1) as -> by lia.
      assert (Z.odd (i + 1) = false) as Heven by (rewrite Z.odd_add, Hiodd; done).
      assert (Z.even (i + 1) = true) as [k Hk]%Z.even_spec
        by (rewrite <- Z.negb_odd, Heven; done).
      destruct Hdiv as [q Hq]. rewrite Hk in Hq.
      assert (Z.odd n = false) as Hc; [|congruence].
      rewrite <- Z.negb_even. apply negb_false_iff, Z.even_spec.
      exists (q * k). lia.
  - right. split; [done|].
    assert (n < i * i) as Hbig.
    { destruct (decide (i <= 46340)).
      - unfold int_mul in Hsq. rewrite wrap_int_small in Hsq; [done|]. unfold INT_MAX. nia.
      - unfold INT_MAX in Hn. nia. }
    split; [lia|].
    intros d Hd [q Hq].
    destruct (small_factor n q d) as (e & He & Hee & Hediv); [nia|lia|done|].
    apply (Hnone e); [nia|done].
Qed.

Lemma isPrime_int_spec n :
  1 <= n <= INT_MAX ->
  isPrime_int n = Some 0 \/ (isPrime_int n = Some 1 /\ Z.prime n).
Proof.
  intros Hn. unfold isPrime_int.
  destruct (Z.eqb_spec n 1) as [->|H1]; [by left|].
  destruct (Z.eqb_spec n 2) as [->|H2]; [right; split; [done|apply Z.prime_2]|].
  destruct (Z.eqb_spec (Z.rem n 2) 0) as [Hrem|Hrem]; [by left|].
  assert (Z.odd n = true) as Hodd.
  { rewrite <- Z.negb_even. apply negb_true_iff.
    destruct (Z.even n) eqn:E; [|done]. apply Z.even_spec in E as [k ->].
    exfalso. apply Hrem. apply rem_zero_divide; [lia|]. exists k. lia. }
  apply isPrime_loop_int_spec; [lia|done|lia|done|lia|].
  intros d Hd [q Hq]. assert (d = 2) as -> by lia.
  apply Hrem. apply rem_zero_divide; [lia|]. by exists q.
Qed.

Lemma isPrime_int_not_prime n :
  1 <= n <= INT_MAX -> ~ Z.prime n -> isPrime_int n = isPrime n.
Proof.
  intros Hn Hp. rewrite (isPrime_composite n) by (done || lia).
  by destruct (isPrime_int_spec n Hn) as [?|[_ ?]].
Qed.

(** A worker count that passes the divisibility check of a grid of fewer
    than 46339^2 cells is below that bound itself: for the counts that
    get past start-up it makes no difference where the product is taken. *)
Lemma isPrime_int_workers NX NY W :
  1 <= W -> 0 < NX * NY < 46339 * 46339 -> Z.rem (NX * NY) W = 0 ->
  isPrime_int W = isPrime W.
Proof.
  intros HW Hcells Hrem. apply isPrime_int_agrees.
  apply rem_zero_divide in Hrem; [|lia].
  apply Z.divide_pos_le in Hrem; lia.
Qed.

(** At [INT_MAX] no wrapped product is above the argument: the loop
    runs until it meets a divisor, which is the argument itself when
    there is no other. *)
Lemma isPrime_loop_int_max fuel i :
  3 <= i <= INT_MAX -> Z.odd i = true -> INT_MAX - i < Z.of_nat fuel ->
  isPrime_loop_int fuel INT_MAX i = Some 0.
Proof.
  revert i. induction fuel as [|fuel IH]; [lia|].
  intros i Hi Hiodd Hfuel. simpl.
  pose proof (wrap_int_range (i * i)) as Hw. unfold int_mul.
  destruct (Z.leb_spec (wrap_int (i * i)) INT_MAX) as [_|?]; [|lia].
  destruct (Z.eqb_spec (Z.rem INT_MAX i) 0) as [Hrem|Hrem]; [done|].
  assert (i <> INT_MAX) by (intros ->; apply Hrem, Z.rem_same; done).
  assert (i + 2 <= INT_MAX).
  { apply Z.odd_spec in Hiodd as [k' ->]. unfold INT_MAX in *. lia. }
  apply IH; [lia| |lia]. rewrite Z.odd_add, Hiodd. done.
Qed.

(** X1. For every [int] n >= 1 the compiled [isPrime] returns 0 or 1: the
    loop ends also where the product i*i no longer fits 32 bits and wraps
    around.  A result of 1 is right whatever n is, so an n that is not
    prime always gets 0.  For n below 46339^2 = 2147302921 no product
    overflows: [isPrime] with the product in Z returns the same, and
    every prime gets 1. *)
Theorem isPrime_decides_primality (n : Z) :
  1 <= n <= INT_MAX ->
  exists b,
    isPrime_int n = Some b /\ (b = 0 \/ b = 1) /\
    (b = 1 -> Z.prime n) /\
    (n < 46339 * 46339 -> isPrime n = Some b /\ (Z.prime n -> b = 1)).
Proof.
  intros Hn. destruct (isPrime_int_spec n Hn) as [H0|[H1 Hp]].
  - exists 0. split; [done|]. split; [by left|]. split; [lia|].
    intros Hsmall. rewrite <- isPrime_int_agrees by done. split; [done|].
    intros Hp. rewrite isPrime_int_agrees in H0 by done.
    destruct (isPrime_spec n) as [[_ Hnp]|[H1 _]]; [lia|done|congruence].
  - exists 1. split; [done|]. split; [by right|]. split; [done|].
    intros Hsmall. by rewrite <- isPrime_int_agrees.
Qed.

(** X2. Outside the range it is meant for, [isPrime] goes by parity
    alone: for n <= 0 it returns 0 when n is even and 1 when n is odd (the
    loop body never runs, since 3*3 > n). *)
Theorem isPrime_nonpositive (n : Z) :
  n <= 0 -> isPrime n = Some (if Z.even n then 0 else 1).
Proof.
  intros Hn. unfold isPrime.
  destruct (Z.eqb_spec n 1); [lia|]. destruct (Z.eqb_spec n 2); [lia|].
  destruct (Z.eqb_spec (Z.rem n 2) 0) as [Hrem|Hrem].
  - apply Z.rem_divide in Hrem as [k ->]; [|lia].
    by rewrite Z.even_mul, orb_true_r.
  - destruct (Z.even n) eqn:E.
    + apply Z.even_spec in E as [k ->]. exfalso. apply Hrem.
      apply Z.rem_divide; [lia|]. exists k. lia.
    + simpl. by destruct (Z.leb_spec (3 * 3) n); [lia|].
Qed.

(** ** Loops that fill a grid *)

(** Invariant rule for a loop whatever its bounds. *)
Lemma loopZ_inv {St} (P : St -> Prop) lo hi (body : Z -> St -> St) s :
  P s -> (forall i s, lo <= i <= hi -> P s -> P (body i s)) -> P (loopZ lo hi body s).
Proof.
  intros H0 Hstep. unfold loopZ.
  assert (Hin : forall i, i ∈ seqZ lo (hi - lo + 1) -> lo <= i <= hi)
    by (intros i ?%elem_of_seqZ; lia).
  revert s H0 Hin. induction (seqZ lo (hi - lo + 1)) as [|i l IH]; intros s H0 Hin; [done|].
  simpl. apply IH.
  - apply Hstep; [|done]. apply Hin. by left.
  - intros j Hj. apply Hin. by right.
Qed.

Lemma grid_offset_range nx ny ix iy :
  0 <= ix < nx -> 0 <= iy < ny -> 0 <= ix * ny + iy < nx * ny.
Proof. intros. nia. Qed.

Lemma inidat_frame nx ny (u : buf) off :
  ~ 0 <= off < nx * ny -> inidat nx ny u off = u off.
Proof.
  intros Hoff. unfold inidat.
  apply (loopZ_inv (fun q : buf => q off = u off)); [done|].
  intros ix q Hx Hq.
  apply (loopZ_inv (fun q : buf => q off = u off)); [done|].
  intros iy q' Hy Hq'. rewrite poke_ne; [done|].
  pose proof (grid_offset_range nx ny ix iy). lia.
Qed.

(** X3. [inidat] assigns every cell of the nx x ny grid, so the field it
    leaves does not depend on what the array held before; it is 0 on the
    boundary of the grid; and it writes nothing outside the nx*ny floats
    of the array. *)
Theorem inidat_field (nx ny : Z) (u u' : buf) :
  (forall ix iy, 0 <= ix < nx -> 0 <= iy < ny ->
     inidat nx ny u (ix * ny + iy) = inidat nx ny u' (ix * ny + iy)) /\
  (forall ix iy, 0 <= ix < nx -> 0 <= iy < ny ->
     ix = 0 \/ ix = nx - 1 \/ iy = 0 \/ iy = ny - 1 ->
     inidat nx ny u (ix * ny + iy) = to_flt lit_0_0) /\
  (forall off, ~ 0 <= off < nx * ny -> inidat nx ny u off = u off).
Proof.
  split; [|split].
  - intros ix iy Hx Hy. by rewrite !inidat_spec.
  - intros ix iy Hx Hy Hbd. rewrite inidat_spec by done. rewrite <- of_int_0. f_equal.
    replace (ix * (nx - ix - 1) * iy * (ny - iy - 1)) with 0; [done|].
    destruct Hbd as [-> | [-> | [-> | ->]]]; ring.
  - apply inidat_frame.
Qed.

(** X4. The field [inidat] builds is symmetric about both centre lines of
    the grid: mirroring a cell in either direction gives the same value. *)
Theorem inidat_symmetric (nx ny : Z) (u : buf) (ix iy : Z) :
  0 <= ix < nx -> 0 <= iy < ny ->
  inidat nx ny u ((nx - 1 - ix) * ny + iy) = inidat nx ny u (ix * ny + iy) /\
  inidat nx ny u (ix * ny + (ny - 1 - iy)) = inidat nx ny u (ix * ny + iy).
Proof.
  intros Hx Hy. rewrite !inidat_spec by lia. split; do 2 f_equal; ring.
Qed.



(** X5. [DUMMYDUMDUM] numbers the cells of the grid in row-major order:
    cell (ix, iy) receives (float)(ix*ny+iy), its own offset, and nothing
    outside the nx*ny floats is written. *)
Theorem DUMMYDUMDUM_numbers_cells (nx ny : Z) (u : buf) :
  (forall ix iy, 0 <= ix < nx -> 0 <= iy < ny ->
     DUMMYDUMDUM nx ny u (ix * ny + iy) = of_int (ix * ny + iy)) /\
  (forall off, ~ 0 <= off < nx * ny -> DUMMYDUMDUM nx ny u off = u off).
Proof.
  split.
  - intros ix iy Hx Hy. unfold DUMMYDUMDUM.
    pose (P := fun (i : Z) (st : buf * Z) =>
      st.2 = i * ny /\
      forall ix' iy', 0 <= ix' < i -> 0 <= iy' < ny ->
        st.1 (ix' * ny + iy') = of_int (ix' * ny + iy')).
    match goal with |- (loopZ 0 (nx - 1) ?body ?s0).1 _ = _ =>
      assert (HP : P (nx - 1 + 1) (loopZ 0 (nx - 1) body s0)) end.
    { apply loopZ_ind; [lia|split; [simpl; lia|intros; lia]|].
      intros i [q n] Hi [Hn Hq]. simpl in Hn, Hq.
      pose (Q := fun (j : Z) (st : buf * Z) =>
        st.2 = i * ny + j /\
        (forall ix' iy', 0 <= ix' < i -> 0 <= iy' < ny ->
           st.1 (ix' * ny + iy') = of_int (ix' * ny + iy')) /\
        (forall iy', 0 <= iy' < j -> st.1 (i * ny + iy') = of_int (i * ny + iy'))).
      match goal with |- P _ (loopZ 0 (ny - 1) ?body ?s0) =>
        assert (HQ : Q (ny - 1 + 1) (loopZ 0 (ny - 1) body s0)) end.
      { apply loopZ_ind; [lia| |].
        - split; [simpl; lia|]. split; [exact Hq|intros; lia].
        - intros j [q' n'] Hj (HQ0 & HQ1 & HQ2). simpl in HQ0, HQ1, HQ2.
          split; [simpl; lia|]. simpl. split.
          + intros ix' iy' Hx' Hy'. rewrite poke_ne; [by apply HQ1|].
            intros Heq. apply flat_inj in Heq; lia.
          + intros iy' Hy'. destruct (decide (iy' = j)) as [->|].
            * rewrite poke_eq. by rewrite HQ0.
            * rewrite poke_ne; [apply HQ2; lia|].
              intros Heq. apply flat_inj in Heq; lia. }
      destruct HQ as (HQ0 & HQ1 & HQ2). split.
      - rewrite HQ0. lia.
      - intros ix' iy' Hx' Hy'.
        destruct (decide (ix' = i)) as [->|]; [apply HQ2; lia|apply HQ1; lia]. }
    destruct HP as [_ HP]. apply HP; lia.
  - intros off Hoff. unfold DUMMYDUMDUM.
    apply (loopZ_inv (fun st : buf * Z => st.1 off = u off)); [done|].
    intros ix st Hx Hst.
    apply (loopZ_inv (fun st : buf * Z => st.1 off = u off)); [done|].
    intros iy [q n] Hy Hq. simpl in *. rewrite poke_ne; [done|].
    pose proof (grid_offset_range nx ny ix iy). lia.
Qed.

(** ** [prtdat] *)

Lemma lookup_bind_const {A B} (f : A -> list B) (n : nat) (l : list A) (i j : nat) x :
  (forall y, length (f y) = n) -> l !! i = Some x -> (j < n)%nat ->
  (l ≫= f) !! (i * n + j)%nat = f x !! j.
Proof.
  intros Hlen. revert i. induction l as [|y l IH]; intros i Hi Hj; [done|].
  rewrite bind_cons. destruct i as [|i]; simpl in Hi.
  - injection Hi as ->. simpl. apply lookup_app_l. by rewrite Hlen.
  - rewrite lookup_app_r by (rewrite Hlen; lia).
    rewrite Hlen. replace (S i * n + j - n)%nat with (i * n + j)%nat by lia.
    by apply IH.
Qed.

Lemma length_bind_const {A B} (f : A -> list B) (n : nat) (l : list A) :
  (forall y, length (f y) = n) -> length (l ≫= f) = (length l * n)%nat.
Proof.
  intros Hlen. induction l as [|y l IH]; [done|].
  rewrite bind_cons, length_app, Hlen, IH. simpl. lia.
Qed.

Lemma lookup_down_to_0 hi (l : nat) :
  Z.of_nat l <= hi -> down_to_0 hi !! l = Some (hi - Z.of_nat l).
Proof.
  intros Hl. unfold down_to_0. rewrite list_lookup_fmap, lookup_seqZ_lt by lia. done.
Qed.

Lemma length_prtdat_line nx ny (u1 : buf) iy :
  length (seqZ 0 (nx - 1 - 0 + 1) ≫= prtdat_cell nx ny u1 iy) = (Z.to_nat nx * 2)%nat.
Proof.
  rewrite (length_bind_const _ 2) by done. rewrite length_seqZ. f_equal. lia.
Qed.

(** X6. [prtdat] opens the file for writing, prints the grid one line per
    column index iy, from iy = ny-1 down to 0, each line holding the nx
    values u1(0,iy) .. u1(nx-1,iy) in format %6.1f, separated by one blank
    and ended by a newline, and closes the file: 2*nx*ny [fprintf] calls
    in all, none when nx or ny is 0. *)
Theorem prtdat_layout (nx ny : Z) (u1 : buf) (fnam : string) :
  0 <= nx -> 0 <= ny ->
  length (prtdat nx ny u1 fnam) = Z.to_nat (2 * nx * ny + 2) /\
  prtdat nx ny u1 fnam !! 0%nat = Some (Fopen fnam "w") /\
  prtdat nx ny u1 fnam !! Z.to_nat (2 * nx * ny + 1) = Some Fclose /\
  forall line pos : nat, Z.of_nat line < ny -> Z.of_nat pos < nx ->
    let iy := ny - 1 - Z.of_nat line in
    let ix := Z.of_nat pos in
    prtdat nx ny u1 fnam !! (1 + (line * (Z.to_nat nx * 2) + (pos * 2 + 0)))%nat
      = Some (Fprintf_float "%6.1f" (u1 (ix * ny + iy))) /\
    prtdat nx ny u1 fnam !! (1 + (line * (Z.to_nat nx * 2) + (pos * 2 + 1)))%nat
      = Some (Fprintf_text (if ix =? nx - 1 then "\n" else " ")).
Proof.
  intros Hnx Hny. unfold prtdat.
  set (body := down_to_0 (ny - 1) ≫= _).
  assert (Hlen : length body = (Z.to_nat ny * (Z.to_nat nx * 2))%nat).
  { unfold body. rewrite (length_bind_const _ (Z.to_nat nx * 2)).
    - unfold down_to_0. rewrite length_fmap, length_seqZ. f_equal. lia.
    - intros iy. apply length_prtdat_line. }
  split; [|split; [done|split]].
  - cbn [app length]. rewrite length_app, Hlen. simpl. nia.
  - change ([Fopen fnam "w"] ++ body ++ [Fclose]) with (Fopen fnam "w" :: (body ++ [Fclose])).
    replace (Z.to_nat (2 * nx * ny + 1)) with (S (length body)) by (rewrite Hlen; nia).
    simpl. rewrite lookup_app_r by lia. by rewrite Nat.sub_diag.
  - intros line pos Hline Hpos.
    set (iy := ny - 1 - Z.of_nat line). set (ix := Z.of_nat pos).
    assert (Hcell : forall k : nat, (k < 2)%nat ->
      ([Fopen fnam "w"] ++ body ++ [Fclose]) !!
        (1 + (line * (Z.to_nat nx * 2) + (pos * 2 + k)))%nat
      = prtdat_cell nx ny u1 iy ix !! k).
    { intros k Hk. simpl.
      assert (line * (Z.to_nat nx * 2) + (pos * 2 + k) < length body)%nat by (rewrite Hlen; nia).
      rewrite lookup_app_l by done. unfold body.
      rewrite (lookup_bind_const _ (Z.to_nat nx * 2) _ line _ iy).
      - apply (lookup_bind_const _ 2 _ pos k ix); [done| |done].
        rewrite lookup_seqZ_lt by lia. done.
      - intros y. apply length_prtdat_line.
      - rewrite lookup_down_to_0 by lia. done.
      - nia. }
    split; [by rewrite (Hcell 0%nat) by lia|].
    rewrite (Hcell 1%nat) by lia. simpl. by destruct (ix =? nx - 1).
Qed.

(** ** [malloc2darr] and [free2darr] *)

Lemma malloc2darr_rows sf sp (array : float2d) junk n m p t i :
  0 <= i < n ->
  row (malloc2darr sf sp array junk n m (Some p) (Some t)).1.2 i = Some (p + i * m * sf).
Proof.
  intros Hi. simpl.
  pose (P := fun (k : Z) (rw : Z -> option Z) =>
    forall i', 0 <= i' < k -> rw i' = Some (p + i' * m * sf)).
  match goal with |- loopZ 0 (n - 1) ?body ?s0 _ = _ =>
    assert (HP : P (n - 1 + 1) (loopZ 0 (n - 1) body s0)) end.
  { apply loopZ_ind; [lia|intros ? ?; lia|].
    intros k rw Hk HPk i' Hi'. destruct (Z.eqb_spec i' k) as [->|]; [done|].
    apply HPk. lia. }
  apply HP. lia.
Qed.

(** X7. [malloc2darr] returns 0 exactly when both of its mallocs succeed;
    then [*array] is the row table and [array[i][j]], for 0 <= i < n, is
    the float number i*m+j of the one block of n*m floats: the rows lie
    back to back.  When a malloc fails it returns -1 and leaves no block
    allocated: the float block is freed when the row table cannot be
    had. *)
Theorem malloc2darr_outcomes (sizeof_float sizeof_ptr : Z) (array : float2d)
    (junk : Z -> option Z) (n m : Z) (p t : option Z) :
  let '(rc, array', calls) := malloc2darr sizeof_float sizeof_ptr array junk n m p t in
  (rc = 0 <-> is_Some p /\ is_Some t) /\
  (rc = 0 \/ rc = -1) /\
  (rc = -1 -> allocated calls = [] /\ (p = None -> array' = array) /\
              (is_Some p -> table array' = None)) /\
  (forall p_ t_, p = Some p_ -> t = Some t_ ->
     table array' = Some t_ /\ allocated calls = [t_; p_] /\
     forall i j, 0 <= i < n ->
       elem_addr sizeof_float array' i j = Some (p_ + (i * m + j) * sizeof_float)).
Proof.
  destruct p as [p_|], t as [t_|];
    destruct (malloc2darr _ _ _ _ _ _ _ _) as [[rc array'] calls] eqn:E.
  - split; [|split; [|split]].
    + injection E as <- _ _. split; [eauto|done].
    + injection E as <- _ _. by left.
    + injection E as <- _ _. done.
    + intros ? ? [= <-] [= <-].
      injection E as _ <- <-. split; [done|]. split; [done|].
      intros i j Hi. unfold elem_addr.
      pose proof (malloc2darr_rows sizeof_float sizeof_ptr array junk n m p_ t_ i Hi) as Hrow.
      simpl in Hrow. cbn [row]. rewrite Hrow. simpl. f_equal. ring.
  - injection E as <- <- <-. split; [|split; [|split]].
    + split; [done|]. by intros [_ [? [=]]].
    + by right.
    + intros _. split; [|split; [done|done]].
      unfold allocated. simpl. by rewrite Z.eqb_refl.
    + intros ? ? _ [=].
  - injection E as <- <- <-. split; [|split; [|split]].
    + split; [done|]. by intros [[? [=]] _].
    + by right.
    + intros _. split; [done|]. split; [done|]. by intros [? [=]].
    + intros ? ? [=].
  - injection E as <- <- <-. split; [|split; [|split]].
    + split; [done|]. by intros [[? [=]] _].
    + by right.
    + intros _. split; [done|]. split; [done|]. by intros [? [=]].
    + intros ? ? [=].
Qed.

(** X8. [free2darr] undoes [malloc2darr]: for n >= 1 it frees the float
    block, which it finds through the first row pointer, and then the row
    table, so that nothing stays allocated. *)
Theorem malloc2darr_free2darr (sizeof_float sizeof_ptr : Z) (array : float2d)
    (junk : Z -> option Z) (n m p_ t_ : Z) :
  1 <= n ->
  let '(rc, array', calls) :=
    malloc2darr sizeof_float sizeof_ptr array junk n m (Some p_) (Some t_) in
  let '(rc', calls') := free2darr array' in
  rc = 0 /\ rc' = 0 /\
  calls' = [Free (Some p_); Free (Some t_)] /\
  allocated (calls ++ calls') = [].
Proof.
  intros Hn.
  pose proof (malloc2darr_rows sizeof_float sizeof_ptr array junk n m p_ t_ 0 ltac:(lia)) as Hrow.
  destruct (malloc2darr _ _ _ _ _ _ _ _) as [[rc array'] calls] eqn:E.
  injection E as <- <- <-. simpl in Hrow.
  unfold free2darr. cbn [row table]. rewrite Hrow.
  replace (p_ + 0 * m * sizeof_float) with p_ by lia.
  split; [done|]. split; [done|]. split; [done|].
  unfold allocated. simpl.
  destruct (Z.eqb_spec t_ p_) as [->|Hne]; simpl; by rewrite ?Z.eqb_refl.
Qed.

(** ** Halo exchange: what every receive delivers *)

Lemma column_at_cells rows columns ix iy :
  column_at rows columns ix iy = (fun i => at_ columns (ix + i) iy) <$> seqZ 0 rows.
Proof.
  unfold column_at, at_offset, vector. rewrite <- list_fmap_compose.
  apply list_fmap_ext. intros _ i _. unfold at_. simpl. lia.
Qed.

Lemma row_at_cells columns ix iy :
  row_at columns ix iy = (fun j => at_ columns ix (iy + j)) <$> seqZ 0 columns.
Proof.
  unfold row_at, at_offset, contiguous.
  apply list_fmap_ext. intros _ j _. unfold at_. lia.
Qed.

Lemma transfer_column rows columns (src dst : buf) ix iy ix' iy' i :
  0 <= columns -> 0 <= i < rows ->
  transfer src (column_at rows columns ix iy) dst (column_at rows columns ix' iy')
           (at_ columns (ix' + i) iy') = src (at_ columns (ix + i) iy).
Proof.
  intros Hc Hi. rewrite !column_at_cells.
  apply (transfer_hit src dst (fun i => at_ columns (ix + i) iy)
           (fun i => at_ columns (ix' + i) iy') (seqZ 0 rows) i).
  - apply elem_of_seqZ. lia.
  - intros i' _ Heq. unfold at_ in Heq. nia.
Qed.

Lemma transfer_row columns (src dst : buf) ix iy ix' iy' j :
  0 <= j < columns ->
  transfer src (row_at columns ix iy) dst (row_at columns ix' iy')
           (at_ columns ix' (iy' + j)) = src (at_ columns ix (iy + j)).
Proof.
  intros Hj. rewrite !row_at_cells.
  apply (transfer_hit src dst (fun j => at_ columns ix (iy + j))
           (fun j => at_ columns ix' (iy' + j)) (seqZ 0 columns) j).
  - apply elem_of_seqZ. lia.
  - intros j' _ Heq. unfold at_ in Heq. lia.
Qed.

Lemma skip_transfer (cond : bool) (src b : buf) sd dd off :
  off ∉ dd -> (if cond then b else transfer src sd b dd) off = b off.
Proof. intros Hoff. destruct cond; [done|]. by apply transfer_frame. Qed.

Lemma not_in_column rows columns ix iy ix0 iy0 :
  0 <= iy <= columns + 1 -> 0 <= iy0 <= columns + 1 ->
  iy <> iy0 \/ ~ ix0 <= ix < ix0 + rows ->
  at_ columns ix iy ∉ column_at rows columns ix0 iy0.
Proof.
  intros Hy Hy0 Hne. rewrite elem_of_column_at. intros (i & Hi & Heq).
  unfold at_ in Heq. apply flat_inj in Heq; lia.
Qed.

Lemma not_in_row columns ix iy ix0 iy0 :
  0 <= iy <= columns + 1 -> 1 <= iy0 -> iy0 + columns <= columns + 2 ->
  ix <> ix0 \/ ~ iy0 <= iy < iy0 + columns ->
  at_ columns ix iy ∉ row_at columns ix0 iy0.
Proof.
  intros Hy Hy0 Hy0' Hne. rewrite elem_of_row_at. intros (j & Hj & Heq).
  unfold at_ in Heq. apply flat_inj in Heq; lia.
Qed.

Section Delivery.
Variables W xdim ydim rows columns : Z.
Hypothesis Hnull : MPI_PROC_NULL < 0.
Hypothesis Hxdim : 1 <= xdim.
Hypothesis Hydim : 1 <= ydim.
Hypothesis Hranks : xdim * ydim = W.
Hypothesis Hshape : W = 1 \/ (2 <= xdim /\ 2 <= ydim).
Hypothesis Hrows : 1 <= rows.
Hypothesis Hcolumns : 1 <= columns.

(** The buffer a rank holds when its four receives have completed. *)
Lemma exchange_rank_eq (w : world) iz r c :
  0 <= r < xdim -> 0 <= c < ydim ->
  exchange_rank W xdim ydim rows columns w iz (r * ydim + c) =
  Some (let k := r * ydim + c in
        let b1 := if c =? 0 then w k iz
                  else transfer (w (k - 1) iz) (column_at rows columns 1 columns)
                                (w k iz) (column_at rows columns 1 0) in
        let b2 := if c =? ydim - 1 then b1
                  else transfer (w (k + 1) iz) (column_at rows columns 1 1)
                                b1 (column_at rows columns 1 (columns + 1)) in
        let b3 := if r =? xdim - 1 then b2
                  else transfer (w (k + ydim) iz) (row_at columns 1 1)
                                b2 (row_at columns (rows + 1) 1) in
        if r =? 0 then b3
        else transfer (w (k - ydim) iz) (row_at columns rows 1) b3 (row_at columns 0 1)).
Proof.
  intros Hr Hc. unfold exchange_rank, recvs_of.
  assert (0 <= r * ydim) by nia.
  assert (0 < r -> ydim <= r * ydim) by nia.
  rewrite (nb_rc W xdim ydim Hxdim Hydim Hranks Hshape r c Hr Hc).
  cbn [left right up down]. cbv zeta.
  destruct (Z.eqb_spec c 0), (Z.eqb_spec c (ydim - 1)),
           (Z.eqb_spec r 0), (Z.eqb_spec r (xdim - 1));
    do 4 receive_one; rewrite receive_nil; reflexivity.
Qed.

Lemma exchange_at iz (w w' : world) r c :
  exchange W xdim ydim rows columns iz w = Some w' ->
  0 <= r < xdim -> 0 <= c < ydim ->
  exchange_rank W xdim ydim rows columns w iz (r * ydim + c) = Some (w' (r * ydim + c) iz).
Proof.
  intros Hex Hr Hc. unfold exchange in Hex.
  destruct (forallb _ _); [|done]. injection Hex as <-.
  assert (is_rank W (r * ydim + c) = true) as ->.
  { unfold is_rank. apply andb_true_iff. split; [apply Z.leb_le|apply Z.ltb_lt]; nia. }
  rewrite Z.eqb_refl. simpl.
  by rewrite (exchange_rank_eq w iz r c Hr Hc).
Qed.

Lemma halo_up iz (w w' : world) r c iy :
  exchange W xdim ydim rows columns iz w = Some w' ->
  0 < r < xdim -> 0 <= c < ydim -> 1 <= iy <= columns ->
  w' (r * ydim + c) iz (at_ columns 0 iy) = w (r * ydim + c - ydim) iz (at_ columns rows iy).
Proof.
  intros Hex Hr Hc Hy.
  pose proof (exchange_at iz w w' r c Hex ltac:(lia) Hc) as Hat.
  rewrite exchange_rank_eq in Hat by lia. injection Hat as <-. cbv zeta.
  destruct (Z.eqb_spec r 0); [lia|].
  replace iy with (1 + (iy - 1)) by lia. apply transfer_row. lia.
Qed.

Lemma halo_down iz (w w' : world) r c iy :
  exchange W xdim ydim rows columns iz w = Some w' ->
  0 <= r < xdim - 1 -> 0 <= c < ydim -> 1 <= iy <= columns ->
  w' (r * ydim + c) iz (at_ columns (rows + 1) iy) = w (r * ydim + c + ydim) iz (at_ columns 1 iy).
Proof.
  intros Hex Hr Hc Hy.
  pose proof (exchange_at iz w w' r c Hex ltac:(lia) Hc) as Hat.
  rewrite exchange_rank_eq in Hat by lia. injection Hat as <-. cbv zeta.
  rewrite skip_transfer by (apply not_in_row; lia).
  destruct (Z.eqb_spec r (xdim - 1)); [lia|].
  replace iy with (1 + (iy - 1)) by lia. apply transfer_row. lia.
Qed.

Lemma halo_right iz (w w' : world) r c ix :
  exchange W xdim ydim rows columns iz w = Some w' ->
  0 <= r < xdim -> 0 <= c < ydim - 1 -> 1 <= ix <= rows ->
  w' (r * ydim + c) iz (at_ columns ix (columns + 1)) = w (r * ydim + c + 1) iz (at_ columns ix 1).
Proof.
  intros Hex Hr Hc Hx.
  pose proof (exchange_at iz w w' r c Hex Hr ltac:(lia)) as Hat.
  rewrite exchange_rank_eq in Hat by lia. injection Hat as <-. cbv zeta.
  rewrite skip_transfer by (apply not_in_row; lia).
  rewrite skip_transfer by (apply not_in_row; lia).
  destruct (Z.eqb_spec c (ydim - 1)); [lia|].
  replace ix with (1 + (ix - 1)) by lia. apply transfer_column; lia.
Qed.

Lemma halo_left iz (w w' : world) r c ix :
  exchange W xdim ydim rows columns iz w = Some w' ->
  0 <= r < xdim -> 0 < c < ydim -> 1 <= ix <= rows ->
  w' (r * ydim + c) iz (at_ columns ix 0) = w (r * ydim + c - 1) iz (at_ columns ix columns).
Proof.
  intros Hex Hr Hc Hx.
  pose proof (exchange_at iz w w' r c Hex Hr ltac:(lia)) as Hat.
  rewrite exchange_rank_eq in Hat by lia. injection Hat as <-. cbv zeta.
  rewrite skip_transfer by (apply not_in_row; lia).
  rewrite skip_transfer by (apply not_in_row; lia).
  rewrite skip_transfer by (apply not_in_column; lia).
  destruct (Z.eqb_spec c 0); [lia|].
  replace ix with (1 + (ix - 1)) by lia. apply transfer_column; lia.
Qed.

(** A halo cell on a side with no neighbour, and the four corners, are
    left as they were. *)
Lemma halo_kept iz (w w' : world) r c ix iy :
  exchange W xdim ydim rows columns iz w = Some w' ->
  0 <= r < xdim -> 0 <= c < ydim ->
  0 <= ix <= rows + 1 -> 0 <= iy <= columns + 1 ->
  (ix = 0 /\ (r = 0 \/ iy = 0 \/ iy = columns + 1)) \/
  (ix = rows + 1 /\ (r = xdim - 1 \/ iy = 0 \/ iy = columns + 1)) \/
  (iy = 0 /\ c = 0) \/ (iy = columns + 1 /\ c = ydim - 1) ->
  w' (r * ydim + c) iz (at_ columns ix iy) = w (r * ydim + c) iz (at_ columns ix iy).
Proof.
  intros Hex Hr Hc Hx Hy Hside.
  pose proof (exchange_at iz w w' r c Hex Hr Hc) as Hat.
  rewrite exchange_rank_eq in Hat by lia. injection Hat as <-. cbv zeta.
  assert (forall (b2 : buf),
    (if r =? 0 then
       if r =? xdim - 1 then b2
       else transfer (w (r * ydim + c + ydim) iz) (row_at columns 1 1) b2
                     (row_at columns (rows + 1) 1)
     else transfer (w (r * ydim + c - ydim) iz) (row_at columns rows 1)
            (if r =? xdim - 1 then b2
             else transfer (w (r * ydim + c + ydim) iz) (row_at columns 1 1) b2
                           (row_at columns (rows + 1) 1))
            (row_at columns 0 1)) (at_ columns ix iy) = b2 (at_ columns ix iy)) as Hrows_skip.
  { intros b2.
    destruct (Z.eqb_spec r 0), (Z.eqb_spec r (xdim - 1));
      rewrite ?transfer_frame; try done; apply not_in_row; lia. }
  rewrite Hrows_skip.
  destruct (Z.eqb_spec c 0), (Z.eqb_spec c (ydim - 1));
    rewrite ?transfer_frame; try done; apply not_in_column; lia.
Qed.

End Delivery.

(** ** The two passes together *)

Lemma update_block_sweep rows columns nb (u1 u2 : buf) :
  exec (updateInternal 2 (rows - 1) columns ;;;
        updateExternal 1 rows columns (right nb) (left nb) (up nb) (down nb)) u1 u2 =
  sweep (columns + 2) (internal_cells 2 (rows - 1) columns ++ external_cells rows columns nb)
        (Mach u1 u2 []).
Proof.
  apply exec_sweeps, sweeps_seq; [apply updateInternal_sweeps|apply updateExternal_sweeps].
Qed.

(** Every cell of the block that is not in a row or column at a domain
    edge receives the stencil value of the current buffer. *)
Lemma update_block_live rows columns nb (u1 u2 : buf) ix iy :
  2 <= rows -> 2 <= columns ->
  row_lo nb <= row_hi rows nb -> col_lo nb <= col_hi columns nb ->
  1 <= ix <= rows -> 1 <= iy <= columns ->
  ~ at_domain_edge rows columns nb ix iy ->
  update_block rows columns nb u1 u2 (at_ columns ix iy) = cell_val (columns + 2) u1 (ix, iy).
Proof.
  intros Hr Hc Hlr Hlc Hx Hy Hlive. unfold update_block. rewrite update_block_sweep.
  apply (sweep_written (columns + 2) _ (Mach u1 u2 []) (ix, iy)).
  - apply elem_of_app.
    destruct (decide (2 <= ix <= rows - 1 /\ 2 <= iy <= columns - 1)) as [Hin|Hout].
    + left. by apply elem_of_internal_cells.
    + right. apply not_at_domain_edge in Hlive as [? ?]; [|done..].
      apply external_cells_cover; [done..| |done|done].
      split; [done|]. split; [done|]. lia.
  - intros [ix' iy'] Hin Heq. simpl in Heq.
    assert (1 <= ix' <= rows /\ 1 <= iy' <= columns) as [? ?].
    { apply elem_of_app in Hin as [Hin%elem_of_internal_cells|Hin]; [lia|].
      by apply (external_cells_range rows columns nb). }
    apply flat_inj in Heq as [-> ->]; [done|lia..].
Qed.

(** X9. Memory the two passes read.  On a block of at least two rows and
    two columns (other than a two-row block with neither an upper nor a
    lower neighbour and a two-column block with neither a left nor a right
    one) every cell [updateInternal] and [updateExternal] dereference in
    [u1] lies inside the (rows+2) x (columns+2) allocation, is none of its
    four corners, and lies in the halo ring only on a side where the block
    has a neighbour: the halo of a domain edge is never read. *)
Theorem passes_read_received_cells (rows columns : Z) (nb : nbrs) (u1 u2 : buf) (off : Z) :
  2 <= rows -> 2 <= columns ->
  ~ (rows = 2 /\ is_null (up nb) = true /\ is_null (down nb) = true) ->
  ~ (columns = 2 /\ is_null (left nb) = true /\ is_null (right nb) = true) ->
  Rd off ∈ trace (exec (updateInternal 2 (rows - 1) columns ;;;
                        updateExternal 1 rows columns (right nb) (left nb) (up nb) (down nb))
                       u1 u2) ->
  exists ix iy,
    off = at_ columns ix iy /\ 0 <= ix <= rows + 1 /\ 0 <= iy <= columns + 1 /\
    (ix = 0 -> is_null (up nb) = false /\ 1 <= iy <= columns) /\
    (ix = rows + 1 -> is_null (down nb) = false /\ 1 <= iy <= columns) /\
    (iy = 0 -> is_null (left nb) = false /\ 1 <= ix <= rows) /\
    (iy = columns + 1 -> is_null (right nb) = false /\ 1 <= ix <= rows).
Proof.
  intros Hr Hc Hlr%live_rows Hlc%live_columns; [|done..].
  rewrite update_block_sweep, sweep_trace. simpl. rewrite elem_of_nil.
  intros [[]|([cx cy] & Hin & Hrd%cell_trace_Rd%cell_reads_spec)].
  assert (row_lo nb <= cx <= row_hi rows nb /\ col_lo nb <= cy <= col_hi columns nb)
    as [Hcx Hcy].
  { apply elem_of_app in Hin as [Hin%elem_of_internal_cells|Hin].
    - pose proof (row_lo_cases nb). pose proof (col_lo_cases nb).
      pose proof (row_hi_cases rows nb). pose proof (col_hi_cases columns nb). lia.
    - by apply (external_cells_live rows columns nb). }
  unfold row_lo, row_hi, col_lo, col_hi in Hcx, Hcy. unfold at_.
  destruct Hrd as [-> | [-> | [-> | [-> | ->]]]];
    [exists cx, cy | exists (cx + 1), cy | exists (cx - 1), cy
    | exists cx, (cy + 1) | exists cx, (cy - 1)];
    destruct (is_null (up nb)), (is_null (down nb)),
             (is_null (left nb)), (is_null (right nb));
    (split; [done|]); repeat split; lia.
Qed.

(** *** The order of the iterations *)

Lemma sweep_perm_nxt ny (cs cs' : list (Z * Z)) s off :
  (forall c c', c ∈ cs -> c' ∈ cs -> c'.1*ny+c'.2 = c.1*ny+c.2 -> c' = c) ->
  cs ≡ₚ cs' ->
  nxt (sweep ny cs' s) off = nxt (sweep ny cs s) off.
Proof.
  intros Hinj Hperm.
  destruct (decide (off ∈ (fun c : Z * Z => c.1*ny+c.2) <$> cs)) as [Hin|Hout].
  - apply list_elem_of_fmap in Hin as (c & -> & Hc).
    rewrite !sweep_written; [done|done|by auto|by rewrite <- Hperm|].
    intros c' Hc'. rewrite <- Hperm in Hc'. by auto.
  - rewrite !sweep_frame; [done| |].
    + intros c Hc ->. apply Hout. apply list_elem_of_fmap. by exists c.
    + intros c Hc ->. apply Hout. apply list_elem_of_fmap. exists c.
      split; [done|]. by rewrite Hperm.
Qed.

Lemma sweeps_cells ny (cs : list (Z * Z)) :
  sweeps (for_each cs (fun c => stencil_stmt ny c.1 c.2)) ny cs.
Proof.
  replace cs with (cs ≫= fun c => [c]) at 2.
  - apply sweeps_for_each. intros [ix iy]. apply sweeps_stmt.
  - induction cs as [|c cs IH]; [done|]. rewrite bind_cons, IH. done.
Qed.

(** X10. The iterations of each pass may run in any order.  Executing
    the stencil statement once for every cell of the iteration space of
    [updateInternal(2, rows-1, columns, ..)], or of
    [updateExternal(1, rows, columns, ..)], in whatever order leaves the
    same next buffer as the loops of the source: no iteration reads what
    another one writes, and two that write the same cell write the same
    value.  This is what lets the [omp for] directives share the
    iterations among any number of threads. *)
Theorem passes_order_independent (rows columns : Z) (nb : nbrs) (u1 u2 : buf) :
  1 <= columns ->
  (forall cs, cs ≡ₚ internal_cells 2 (rows - 1) columns ->
     forall off,
       nxt (exec (for_each cs (fun c => stencil_stmt (columns + 2) c.1 c.2)) u1 u2) off =
       nxt (exec (updateInternal 2 (rows - 1) columns) u1 u2) off) /\
  (forall cs, cs ≡ₚ external_cells rows columns nb ->
     forall off,
       nxt (exec (for_each cs (fun c => stencil_stmt (columns + 2) c.1 c.2)) u1 u2) off =
       nxt (exec (updateExternal 1 rows columns (right nb) (left nb) (up nb) (down nb))
                 u1 u2) off).
Proof.
  intros Hc. split; intros cs Hperm off.
  - rewrite (exec_sweeps _ _ _ u1 u2 (sweeps_cells (columns + 2) cs)).
    rewrite (exec_sweeps _ _ _ u1 u2 (updateInternal_sweeps 2 (rows - 1) columns)).
    apply sweep_perm_nxt; [|done].
    intros c c' Hin Hin'. by apply (internal_cells_inj rows).
  - rewrite (exec_sweeps _ _ _ u1 u2 (sweeps_cells (columns + 2) cs)).
    rewrite (exec_sweeps _ _ _ u1 u2 (updateExternal_sweeps rows columns nb)).
    apply sweep_perm_nxt; [|done].
    intros [ix iy] [ix' iy'] Hin%elem_of_external_cells Hin'%elem_of_external_cells Heq.
    simpl in Heq.
    pose proof (col_lo_cases nb). pose proof (col_hi_cases columns nb).
    apply flat_inj in Heq as [-> ->]; [done|lia..].
Qed.

(** ** All ranks together: one time step on the whole grid *)

Lemma inner_true NX NY i j :
  inner NX NY i j = true <-> 1 <= i <= NX - 2 /\ 1 <= j <= NY - 2.
Proof. unfold inner. rewrite !andb_true_iff, !Z.leb_le. lia. Qed.

Lemma inner_false NX NY i j :
  inner NX NY i j = false <-> ~ (1 <= i <= NX - 2 /\ 1 <= j <= NY - 2).
Proof. rewrite <- inner_true. by destruct (inner NX NY i j). Qed.

Lemma buffer_of_step n : 0 <= n -> Z.rem (n + 1) 2 * -1 + 1 = n mod 2.
Proof.
  intros Hn. rewrite Z.rem_mod_nonneg by lia.
  pose proof (Z.div_mod n 2 ltac:(lia)). pose proof (Z.mod_pos_bound n 2 ltac:(lia)).
  pose proof (Z.div_mod (n + 1) 2 ltac:(lia)).
  pose proof (Z.mod_pos_bound (n + 1) 2 ltac:(lia)). lia.
Qed.

Lemma other_buffer n : 0 <= n -> 1 - n mod 2 = (n + 1) mod 2.
Proof.
  intros Hn.
  pose proof (Z.div_mod n 2 ltac:(lia)). pose proof (Z.mod_pos_bound n 2 ltac:(lia)).
  pose proof (Z.div_mod (n + 1) 2 ltac:(lia)).
  pose proof (Z.mod_pos_bound (n + 1) 2 ltac:(lia)). lia.
Qed.

Lemma two_buffer_steps_S NX NY (u : grid) (n : nat) :
  two_buffer_steps NX NY u (S n) =
  step_keeping NX NY (if Z.odd (Z.of_nat n + 1) then (fun _ _ => to_flt lit_0_0) else u)
               (two_buffer_steps NX NY u n).
Proof.
  change (two_buffer_steps NX NY u (S n))
    with (step_keeping NX NY
            (if Z.odd (Z.of_nat (S n)) then (fun _ _ => to_flt lit_0_0) else u)
            (two_buffer_steps NX NY u n)).
  by rewrite Nat2Z.inj_succ, <- Z.add_1_r.
Qed.

Lemma edge_arith n len k a N :
  1 <= n -> 2 <= len -> n * len = N -> 0 <= k < n -> 0 <= a < len ->
  (k = 0 /\ 1 + a = 1) \/ (k = n - 1 /\ 1 + a = len) <-> ~ 1 <= k * len + a <= N - 2.
Proof.
  intros Hn Hlen HN Hk Ha.
  assert (k = 0 \/ len <= k * len) by nia.
  assert (k = n - 1 \/ k * len + len <= N - len) by nia.
  lia.
Qed.

Section Parallel.
Variables NX NY W xdim ydim rows columns : Z.
Hypothesis Hnull : MPI_PROC_NULL < 0.
Hypothesis Hxdim : 1 <= xdim.
Hypothesis Hydim : 1 <= ydim.
Hypothesis Hranks : xdim * ydim = W.
Hypothesis Hshape : W = 1 \/ (2 <= xdim /\ 2 <= ydim).
Hypothesis Hrows : 2 <= rows.
Hypothesis Hcolumns : 2 <= columns.
Hypothesis Hthick_rows : 3 <= rows \/ 2 <= xdim.
Hypothesis Hthick_columns : 3 <= columns \/ 2 <= ydim.
Hypothesis HexactX : xdim * rows = NX.
Hypothesis HexactY : ydim * columns = NY.

(** A cell of a block lies in a row or column at a domain edge exactly
    when it is a boundary cell of the grid. *)
Lemma edge_iff_not_inner r c a b :
  0 <= r < xdim -> 0 <= c < ydim -> 0 <= a < rows -> 0 <= b < columns ->
  at_domain_edge rows columns (nb_of W xdim ydim (r * ydim + c)) (1 + a) (1 + b) <->
  inner NX NY (r * rows + a) (c * columns + b) = false.
Proof.
  intros Hr Hc Ha Hb. rewrite inner_false.
  rewrite (nb_rc W xdim ydim Hxdim Hydim Hranks Hshape r c Hr Hc).
  unfold at_domain_edge. cbn [left right up down].
  assert (0 <= r * ydim) by nia.
  assert (0 < r -> ydim <= r * ydim) by nia.
  assert (r = 0 \/ rows <= r * rows) by nia.
  assert (r = xdim - 1 \/ r * rows + rows <= NX - rows) by nia.
  assert (c = 0 \/ columns <= c * columns) by nia.
  assert (c = ydim - 1 \/ c * columns + columns <= NY - columns) by nia.
  assert (Hu : is_null (if r =? 0 then MPI_PROC_NULL else r * ydim + c - ydim) = true
               <-> r = 0).
  { destruct (Z.eqb_spec r 0); [by rewrite is_null_NULL|].
    rewrite is_null_rank by lia. split; [discriminate|lia]. }
  assert (Hd : is_null (if r =? xdim - 1 then MPI_PROC_NULL else r * ydim + c + ydim) = true
               <-> r = xdim - 1).
  { destruct (Z.eqb_spec r (xdim - 1)); [by rewrite is_null_NULL|].
    rewrite is_null_rank by lia. split; [discriminate|lia]. }
  assert (Hl : is_null (if c =? 0 then MPI_PROC_NULL else r * ydim + c - 1) = true
               <-> c = 0).
  { destruct (Z.eqb_spec c 0); [by rewrite is_null_NULL|].
    rewrite is_null_rank by lia. split; [discriminate|lia]. }
  assert (Hrt : is_null (if c =? ydim - 1 then MPI_PROC_NULL else r * ydim + c + 1) = true
                <-> c = ydim - 1).
  { destruct (Z.eqb_spec c (ydim - 1)); [by rewrite is_null_NULL|].
    rewrite is_null_rank by lia. split; [discriminate|lia]. }
  rewrite Hu, Hd, Hl, Hrt.
  pose proof (edge_arith xdim rows r a NX Hxdim Hrows HexactX Hr Ha) as Er.
  pose proof (edge_arith ydim columns c b NY Hydim Hcolumns HexactY Hc Hb) as Ec.
  split.
  - intros [HX | [HY | [HZ | HT]]] [HIr HIc].
    + apply (proj1 Er); [by left|done].
    + apply (proj1 Er); [by right|done].
    + apply (proj1 Ec); [by left|done].
    + apply (proj1 Ec); [by right|done].
  - intros Hn. destruct (decide (1 <= r * rows + a <= NX - 2)) as [HIr|HIr].
    + assert (~ 1 <= c * columns + b <= NY - 2) as HIc by (intros ?; by apply Hn).
      apply Ec in HIc as [?|?]; [right; right; by left|right; right; by right].
    + apply Er in HIr as [?|?]; [by left|right; by left].
Qed.

(** After the exchange a rank's buffer holds the grid on its block and on
    the halo cells that have a counterpart on the grid, the corners
    apart. *)
Lemma holds_after_exchange (w w1 : world) z (g : grid) :
  holds_grid xdim ydim rows columns w z g ->
  exchange W xdim ydim rows columns z w = Some w1 ->
  forall r c ix iy,
    0 <= r < xdim -> 0 <= c < ydim ->
    0 <= ix <= rows + 1 -> 0 <= iy <= columns + 1 ->
    1 <= ix <= rows \/ 1 <= iy <= columns ->
    0 <= r * rows + (ix - 1) < NX -> 0 <= c * columns + (iy - 1) < NY ->
    w1 (r * ydim + c) z (at_ columns ix iy) = g (r * rows + (ix - 1)) (c * columns + (iy - 1)).
Proof.
  intros Hholds Hex r c ix iy Hr Hc Hx Hy Hnc Hi Hj.
  assert (Hrows1 : 1 <= rows) by lia. assert (Hcolumns1 : 1 <= columns) by lia.
  destruct (decide (ix = 0)) as [->|Hx0].
  { assert (0 < r) by nia.
    transitivity (w (r * ydim + c - ydim) z (at_ columns rows iy)).
    - apply (halo_up W xdim ydim rows columns); first [done|lia].
    - replace (r * ydim + c - ydim) with ((r - 1) * ydim + c) by lia.
      replace (at_ columns rows iy) with (at_ columns (1 + (rows - 1)) (1 + (iy - 1)))
        by (f_equal; lia).
      rewrite Hholds by lia. f_equal; lia. }
  destruct (decide (ix = rows + 1)) as [->|Hx1].
  { assert (r < xdim - 1) by nia.
    transitivity (w (r * ydim + c + ydim) z (at_ columns 1 iy)).
    - apply (halo_down W xdim ydim rows columns); first [done|lia].
    - replace (r * ydim + c + ydim) with ((r + 1) * ydim + c) by lia.
      replace (at_ columns 1 iy) with (at_ columns (1 + 0) (1 + (iy - 1)))
        by (f_equal; lia).
      rewrite Hholds by lia. f_equal; lia. }
  destruct (decide (iy = 0)) as [->|Hy0].
  { assert (0 < c) by nia.
    transitivity (w (r * ydim + c - 1) z (at_ columns ix columns)).
    - apply (halo_left W xdim ydim rows columns); first [done|lia].
    - replace (r * ydim + c - 1) with (r * ydim + (c - 1)) by lia.
      replace (at_ columns ix columns) with (at_ columns (1 + (ix - 1)) (1 + (columns - 1)))
        by (f_equal; lia).
      rewrite Hholds by lia. f_equal; lia. }
  destruct (decide (iy = columns + 1)) as [->|Hy1].
  { assert (c < ydim - 1) by nia.
    transitivity (w (r * ydim + c + 1) z (at_ columns ix 1)).
    - apply (halo_right W xdim ydim rows columns); first [done|lia].
    - replace (r * ydim + c + 1) with (r * ydim + (c + 1)) by lia.
      replace (at_ columns ix 1) with (at_ columns (1 + (ix - 1)) (1 + 0))
        by (f_equal; lia).
      rewrite Hholds by lia. f_equal; lia. }
  rewrite (exchange_frame W xdim ydim rows columns z w w1 _ _ _ _ ltac:(lia) Hex) by lia.
  replace (at_ columns ix iy) with (at_ columns (1 + (ix - 1)) (1 + (iy - 1)))
    by (f_equal; lia).
  by rewrite Hholds by lia.
Qed.

Lemma rank_in_range r c : 0 <= r < xdim -> 0 <= c < ydim -> 0 <= r * ydim + c < W.
Proof. intros. nia. Qed.

(** One iteration of the time loop: it completes, leaves the rows and
    columns at a domain edge alone, and gives every other cell of the
    rank's other buffer the stencil value of the grid. *)
Lemma step_cells it (w : world) (g : grid) :
  holds_grid xdim ydim rows columns w (Z.rem it 2 * -1 + 1) g ->
  exists w2,
    step W xdim ydim rows columns it w = Some w2 /\
    same_edges W xdim ydim rows columns w w2 /\
    forall r c a b,
      0 <= r < xdim -> 0 <= c < ydim -> 0 <= a < rows -> 0 <= b < columns ->
      inner NX NY (r * rows + a) (c * columns + b) = true ->
      w2 (r * ydim + c) (1 - (Z.rem it 2 * -1 + 1)) (at_ columns (1 + a) (1 + b)) =
      serial_step NX NY g (r * rows + a) (c * columns + b).
Proof.
  set (z := Z.rem it 2 * -1 + 1). intros Hholds.
  destruct (step_edges W xdim ydim rows columns Hnull Hxdim Hydim Hranks Hshape
              Hrows Hcolumns Hthick_rows Hthick_columns it w) as (w2 & Hstep & Hsame).
  exists w2. split; [done|]. split; [done|].
  unfold step in Hstep. fold z in Hstep.
  destruct (exchange W xdim ydim rows columns z w) as [w1|] eqn:Hex; [|done].
  simpl in Hstep. injection Hstep as <-.
  intros r c a b Hr Hc Ha Hb Hin.
  pose proof (rank_in_range r c Hr Hc) as Hk.
  assert (is_rank W (r * ydim + c) = true) as ->
    by (unfold is_rank; apply andb_true_iff; split; [apply Z.leb_le|apply Z.ltb_lt]; lia).
  rewrite Z.eqb_refl. simpl.
  destruct (rank_live W xdim ydim rows columns Hnull Hxdim Hydim Hranks Hshape
              Hrows Hcolumns Hthick_rows Hthick_columns (r * ydim + c) Hk) as [Hlr Hlc].
  rewrite update_block_live; [|done|done|done|done|lia|lia|].
  2: { intros Hedge%edge_iff_not_inner; [congruence|done..]. }
  apply inner_true in Hin as Hin'.
  pose proof (holds_after_exchange w w1 z g Hholds Hex r c) as Hext.
  rewrite cell_val_at.
  rewrite (Hext (1 + a) (1 + b)), (Hext (1 + a + 1) (1 + b)), (Hext (1 + a - 1) (1 + b)),
          (Hext (1 + a) (1 + b + 1)), (Hext (1 + a) (1 + b - 1)) by lia.
  unfold serial_step. rewrite Hin. unfold stencil_rhs.
  replace (r * rows + (1 + a - 1)) with (r * rows + a) by lia.
  replace (r * rows + (1 + a + 1 - 1)) with (r * rows + a + 1) by lia.
  replace (r * rows + (1 + a - 1 - 1)) with (r * rows + a - 1) by lia.
  replace (c * columns + (1 + b - 1)) with (c * columns + b) by lia.
  replace (c * columns + (1 + b + 1 - 1)) with (c * columns + b + 1) by lia.
  replace (c * columns + (1 + b - 1 - 1)) with (c * columns + b - 1) by lia.
  done.
Qed.

Lemma steps_succ (n : nat) (w : world) :
  steps W xdim ydim rows columns (Z.of_nat n + 1) w =
  steps W xdim ydim rows columns (Z.of_nat n) w ≫= step W xdim ydim rows columns (Z.of_nat n + 1).
Proof.
  unfold steps. replace (Z.of_nat n + 1) with (Z.of_nat (S n)) at 1 by lia.
  rewrite seqZ_S, foldl_app. simpl.
  by replace (1 + Z.of_nat n) with (Z.of_nat n + 1) by lia.
Qed.

(** The time loop, from a world in which [local[0]] holds the grid [u]
    and the edge rows and columns of [local[1]] hold 0.0. *)
Lemma steps_grid (u : grid) (w0 : world) :
  holds_grid xdim ydim rows columns w0 0 u ->
  (forall k ix iy, 0 <= k < W -> 1 <= ix <= rows -> 1 <= iy <= columns ->
     at_domain_edge rows columns (nb_of W xdim ydim k) ix iy ->
     w0 k 1 (at_ columns ix iy) = to_flt lit_0_0) ->
  forall n : nat,
    exists w,
      steps W xdim ydim rows columns (Z.of_nat n) w0 = Some w /\
      same_edges W xdim ydim rows columns w0 w /\
      holds_grid xdim ydim rows columns w (Z.of_nat n mod 2) (two_buffer_steps NX NY u n).
Proof.
  intros H0 Hz. induction n as [|n (w & Hsteps & Hsame & Hholds)].
  - exists w0. split; [done|]. split; [by intros ? ? ? ? ? ? ? ?|]. exact H0.
  - replace (Z.of_nat (S n)) with (Z.of_nat n + 1) by lia.
    rewrite steps_succ, Hsteps. cbn [mbind option_bind].
    destruct (step_cells (Z.of_nat n + 1) w (two_buffer_steps NX NY u n))
      as (w2 & Hstep & Hsame2 & Hcells).
    { rewrite buffer_of_step by lia. exact Hholds. }
    exists w2. split; [done|]. split.
    { intros k z ix iy Hk Hx Hy Hedge. rewrite Hsame2, Hsame by done. done. }
    rewrite buffer_of_step, other_buffer in Hcells by lia.
    intros r c a b Hr Hc Ha Hb. rewrite two_buffer_steps_S. unfold step_keeping.
    destruct (inner NX NY (r * rows + a) (c * columns + b)) eqn:Hin.
    + rewrite Hcells by done. unfold serial_step. by rewrite Hin.
    + apply edge_iff_not_inner in Hin; [|done..].
      pose proof (rank_in_range r c Hr Hc) as Hk.
      rewrite Hsame2, Hsame by (done || lia).
      rewrite Zmod_odd. destruct (Z.odd (Z.of_nat n + 1)).
      * apply Hz; done || lia.
      * by apply H0.
Qed.

Lemma run_grid_cells STEPS (u : buf) (fresh : world) :
  0 <= STEPS ->
  exists fin,
    run_grid NX NY W xdim ydim rows columns STEPS u fresh = Some fin /\
    forall i j, 0 <= i < NX -> 0 <= j < NY ->
      fin (i * NY + j) = two_buffer_steps NX NY (grid_of NY u) (Z.to_nat STEPS) i j.
Proof.
  intros HSTEPS. unfold run_grid.
  destruct (exchange_total W xdim ydim rows columns Hnull Hxdim Hydim Hranks Hshape
              0 (scatter NX NY xdim ydim rows columns u fresh)) as [w0 Hw0].
  rewrite Hw0. simpl.
  destruct (steps_grid (grid_of NY u) w0) with (n := Z.to_nat STEPS)
    as (w & Hsteps & _ & Hholds).
  { intros r c a b Hr Hc Ha Hb.
    rewrite (exchange_frame W xdim ydim rows columns 0 _ w0 _ _ _ _ ltac:(lia) Hw0) by lia.
    by rewrite (scatter_block NX NY xdim ydim rows columns) by done. }
  { intros k ix iy Hk Hx Hy _.
    rewrite (exchange_other W xdim ydim rows columns 0 _ w0 k 1 Hw0) by lia.
    apply scatter_next; lia. }
  rewrite Z2Nat.id in Hsteps, Hholds by lia. rewrite Hsteps. simpl.
  eexists. split; [done|]. intros i j Hi Hj.
  destruct (split_index rows i xdim) as (Hr & Ha & Hia); [lia..|].
  destruct (split_index columns j ydim) as (Hc & Hb & Hjb); [lia..|].
  set (r := i / rows) in *. set (a := i mod rows) in *.
  set (c := j / columns) in *. set (b := j mod columns) in *.
  rewrite Hia, Hjb.
  rewrite (gather_covered NX NY W xdim ydim rows columns) by (done || lia).
  rewrite Z.rem_mod_nonneg by lia. by apply Hholds.
Qed.

End Parallel.

Lemma serial_steps_boundary NX NY (n : nat) (g : grid) i j :
  inner NX NY i j = false -> serial_steps NX NY n g i j = g i j.
Proof.
  intros Hin. induction n as [|n IH]; [done|].
  change (serial_steps NX NY (S n) g) with (serial_step NX NY (serial_steps NX NY n g)).
  unfold serial_step. by rewrite Hin.
Qed.

(** On a field that is 0.0 on the boundary the two buffers hold the same
    boundary, and the steps are those of the grid as a whole. *)
Lemma two_buffer_steps_serial NX NY (u : grid) :
  (forall i j, 0 <= i < NX -> 0 <= j < NY -> inner NX NY i j = false ->
     u i j = to_flt lit_0_0) ->
  forall (n : nat) i j, 0 <= i < NX -> 0 <= j < NY ->
    two_buffer_steps NX NY u n i j = serial_steps NX NY n u i j.
Proof.
  intros Hzero. induction n as [|n IH]; intros i j Hi Hj; [done|].
  rewrite two_buffer_steps_S.
  change (serial_steps NX NY (S n) u) with (serial_step NX NY (serial_steps NX NY n u)).
  unfold step_keeping, serial_step. destruct (inner NX NY i j) eqn:Hin.
  - apply inner_true in Hin. rewrite !IH by lia. done.
  - rewrite serial_steps_boundary by done. rewrite (Hzero i j) by done.
    destruct (Z.odd _); [done|]. by apply Hzero.
Qed.

Lemma simulate_cells NX NY W STEPS xdim ydim (u : buf) (fresh : world) :
  MPI_PROC_NULL < 0 -> 0 <= STEPS -> cuts_evenly NX NY W xdim ydim ->
  exists fin,
    simulate NX NY STEPS W u fresh = Some fin /\
    forall i j, 0 <= i < NX -> 0 <= j < NY ->
      fin (i * NY + j) = two_buffer_steps NX NY (grid_of NY u) (Z.to_nat STEPS) i j.
Proof.
  intros Hnull HSTEPS (HW & Hp & Hgrid & HX & HY & Hrows & Hcolumns & Htr & Htc).
  destruct (block_grid_shape NX NY W xdim ydim HW Hgrid) as (Hmul & Hx & Hy & Hshape).
  specialize (Hshape Hp).
  unfold simulate. rewrite Hgrid. simpl.
  by apply (run_grid_cells NX NY W xdim ydim (NX ÷ xdim) (NY ÷ ydim)).
Qed.

(** X11. The whole run, for any initial field.  When the block grid cuts
    the grid evenly the run completes and the gathered field is what the
    time steps give on the grid as a whole, every cell that is not on the
    boundary receiving the stencil value of the step before, with the
    boundary read from the buffer the step stores into: the initial
    boundary values on even steps, 0.0 on odd steps. *)
Theorem run_is_two_buffer_steps (NX NY W STEPS xdim ydim : Z) (u : buf) (fresh : world) :
  MPI_PROC_NULL < 0 -> 0 <= STEPS -> cuts_evenly NX NY W xdim ydim ->
  exists fin,
    simulate NX NY STEPS W u fresh = Some fin /\
    forall i j, 0 <= i < NX -> 0 <= j < NY ->
      fin (i * NY + j) = two_buffer_steps NX NY (grid_of NY u) (Z.to_nat STEPS) i j.
Proof.
  intros Hnull HSTEPS (HW & Hp & Hgrid & HX & HY & Hrows & Hcolumns & Htr & Htc).
  destruct (block_grid_shape NX NY W xdim ydim HW Hgrid) as (Hmul & Hx & Hy & Hshape).
  specialize (Hshape Hp).
  destruct (run_grid_cells NX NY W xdim ydim (NX ÷ xdim) (NY ÷ ydim)
              Hnull Hx Hy Hmul Hshape Hrows Hcolumns Htr Htc HX HY STEPS u fresh HSTEPS)
    as (fin & Hrun & Hfin).
  exists fin. split; [|exact Hfin].
  unfold simulate. rewrite Hgrid. exact Hrun.
Qed.

(** X12. The whole run on a field that is 0.0 on the boundary, as the one
    [inidat] builds: the gathered field is the result of STEPS time steps
    of the stencil on the undivided grid, the boundary kept. *)
Theorem run_is_serial (NX NY W STEPS xdim ydim : Z) (u : buf) (fresh : world) :
  MPI_PROC_NULL < 0 -> 0 <= STEPS -> cuts_evenly NX NY W xdim ydim ->
  (forall i j, 0 <= i < NX -> 0 <= j < NY ->
     i = 0 \/ i = NX - 1 \/ j = 0 \/ j = NY - 1 -> u (i * NY + j) = to_flt lit_0_0) ->
  exists fin,
    simulate NX NY STEPS W u fresh = Some fin /\
    forall i j, 0 <= i < NX -> 0 <= j < NY ->
      fin (i * NY + j) = serial_steps NX NY (Z.to_nat STEPS) (grid_of NY u) i j.
Proof.
  intros Hnull HSTEPS Hcuts Hzero.
  destruct (simulate_cells NX NY W STEPS xdim ydim u fresh Hnull HSTEPS Hcuts)
    as (fin & Hrun & Hfin).
  exists fin. split; [done|]. intros i j Hi Hj. rewrite Hfin by done.
  apply two_buffer_steps_serial; [|done..].
  intros i' j' Hi' Hj' Hin%inner_false. unfold grid_of. apply Hzero; lia.
Qed.

(** X13. The number of workers does not change the result: for one
    initial field and one number of steps, any two worker counts whose
    block grids cut the grid evenly give the same gathered field,
    whatever the allocations held. *)
Theorem result_independent_of_workers (NX NY STEPS W xdim ydim W' xdim' ydim' : Z)
    (u : buf) (fresh fresh' : world) :
  MPI_PROC_NULL < 0 -> 0 <= STEPS ->
  cuts_evenly NX NY W xdim ydim -> cuts_evenly NX NY W' xdim' ydim' ->
  exists fin fin',
    simulate NX NY STEPS W u fresh = Some fin /\
    simulate NX NY STEPS W' u fresh' = Some fin' /\
    forall i j, 0 <= i < NX -> 0 <= j < NY -> fin (i * NY + j) = fin' (i * NY + j).
Proof.
  intros Hnull HSTEPS Hcuts Hcuts'.
  destruct (simulate_cells NX NY W STEPS xdim ydim u fresh Hnull HSTEPS Hcuts)
    as (fin & Hrun & Hfin).
  destruct (simulate_cells NX NY W' STEPS xdim' ydim' u fresh' Hnull HSTEPS Hcuts')
    as (fin' & Hrun' & Hfin').
  exists fin, fin'. split; [done|]. split; [done|].
  intros i j Hi Hj. by rewrite Hfin, Hfin'.
Qed.

(** ** Properties of the exchange and of the neighbour tables *)

(** X14. One halo exchange on buffer [iz].  On the block grid of a worker
    count that is not prime no wait hangs, and afterwards every rank holds
    in its halo row 0 the last row of the rank above, in halo row rows+1
    the first row of the rank below, in halo column 0 the last column of
    the rank to the left and in halo column columns+1 the first column of
    the rank to the right, all as they were before the exchange; a halo
    side at a domain edge, the four corners, the block itself and the
    other buffer are unchanged. *)
Theorem halo_exchange_delivers (NX NY W xdim ydim rows columns iz : Z) (w : world) :
  MPI_PROC_NULL < 0 -> 1 <= W -> ~ Z.prime W ->
  block_grid NX NY W = Some (xdim, ydim) ->
  1 <= rows -> 1 <= columns ->
  exists w',
    exchange W xdim ydim rows columns iz w = Some w' /\
    forall r c, 0 <= r < xdim -> 0 <= c < ydim ->
      let k := r * ydim + c in
      (forall iy, 1 <= iy <= columns ->
         w' k iz (at_ columns 0 iy) =
         if r =? 0 then w k iz (at_ columns 0 iy)
         else w (k - ydim) iz (at_ columns rows iy)) /\
      (forall iy, 1 <= iy <= columns ->
         w' k iz (at_ columns (rows + 1) iy) =
         if r =? xdim - 1 then w k iz (at_ columns (rows + 1) iy)
         else w (k + ydim) iz (at_ columns 1 iy)) /\
      (forall ix, 1 <= ix <= rows ->
         w' k iz (at_ columns ix 0) =
         if c =? 0 then w k iz (at_ columns ix 0)
         else w (k - 1) iz (at_ columns ix columns)) /\
      (forall ix, 1 <= ix <= rows ->
         w' k iz (at_ columns ix (columns + 1)) =
         if c =? ydim - 1 then w k iz (at_ columns ix (columns + 1))
         else w (k + 1) iz (at_ columns ix 1)) /\
      (forall ix iy, ix = 0 \/ ix = rows + 1 -> iy = 0 \/ iy = columns + 1 ->
         w' k iz (at_ columns ix iy) = w k iz (at_ columns ix iy)) /\
      (forall ix iy, 1 <= ix <= rows -> 1 <= iy <= columns ->
         w' k iz (at_ columns ix iy) = w k iz (at_ columns ix iy)) /\
      (forall z, z <> iz -> w' k z = w k z).
Proof.
  intros Hnull HW Hp Hgrid Hrows Hcolumns.
  destruct (block_grid_shape NX NY W xdim ydim HW Hgrid) as (Hmul & Hx & Hy & Hshape).
  specialize (Hshape Hp).
  destruct (exchange_total W xdim ydim rows columns Hnull Hx Hy Hmul Hshape iz w)
    as [w' Hex].
  exists w'. split; [done|]. intros r c Hr Hc k. subst k.
  split; [|split; [|split; [|split; [|split; [|split]]]]].
  - intros iy Hiy. destruct (Z.eqb_spec r 0) as [->|].
    + apply (halo_kept W xdim ydim rows columns); first [done|lia].
    + apply (halo_up W xdim ydim rows columns); first [done|lia].
  - intros iy Hiy. destruct (Z.eqb_spec r (xdim - 1)) as [->|].
    + apply (halo_kept W xdim ydim rows columns); first [done|lia].
    + apply (halo_down W xdim ydim rows columns); first [done|lia].
  - intros ix Hix. destruct (Z.eqb_spec c 0) as [->|].
    + apply (halo_kept W xdim ydim rows columns); first [done|lia].
    + apply (halo_left W xdim ydim rows columns); first [done|lia].
  - intros ix Hix. destruct (Z.eqb_spec c (ydim - 1)) as [->|].
    + apply (halo_kept W xdim ydim rows columns); first [done|lia].
    + apply (halo_right W xdim ydim rows columns); first [done|lia].
  - intros ix iy Hix Hiy. apply (halo_kept W xdim ydim rows columns); first [done|lia].
  - intros ix iy Hix Hiy.
    by apply (exchange_frame W xdim ydim rows columns iz w w' _ _ _ _ ltac:(lia) Hex).
  - intros z Hz. by apply (exchange_other W xdim ydim rows columns iz w w').
Qed.

(** X15. The neighbour tables agree with each other: rank j is the right
    neighbour of rank i exactly when i is the left neighbour of j, and j
    is the lower neighbour of i exactly when i is the upper neighbour of
    j.  Every send of the exchange therefore meets a receive. *)
Theorem neighbours_mutual (NX NY W xdim ydim i j : Z) :
  MPI_PROC_NULL < 0 -> 1 <= W -> ~ Z.prime W ->
  block_grid NX NY W = Some (xdim, ydim) ->
  0 <= i < W -> 0 <= j < W ->
  (right (nbrs_of W xdim ydim i) = j <-> left (nbrs_of W xdim ydim j) = i) /\
  (down (nbrs_of W xdim ydim i) = j <-> up (nbrs_of W xdim ydim j) = i).
Proof.
  intros Hnull HW Hp Hgrid Hi Hj.
  destruct (block_grid_shape NX NY W xdim ydim HW Hgrid) as (Hmul & Hx & Hy & Hshape).
  specialize (Hshape Hp).
  destruct (rank_rc W xdim ydim Hy Hmul i Hi) as (r & c & Hr & Hc & ->).
  destruct (rank_rc W xdim ydim Hy Hmul j Hj) as (r' & c' & Hr' & Hc' & ->).
  pose proof (nb_rc W xdim ydim Hx Hy Hmul Hshape r c Hr Hc) as Hnb.
  pose proof (nb_rc W xdim ydim Hx Hy Hmul Hshape r' c' Hr' Hc') as Hnb'.
  unfold nb_of in Hnb, Hnb'. rewrite Hnb, Hnb'. cbn [left right up down].
  assert (forall q q' d d', 0 <= d < ydim -> 0 <= d' < ydim ->
            q * ydim + d = q' * ydim + d' -> q = q' /\ d = d') as Hinj
    by (intros; by apply (flat_inj ydim)).
  split; split.
  - destruct (Z.eqb_spec c (ydim - 1)); [lia|]. intros Heq.
    replace (r * ydim + c + 1) with (r * ydim + (c + 1)) in Heq by lia.
    apply Hinj in Heq as [<- <-]; [|lia..].
    destruct (Z.eqb_spec (c + 1) 0); lia.
  - destruct (Z.eqb_spec c' 0); [lia|]. intros Heq.
    replace (r' * ydim + c' - 1) with (r' * ydim + (c' - 1)) in Heq by lia.
    apply Hinj in Heq as [<- <-]; [|lia..].
    destruct (Z.eqb_spec (c' - 1) (ydim - 1)); lia.
  - destruct (Z.eqb_spec r (xdim - 1)); [lia|]. intros Heq.
    replace (r * ydim + c + ydim) with ((r + 1) * ydim + c) in Heq by lia.
    apply Hinj in Heq as [<- <-]; [|lia..].
    destruct (Z.eqb_spec (r + 1) 0); lia.
  - destruct (Z.eqb_spec r' 0); [lia|]. intros Heq.
    replace (r' * ydim + c' - ydim) with ((r' - 1) * ydim + c') in Heq by lia.
    apply Hinj in Heq as [<- <-]; [|lia..].
    destruct (Z.eqb_spec (r' - 1) (xdim - 1)); lia.
Qed.

(** ** Start-up, scatter and gather *)

Lemma block_grid_total NX NY W : 1 <= W -> is_Some (block_grid NX NY W).
Proof.
  intros HW. unfold block_grid.
  destruct (find_dims_spec W HW) as (x & -> & _). simpl. eauto.
Qed.

(** X16. When [main] gets past its start-up.  A process goes on to
    allocate and scatter exactly when the command line is accepted (no
    argument, or one that parses to a positive thread count), the worker
    count is not prime and it divides NX*NY; it never ends in any other
    way than returning 32, the abort with 22, or going on.  A rank that
    goes on holds the block grid chosen for W, rows = NX/xdim and
    columns = NY/ydim, and the neighbours of its own rank. *)
Theorem startup_proceeds (NX NY STEPS argc parsed taskid W : Z) :
  1 <= W ->
  let out := snd (main_startup NX NY STEPS argc parsed taskid W) in
  ((exists s, out = Ready s) <->
   (argc = 1 \/ (argc = 2 /\ 0 < parsed)) /\ ~ Z.prime W /\ Z.rem (NX * NY) W = 0) /\
  out <> Stuck /\
  (forall s, out = Ready s ->
     block_grid NX NY W = Some (s_xdim s, s_ydim s) /\
     s_rows s = NX ÷ s_xdim s /\ s_columns s = NY ÷ s_ydim s /\
     s_nbrs s = nbrs_of W (s_xdim s) (s_ydim s) taskid).
Proof.
  intros HW out. subst out. unfold main_startup, thread_count_of.
  assert (Hmaster : forall tc,
    let m := snd (master_startup NX NY STEPS tc W) in
    ((exists s, m = Ready s) <-> ~ Z.prime W /\ Z.rem (NX * NY) W = 0) /\
    m <> Stuck /\
    (forall s, m = Ready s ->
       block_grid NX NY W = Some (s_xdim s, s_ydim s) /\
       s_rows s = NX ÷ s_xdim s /\ s_columns s = NY ÷ s_ydim s /\
       s_nbrs s = master_nbrs W (s_ydim s))).
  { intros tc. unfold master_startup.
    destruct (isPrime_spec W HW) as [[-> Hp]|[-> Hp]]; simpl.
    - destruct (Z.eqb_spec (Z.rem (NX * NY) W) 0) as [Hrem|Hrem]; simpl.
      + destruct (block_grid_total NX NY W HW) as [[xdim ydim] Hgrid].
        rewrite Hgrid. simpl. split; [|split; [done|]].
        * split; [done|]. intros _. eauto.
        * intros s [= <-]. done.
      + split; [|split; [done|intros s [=]]].
        split; [intros [s [=]]|]. by intros [_ ?].
    - split; [|split; [done|intros s [=]]].
      split; [intros [s [=]]|]. by intros [? _]. }
  destruct (Z.eqb_spec argc 1) as [->|Hargc1].
  - simpl. destruct (Z.eqb_spec taskid MASTER) as [->|Htask].
    + destruct (Hmaster 1) as (Hiff & Hstuck & Hready).
      split; [|split; [done|done]]. rewrite Hiff. split; [intros [? ?]|intros (_ & ? & ?)]; eauto.
    + destruct (Hmaster 1) as (Hiff & Hstuck & Hready).
      destruct (master_startup NX NY STEPS 1 W) as [t [st|ec| |s0]]; simpl in *.
      * split; [|split; [done|intros s [=]]].
        split; [intros [s [=]]|]. intros (_ & ? & ?). by apply Hiff.
      * split; [|split; [done|intros s [=]]].
        split; [intros [s [=]]|]. intros (_ & ? & ?). by apply Hiff.
      * done.
      * split; [|split; [done|]].
        -- split; [|by eauto]. intros _. split; [by left|]. apply Hiff. eauto.
        -- intros s [= <-]. simpl. destruct (Hready s0 eq_refl) as (? & ? & ? & _).
           split; [done|]. split; [done|]. split; [done|].
           unfold nbrs_of. by destruct (Z.eqb_spec taskid MASTER).
  - destruct (Z.eqb_spec argc 2) as [->|Hargc2].
    + destruct (Z.leb_spec parsed 0) as [Hle|Hgt].
      * simpl. split; [|split; [done|intros s [=]]].
        split; [intros [s [=]]|]. intros ([?|[_ ?]] & _); lia.
      * destruct (Z.eqb_spec taskid MASTER) as [->|Htask].
        -- destruct (Hmaster parsed) as (Hiff & Hstuck & Hready).
           split; [|split; [done|done]]. rewrite Hiff.
           split; [intros [? ?]|intros (_ & ? & ?)]; eauto.
        -- destruct (Hmaster parsed) as (Hiff & Hstuck & Hready).
           destruct (master_startup NX NY STEPS parsed W) as [t [st|ec| |s0]]; simpl in *.
           ++ split; [|split; [done|intros s [=]]].
              split; [intros [s [=]]|]. intros (_ & ? & ?). by apply Hiff.
           ++ split; [|split; [done|intros s [=]]].
              split; [intros [s [=]]|]. intros (_ & ? & ?). by apply Hiff.
           ++ done.
           ++ split; [|split; [done|]].
              ** split; [|by eauto]. intros _. split; [right; lia|]. apply Hiff. eauto.
              ** intros s [= <-]. simpl. destruct (Hready s0 eq_refl) as (? & ? & ? & _).
                 split; [done|]. split; [done|]. split; [done|].
                 unfold nbrs_of. by destruct (Z.eqb_spec taskid MASTER).
    + simpl. split; [|split; [done|intros s [=]]].
      split; [intros [s [=]]|]. intros ([?|[? _]] & _); lia.
Qed.

(** X17. What the ranks start from.  After the zero fill and the scatter,
    whatever [malloc] returned, every cell of [local[1]] and every cell of
    the halo ring of [local[0]] holds 0.0, and the cells inside the ring
    of [local[0]] hold floats of the grid [u]: no uninitialised value is
    left in either buffer. *)
Theorem buffers_start_defined (NX NY xdim ydim rows columns : Z) (u : buf)
    (fresh fresh' : world) (k ix iy : Z) :
  0 <= ix <= rows + 1 -> 0 <= iy <= columns + 1 ->
  scatter NX NY xdim ydim rows columns u fresh k 1 (at_ columns ix iy) = to_flt lit_0_0 /\
  (ix = 0 \/ ix = rows + 1 \/ iy = 0 \/ iy = columns + 1 ->
   scatter NX NY xdim ydim rows columns u fresh k 0 (at_ columns ix iy) = to_flt lit_0_0) /\
  (1 <= ix <= rows -> 1 <= iy <= columns ->
   scatter NX NY xdim ydim rows columns u fresh k 0 (at_ columns ix iy) =
   u (displs xdim ydim rows k * columns + ((ix - 1) * NY + (iy - 1)))) /\
  (forall z, z = 0 \/ z = 1 ->
   scatter NX NY xdim ydim rows columns u fresh k z (at_ columns ix iy) =
   scatter NX NY xdim ydim rows columns u fresh' k z (at_ columns ix iy)).
Proof.
  intros Hx Hy.
  assert (Hin : forall fr, 1 <= ix <= rows -> 1 <= iy <= columns ->
    scatter NX NY xdim ydim rows columns u fr k 0 (at_ columns ix iy) =
    u (displs xdim ydim rows k * columns + ((ix - 1) * NY + (iy - 1)))).
  { intros fr Hix Hiy.
    replace (at_ columns ix iy) with (at_ columns (1 + (ix - 1)) (1 + (iy - 1)))
      by (f_equal; lia).
    apply scatter_interior; lia. }
  split; [by apply scatter_next|]. split; [by apply scatter_halo|]. split; [apply Hin|].
  intros z [-> | ->].
  - destruct (decide (1 <= ix <= rows /\ 1 <= iy <= columns)) as [[? ?]|Hring].
    + by rewrite !Hin.
    + rewrite !scatter_halo by lia. done.
  - by rewrite !scatter_next.
Qed.

(** X18. Scatter, then gather.  When the columns divide evenly among the
    block columns, block (r, c) is taken from row r*rows, column c*columns
    of the grid on, and a run of zero steps hands the grid back unchanged,
    rows below the last block row included. *)
Theorem round_trip_on_even_columns (NX NY W xdim ydim : Z) (u : buf) (fresh : world) :
  MPI_PROC_NULL < 0 -> 1 <= W -> ~ Z.prime W ->
  block_grid NX NY W = Some (xdim, ydim) ->
  ydim * (NY ÷ ydim) = NY -> 1 <= NX ÷ xdim -> 1 <= NY ÷ ydim ->
  (forall r c a b,
     0 <= r < xdim -> 0 <= c < ydim -> 0 <= a < NX ÷ xdim -> 0 <= b < NY ÷ ydim ->
     scatter NX NY xdim ydim (NX ÷ xdim) (NY ÷ ydim) u fresh (r * ydim + c) 0
             (at_ (NY ÷ ydim) (1 + a) (1 + b))
     = u ((r * (NX ÷ xdim) + a) * NY + (c * (NY ÷ ydim) + b))) /\
  exists fin,
    simulate NX NY 0 W u fresh = Some fin /\
    forall i j, 0 <= i -> 0 <= j < NY -> fin (i * NY + j) = u (i * NY + j).
Proof.
  intros Hnull HW Hp Hgrid Hexact Hrows Hcolumns.
  destruct (block_grid_shape NX NY W xdim ydim HW Hgrid) as (Hmul & Hx & Hy & Hshape).
  specialize (Hshape Hp). split.
  - intros r c a b Hr Hc Ha Hb.
    by apply (scatter_block NX NY xdim ydim (NX ÷ xdim) (NY ÷ ydim)).
  - unfold simulate. rewrite Hgrid. simpl.
    by apply (scatter_gather_identity NX NY W xdim ydim (NX ÷ xdim) (NY ÷ ydim)).
Qed.

Section Leftover.
Variables NX NY W xdim ydim rows columns : Z.
Hypothesis Hnull : MPI_PROC_NULL < 0.
Hypothesis Hxdim : 1 <= xdim.
Hypothesis Hydim : 1 <= ydim.
Hypothesis Hranks : xdim * ydim = W.
Hypothesis Hshape : W = 1 \/ (2 <= xdim /\ 2 <= ydim).
Hypothesis Hrows : 2 <= rows.
Hypothesis Hcolumns : 2 <= columns.
Hypothesis Hthick_rows : 3 <= rows \/ 2 <= xdim.
Hypothesis Hthick_columns : 3 <= columns \/ 2 <= ydim.
Hypothesis Hexact : ydim * columns = NY.

Lemma run_grid_edges STEPS (u : buf) (fresh : world) :
  0 <= STEPS ->
  exists fin,
    run_grid NX NY W xdim ydim rows columns STEPS u fresh = Some fin /\
    (forall r a c b,
       0 <= r < xdim -> 0 <= a < rows -> 0 <= c < ydim -> 0 <= b < columns ->
       at_domain_edge rows columns (nb_of W xdim ydim (r * ydim + c)) (1 + a) (1 + b) ->
       fin ((r * rows + a) * NY + (c * columns + b)) =
       if Z.odd STEPS then to_flt lit_0_0
       else u ((r * rows + a) * NY + (c * columns + b))) /\
    (forall i j, xdim * rows <= i -> 0 <= j < NY -> fin (i * NY + j) = u (i * NY + j)).
Proof.
  intros HSTEPS. unfold run_grid.
  destruct (exchange_total W xdim ydim rows columns Hnull Hxdim Hydim Hranks Hshape
              0 (scatter NX NY xdim ydim rows columns u fresh)) as [w1 Hw1].
  rewrite Hw1. simpl.
  destruct (steps_edges W xdim ydim rows columns Hnull Hxdim Hydim Hranks Hshape
              Hrows Hcolumns Hthick_rows Hthick_columns STEPS w1) as (w2 & -> & Hsame).
  simpl. eexists. split; [done|]. split.
  - intros r a c b Hr Ha Hc Hb Hedge.
    rewrite (gather_covered NX NY W xdim ydim rows columns) by (done || lia).
    rewrite Hsame; [|nia|lia|lia|done].
    rewrite (exchange_frame W xdim ydim rows columns 0 _ w1 _ _ _ _ ltac:(lia) Hw1)
      by lia.
    rewrite Z.rem_mod_nonneg, Zmod_odd by lia.
    destruct (Z.odd STEPS).
    + apply scatter_next; lia.
    + apply (scatter_block NX NY xdim ydim rows columns); done.
  - intros i j Hi Hj.
    apply (gather_uncovered NX NY W xdim ydim rows columns); done || lia.
Qed.

Lemma last_block_row_at_edge c a b :
  0 <= c < ydim -> 0 <= b < columns -> a = rows - 1 ->
  at_domain_edge rows columns (nb_of W xdim ydim ((xdim - 1) * ydim + c)) (1 + a) (1 + b).
Proof.
  intros Hc Hb ->.
  rewrite (nb_rc W xdim ydim Hxdim Hydim Hranks Hshape (xdim - 1) c ltac:(lia) Hc).
  unfold at_domain_edge. cbn [left right up down].
  right. left. rewrite Z.eqb_refl, is_null_NULL. split; [done|lia].
Qed.

End Leftover.

(** X19. Rows that are left over.  When NX is not a multiple of the
    number of block rows, the rows of the grid below the last block row
    belong to no block, and the gathered field holds their initial values
    whatever the number of steps.  The last row that does belong to a
    block is treated as the edge of the domain: it is never computed, and
    ends with its initial values after an even number of steps and with
    0.0 after an odd number. *)
Theorem leftover_rows_untouched (NX NY W STEPS xdim ydim : Z) (u : buf) (fresh : world) :
  MPI_PROC_NULL < 0 -> 1 <= W -> ~ Z.prime W -> 0 <= STEPS ->
  block_grid NX NY W = Some (xdim, ydim) ->
  ydim * (NY ÷ ydim) = NY ->
  2 <= NX ÷ xdim -> 2 <= NY ÷ ydim ->
  3 <= NX ÷ xdim \/ 2 <= xdim -> 3 <= NY ÷ ydim \/ 2 <= ydim ->
  exists fin,
    simulate NX NY STEPS W u fresh = Some fin /\
    (forall i j, xdim * (NX ÷ xdim) <= i -> 0 <= j < NY ->
       fin (i * NY + j) = u (i * NY + j)) /\
    (forall j, 0 <= j < NY ->
       fin ((xdim * (NX ÷ xdim) - 1) * NY + j) =
       if Z.odd STEPS then to_flt lit_0_0
       else u ((xdim * (NX ÷ xdim) - 1) * NY + j)).
Proof.
  intros Hnull HW Hp HSTEPS Hgrid Hexact Hrows Hcolumns Htr Htc.
  destruct (block_grid_shape NX NY W xdim ydim HW Hgrid) as (Hmul & Hx & Hy & Hshape).
  specialize (Hshape Hp).
  destruct (run_grid_edges NX NY W xdim ydim (NX ÷ xdim) (NY ÷ ydim)
              Hnull Hx Hy Hmul Hshape Hrows Hcolumns Htr Htc Hexact STEPS u fresh HSTEPS)
    as (fin & Hrun & Hedge & Hrest).
  exists fin. unfold simulate. rewrite Hgrid. simpl. split; [exact Hrun|].
  split; [exact Hrest|]. intros j Hj.
  destruct (split_index (NY ÷ ydim) j ydim) as (Hc & Hb & Hjb); [lia..|].
  set (c := j / (NY ÷ ydim)) in *. set (b := j mod (NY ÷ ydim)) in *.
  replace (xdim * (NX ÷ xdim) - 1) with ((xdim - 1) * (NX ÷ xdim) + (NX ÷ xdim - 1)) by lia.
  rewrite Hjb. apply Hedge; [lia..|].
  by apply (last_block_row_at_edge W xdim ydim (NX ÷ xdim) (NY ÷ ydim)).
Qed.

(** ** Computing while the messages travel *)

Lemma internal_stores_agree rows columns (u1 u1' : buf) :
  (forall ix iy, 1 <= ix <= rows -> 1 <= iy <= columns ->
     u1 (at_ columns ix iy) = u1' (at_ columns ix iy)) ->
  cell_store (columns + 2) u1 <$> internal_cells 2 (rows - 1) columns =
  cell_store (columns + 2) u1' <$> internal_cells 2 (rows - 1) columns.
Proof.
  intros Hagree. apply Forall_fmap_ext, Forall_forall.
  intros [ix iy] Hc%elem_of_internal_cells. unfold cell_store. f_equal.
  rewrite !cell_val_at. rewrite !Hagree by lia. done.
Qed.

(** X20. Overlapping the interior pass with the halo exchange changes
    nothing.  The receives fill halo cells only, so the buffer before and
    after them agrees on rows 1..rows, columns 1..columns; running
    [updateInternal] on the buffer as it was before the receives
    completed and [updateExternal] on the buffer after them leaves the
    same next buffer as running both after the exchange. *)
Theorem overlap_is_safe (W xdim ydim rows columns iz k : Z) (w w' : world)
    (nb : nbrs) (u2 : buf) :
  0 <= columns ->
  exchange W xdim ydim rows columns iz w = Some w' ->
  (forall ix iy, 1 <= ix <= rows -> 1 <= iy <= columns ->
     w k iz (at_ columns ix iy) = w' k iz (at_ columns ix iy)) /\
  forall off,
    update_block_overlapped rows columns nb (w k iz) (w' k iz) u2 off =
    update_block rows columns nb (w' k iz) u2 off.
Proof.
  intros Hc Hex.
  assert (Hagree : forall ix iy, 1 <= ix <= rows -> 1 <= iy <= columns ->
            w k iz (at_ columns ix iy) = w' k iz (at_ columns ix iy)).
  { intros ix iy Hx Hy. symmetry.
    by apply (exchange_frame W xdim ydim rows columns iz w w'). }
  split; [exact Hagree|]. intros off.
  unfold update_block_overlapped, update_block.
  rewrite update_block_sweep.
  rewrite (exec_sweeps _ _ _ (w k iz) u2 (updateInternal_sweeps 2 (rows - 1) columns)).
  rewrite (exec_sweeps _ _ _ (w' k iz) _ (updateExternal_sweeps rows columns nb)).
  simpl. rewrite fmap_app, pokes_app.
  by rewrite (internal_stores_agree rows columns (w k iz) (w' k iz) Hagree).
Qed.

(** ** Where the blocks lie in [u], whatever the grid *)

Lemma elem_of_block_of NX NY xdim ydim rows columns i j off :
  0 <= xdim -> 0 <= ydim -> 0 <= i < xdim -> 0 <= j < ydim ->
  off ∈ block_of NX NY xdim ydim rows columns (i * ydim + j) <->
  exists a b, 0 <= a < rows /\ 0 <= b < columns /\
              off = (i * rows * ydim + j) * columns + (a * NY + b).
Proof.
  intros Hx Hy Hi Hj. unfold block_of, sendsubarr_extent.
  rewrite sendsub_cells, displs_spec by lia. rewrite list_elem_of_fmap. split.
  - intros ([a b] & -> & Hab%elem_of_block_cells). exists a, b. simpl.
    split; [lia|]. split; [lia|done].
  - intros (a & b & Ha & Hb & ->). exists (a, b). split; [done|].
    by apply elem_of_block_cells.
Qed.

Lemma quot_fits N d : 0 <= N -> 1 <= d -> 0 <= N ÷ d /\ d * (N ÷ d) <= N.
Proof.
  intros HN Hd. rewrite Z.quot_div_nonneg by lia.
  split; [apply Z.div_pos; lia|apply Z.mul_div_le; lia].
Qed.

(** X22. The scatter and the gather stay inside the arrays.  For every
    worker count W >= 1 and every rank, all floats of the rank's block in
    [u] lie within the NX*NY floats of [u], also when the blocks do not
    cut the grid evenly, and all floats of the receive type lie within the
    (rows+2)*(columns+2) floats of the rank's buffer. *)
Theorem scatter_gather_in_bounds (NX NY W xdim ydim k : Z) :
  0 <= NX -> 0 <= NY -> 1 <= W ->
  block_grid NX NY W = Some (xdim, ydim) ->
  0 <= k < W ->
  (forall off, off ∈ block_of NX NY xdim ydim (NX ÷ xdim) (NY ÷ ydim) k ->
     0 <= off < NX * NY) /\
  (forall off, off ∈ recvsubarrtype (NX ÷ xdim) (NY ÷ ydim) ->
     0 <= off < (NX ÷ xdim + 2) * (NY ÷ ydim + 2)).
Proof.
  intros HNX HNY HW Hgrid Hk.
  destruct (block_grid_shape NX NY W xdim ydim HW Hgrid) as (Hmul & Hx & Hy & _).
  destruct (quot_fits NX xdim HNX Hx) as [Hrows Hfx].
  destruct (quot_fits NY ydim HNY Hy) as [Hcolumns Hfy].
  set (rows := NX ÷ xdim) in *. set (columns := NY ÷ ydim) in *.
  split.
  - intros off. destruct (rank_rc W xdim ydim Hy Hmul k Hk) as (i & j & Hi & Hj & ->).
    rewrite elem_of_block_of by lia. intros (a & b & Ha & Hb & ->).
    assert (0 <= i * rows) by nia.
    assert (i * rows + rows <= xdim * rows) by nia.
    assert (0 <= j * columns) by nia.
    assert (j * columns + columns <= ydim * columns) by nia.
    assert (0 <= i * rows * (ydim * columns) <= i * rows * NY) by nia.
    assert (0 <= a * NY <= (rows - 1) * NY) by nia.
    assert ((i * rows + rows) * NY <= NX * NY) by nia.
    nia.
  - intros off. rewrite recvsub_cells.
    intros ([a b] & -> & Hab%elem_of_block_cells)%list_elem_of_fmap.
    unfold at_. simpl. nia.
Qed.

(** X23. Where a block is taken from.  For every grid, the cell (1+a,
    1+b) of the buffer of the rank at block row r, block column c is
    loaded from float (r*rows*ydim + c)*columns + a*NY + b of [u].  For a
    rank below the first block row this is the cell (r*rows + a,
    c*columns + b) of the grid exactly when the block columns fill the
    row, ydim*columns = NY. *)
Theorem block_origin (NX NY W xdim ydim r c a b : Z) (u : buf) (fresh : world) :
  1 <= W -> block_grid NX NY W = Some (xdim, ydim) ->
  0 <= r < xdim -> 0 <= c < ydim -> 0 <= a < NX ÷ xdim -> 0 <= b < NY ÷ ydim ->
  scatter NX NY xdim ydim (NX ÷ xdim) (NY ÷ ydim) u fresh (r * ydim + c) 0
          (at_ (NY ÷ ydim) (1 + a) (1 + b))
  = u ((r * (NX ÷ xdim) * ydim + c) * (NY ÷ ydim) + (a * NY + b)) /\
  (1 <= r ->
   ((r * (NX ÷ xdim) * ydim + c) * (NY ÷ ydim) + (a * NY + b)
    = (r * (NX ÷ xdim) + a) * NY + (c * (NY ÷ ydim) + b)
    <-> ydim * (NY ÷ ydim) = NY)).
Proof.
  intros HW Hgrid Hr Hc Ha Hb.
  destruct (block_grid_shape NX NY W xdim ydim HW Hgrid) as (Hmul & Hx & Hy & _).
  split.
  - rewrite scatter_interior by done. by rewrite displs_spec by lia.
  - intros Hr1. set (rows := NX ÷ xdim) in *. set (columns := NY ÷ ydim) in *.
    assert (1 <= r * rows) by nia.
    split; intros Heq; nia.
Qed.

(** ** The two passes and the exchange, composed *)

(** X24. The two passes together compute the block.  On a block of at
    least two rows and two columns (other than a two-row block with
    neither an upper nor a lower neighbour and a two-column block with
    neither a left nor a right one), after [updateInternal] and
    [updateExternal] every cell of rows 1..rows, columns 1..columns that
    is not in a row or column at a domain edge holds the stencil value of
    the current buffer, and every cell in a row or column at a domain edge
    holds what the next buffer held before: no cell is missed and none is
    computed from a half-updated buffer. *)
Theorem passes_compute_block (rows columns : Z) (nb : nbrs) (u1 u2 : buf) (ix iy : Z) :
  2 <= rows -> 2 <= columns ->
  ~ (rows = 2 /\ is_null (up nb) = true /\ is_null (down nb) = true) ->
  ~ (columns = 2 /\ is_null (left nb) = true /\ is_null (right nb) = true) ->
  1 <= ix <= rows -> 1 <= iy <= columns ->
  (at_domain_edge rows columns nb ix iy ->
   update_block rows columns nb u1 u2 (at_ columns ix iy) = u2 (at_ columns ix iy)) /\
  (~ at_domain_edge rows columns nb ix iy ->
   update_block rows columns nb u1 u2 (at_ columns ix iy) =
   to_flt (to_dbl (u1 (at_ columns ix iy))
           +d to_dbl (cx parms) *d
                (to_dbl (u1 (at_ columns (ix+1) iy) +f u1 (at_ columns (ix-1) iy))
                 -d lit_2_0 *d to_dbl (u1 (at_ columns ix iy)))
           +d to_dbl (cy parms) *d
                (to_dbl (u1 (at_ columns ix (iy+1)) +f u1 (at_ columns ix (iy-1)))
                 -d lit_2_0 *d to_dbl (u1 (at_ columns ix iy))))).
Proof.
  intros Hr Hc Hlr%live_rows Hlc%live_columns Hx Hy; [|done..]. split.
  - intros Hedge. by apply update_block_frame.
  - intros Hlive. rewrite <- cell_val_at. by apply update_block_live.
Qed.

(** X25. A second exchange changes nothing.  The persistent requests
    started before the loop and the receives and sends of the first
    iteration move the same cells of [local[0]]: after one exchange a
    further exchange on the same buffer completes and leaves every cell of
    every rank's two buffers as it was. *)
Theorem exchange_twice (NX NY W xdim ydim rows columns iz : Z) (w w1 : world) :
  MPI_PROC_NULL < 0 -> 1 <= W -> ~ Z.prime W ->
  block_grid NX NY W = Some (xdim, ydim) ->
  1 <= rows -> 1 <= columns ->
  exchange W xdim ydim rows columns iz w = Some w1 ->
  exists w2,
    exchange W xdim ydim rows columns iz w1 = Some w2 /\
    forall k z ix iy,
      0 <= k < W -> 0 <= ix <= rows + 1 -> 0 <= iy <= columns + 1 ->
      w2 k z (at_ columns ix iy) = w1 k z (at_ columns ix iy).
Proof.
  intros Hnull HW Hp Hgrid Hrows Hcolumns Hex.
  destruct (block_grid_shape NX NY W xdim ydim HW Hgrid) as (Hmul & Hx & Hy & Hshape).
  specialize (Hshape Hp).
  destruct (exchange_total W xdim ydim rows columns Hnull Hx Hy Hmul Hshape iz w1)
    as [w2 Hex2].
  exists w2. split; [done|]. intros k z ix iy Hk Hix Hiy.
  destruct (decide (z = iz)) as [->|Hz];
    [|by rewrite (exchange_other W xdim ydim rows columns iz w1 w2 k z Hex2 Hz)].
  destruct (rank_rc W xdim ydim Hy Hmul k Hk) as (r & c & Hr & Hc & ->).
  assert (Hblock : forall k' ix' iy', 1 <= ix' <= rows -> 1 <= iy' <= columns ->
            w1 k' iz (at_ columns ix' iy') = w k' iz (at_ columns ix' iy')).
  { intros k' ix' iy' ? ?.
    by apply (exchange_frame W xdim ydim rows columns iz w w1 _ _ _ _ ltac:(lia) Hex). }
  destruct (decide (1 <= ix <= rows /\ 1 <= iy <= columns)) as [[? ?]|Hring].
  { by apply (exchange_frame W xdim ydim rows columns iz w1 w2 _ _ _ _ ltac:(lia) Hex2). }
  destruct (decide (ix = 0 /\ 1 <= iy <= columns /\ 0 < r)) as [(-> & ? & ?)|Hup].
  { rewrite (halo_up W xdim ydim rows columns Hnull Hx Hy Hmul Hshape iz w1 w2 r c iy Hex2)
      by lia.
    rewrite (halo_up W xdim ydim rows columns Hnull Hx Hy Hmul Hshape iz w w1 r c iy Hex)
      by lia.
    apply Hblock; lia. }
  destruct (decide (ix = rows + 1 /\ 1 <= iy <= columns /\ r < xdim - 1))
    as [(-> & ? & ?)|Hdown].
  { rewrite (halo_down W xdim ydim rows columns Hnull Hx Hy Hmul Hshape Hrows
               iz w1 w2 r c iy Hex2) by lia.
    rewrite (halo_down W xdim ydim rows columns Hnull Hx Hy Hmul Hshape Hrows
               iz w w1 r c iy Hex) by lia.
    apply Hblock; lia. }
  destruct (decide (iy = 0 /\ 1 <= ix <= rows /\ 0 < c)) as [(-> & ? & ?)|Hleft].
  { rewrite (halo_left W xdim ydim rows columns Hnull Hx Hy Hmul Hshape Hcolumns
               iz w1 w2 r c ix Hex2) by lia.
    rewrite (halo_left W xdim ydim rows columns Hnull Hx Hy Hmul Hshape Hcolumns
               iz w w1 r c ix Hex) by lia.
    apply Hblock; lia. }
  destruct (decide (iy = columns + 1 /\ 1 <= ix <= rows /\ c < ydim - 1))
    as [(-> & ? & ?)|Hright].
  { rewrite (halo_right W xdim ydim rows columns Hnull Hx Hy Hmul Hshape Hcolumns
               iz w1 w2 r c ix Hex2) by lia.
    rewrite (halo_right W xdim ydim rows columns Hnull Hx Hy Hmul Hshape Hcolumns
               iz w w1 r c ix Hex) by lia.
    apply Hblock; lia. }
  apply (halo_kept W xdim ydim rows columns Hnull Hx Hy Hmul Hshape Hrows Hcolumns
           iz w1 w2 r c ix iy Hex2); lia.
Qed.

(** [NXPROB] enters the scatter and the gather only through the sizes of
    the send type, of which the type map uses the row length alone. *)
Lemma run_grid_rows_irrelevant NX NX' NY W xdim ydim rows columns STEPS (u : buf) fresh :
  run_grid NX NY W xdim ydim rows columns STEPS u fresh =
  run_grid NX' NY W xdim ydim rows columns STEPS u fresh.
Proof. reflexivity. Qed.

(** X26. The run on a grid with rows left over.  When the columns divide
    evenly among the block columns and the blocks are thick enough, the
    run completes, and the rows that belong to blocks, the first
    xdim*rows of the grid, end as STEPS time steps on a grid of just
    those rows: the last of them is held like a boundary row, and the
    rows below are handed back as they were. *)
Theorem run_on_covered_rows (NX NY W STEPS xdim ydim : Z) (u : buf) (fresh : world) :
  MPI_PROC_NULL < 0 -> 1 <= W -> ~ Z.prime W -> 0 <= STEPS ->
  block_grid NX NY W = Some (xdim, ydim) ->
  ydim * (NY ÷ ydim) = NY ->
  2 <= NX ÷ xdim -> 2 <= NY ÷ ydim ->
  3 <= NX ÷ xdim \/ 2 <= xdim -> 3 <= NY ÷ ydim \/ 2 <= ydim ->
  exists fin,
    simulate NX NY STEPS W u fresh = Some fin /\
    (forall i j, 0 <= i < xdim * (NX ÷ xdim) -> 0 <= j < NY ->
       fin (i * NY + j) =
       two_buffer_steps (xdim * (NX ÷ xdim)) NY (grid_of NY u) (Z.to_nat STEPS) i j) /\
    (forall i j, xdim * (NX ÷ xdim) <= i -> 0 <= j < NY ->
       fin (i * NY + j) = u (i * NY + j)).
Proof.
  intros Hnull HW Hp HSTEPS Hgrid Hexact Hrows Hcolumns Htr Htc.
  destruct (block_grid_shape NX NY W xdim ydim HW Hgrid) as (Hmul & Hx & Hy & Hshape).
  specialize (Hshape Hp).
  destruct (run_grid_cells (xdim * (NX ÷ xdim)) NY W xdim ydim (NX ÷ xdim) (NY ÷ ydim)
              Hnull Hx Hy Hmul Hshape Hrows Hcolumns Htr Htc eq_refl Hexact
              STEPS u fresh HSTEPS) as (fin & Hrun & Hfin).
  destruct (run_grid_edges NX NY W xdim ydim (NX ÷ xdim) (NY ÷ ydim)
              Hnull Hx Hy Hmul Hshape Hrows Hcolumns Htr Htc Hexact STEPS u fresh HSTEPS)
    as (fin' & Hrun' & _ & Hrest).
  rewrite (run_grid_rows_irrelevant _ NX) in Hrun.
  assert (fin' = fin) as -> by congruence.
  exists fin. unfold simulate. rewrite Hgrid. simpl. done.
Qed.

(** ** The files of a run *)

Lemma prtdat_ext nx ny (u1 u1' : buf) fnam :
  (forall ix iy, 0 <= ix < nx -> 0 <= iy < ny -> u1 (ix * ny + iy) = u1' (ix * ny + iy)) ->
  prtdat nx ny u1 fnam = prtdat nx ny u1' fnam.
Proof.
  intros Hagree. unfold prtdat. do 2 f_equal.
  apply Forall_bind_ext, Forall_forall. intros iy Hiy.
  apply Forall_bind_ext, Forall_forall. intros ix Hix%elem_of_seqZ.
  unfold down_to_0 in Hiy.
  apply list_elem_of_fmap in Hiy as (k & -> & Hk%elem_of_seqZ).
  unfold prtdat_cell. rewrite Hagree by lia. done.
Qed.

Lemma two_buffer_steps_ext NX NY (u u' : grid) :
  (forall i j, 0 <= i < NX -> 0 <= j < NY -> u i j = u' i j) ->
  forall (n : nat) i j, 0 <= i < NX -> 0 <= j < NY ->
    two_buffer_steps NX NY u n i j = two_buffer_steps NX NY u' n i j.
Proof.
  intros Hagree. induction n as [|n IH]; intros i j Hi Hj; [by apply Hagree|].
  rewrite !two_buffer_steps_S. unfold step_keeping.
  destruct (inner NX NY i j) eqn:Hin.
  - apply inner_true in Hin. rewrite !(IH i), !(IH (i + 1)), !(IH (i - 1)) by lia. done.
  - destruct (Z.odd _); [done|]. by apply Hagree.
Qed.

(** X27. The files of a run do not depend on the number of workers.  For
    any two worker counts whose block grids cut the grid evenly, the
    master writes the same [initial.dat] and the same [final.dat], call
    for call, whatever the array [u] and the freshly allocated buffers
    held: the output is determined by NX, NY and STEPS alone. *)
Theorem files_independent_of_workers (NX NY STEPS W xdim ydim W' xdim' ydim' : Z)
    (u u' : buf) (fresh fresh' : world) :
  MPI_PROC_NULL < 0 -> 0 <= STEPS ->
  cuts_evenly NX NY W xdim ydim -> cuts_evenly NX NY W' xdim' ydim' ->
  exists files,
    main_files NX NY STEPS W u fresh = Some files /\
    main_files NX NY STEPS W' u' fresh' = Some files.
Proof.
  intros Hnull HSTEPS Hcuts Hcuts'. unfold main_files. cbv zeta.
  destruct (simulate_cells NX NY W STEPS xdim ydim (inidat NX NY u) fresh
              Hnull HSTEPS Hcuts) as (fin & -> & Hfin).
  destruct (simulate_cells NX NY W' STEPS xdim' ydim' (inidat NX NY u') fresh'
              Hnull HSTEPS Hcuts') as (fin' & -> & Hfin').
  simpl. eexists. split; [reflexivity|]. do 2 f_equal.
  - apply prtdat_ext. intros ix iy Hx Hy. by rewrite !inidat_spec.
  - apply prtdat_ext. intros ix iy Hx Hy. rewrite Hfin, Hfin' by done.
    apply two_buffer_steps_ext; [|done..].
    intros i j Hi Hj. unfold grid_of. by rewrite !inidat_spec.
Qed.

(** ** A run of zero steps, whatever the grid *)

(** Gathering blocks that hold what the scatter put there writes every
    float of [u] back onto itself. *)
Lemma gather_of_scattered NX NY W xdim ydim rows columns (w : world) (u : buf) :
  (forall k a b, 0 <= k < W -> 0 <= a < rows -> 0 <= b < columns ->
     w k 0 (at_ columns (1 + a) (1 + b)) =
     u (displs xdim ydim rows k * columns + (a * NY + b))) ->
  forall off, gather NX NY W xdim ydim rows columns 0 w u off = u off.
Proof.
  intros Hw off. unfold gather.
  apply (loopZ_inv (fun u' : buf => u' off = u off)); [done|].
  intros k u' Hk Hu'. unfold block_of, sendsubarr_extent.
  rewrite sendsub_cells, recvsub_cells, transfer_cells.
  set (ws := (fun c : Z * Z => (displs xdim ydim rows k * columns + (c.1 * NY + c.2),
                                w k 0 (at_ columns (1 + c.1) (1 + c.2))))
             <$> block_cells rows columns).
  destruct (decide (off ∈ ws.*1)) as [Hin|Hout]; [|by rewrite pokes_notin].
  assert (Hval : forall v, (off, v) ∈ ws -> v = u off).
  { intros v ([a b] & [= -> ->] & Hab%elem_of_block_cells)%list_elem_of_fmap.
    simpl. apply Hw; lia. }
  apply list_elem_of_fmap in Hin as ([o v] & Ho & Hov). simpl in Ho. subst o.
  pose proof (Hval v Hov) as ->.
  apply pokes_in; [done|exact Hval].
Qed.

(** X28. A run of zero steps is the identity, whatever the grid.  For
    every worker count that is not prime, also one whose blocks do not
    cut the grid evenly and overlap in [u], scatter followed by gather
    leaves every float of [u] as it was: each rank writes back to the
    very displacements it was loaded from. *)
Theorem zero_steps_identity (NX NY W xdim ydim : Z) (u : buf) (fresh : world) :
  MPI_PROC_NULL < 0 -> 1 <= W -> ~ Z.prime W ->
  block_grid NX NY W = Some (xdim, ydim) ->
  0 <= NY ÷ ydim ->
  exists fin,
    simulate NX NY 0 W u fresh = Some fin /\ forall off, fin off = u off.
Proof.
  intros Hnull HW Hp Hgrid Hcolumns.
  destruct (block_grid_shape NX NY W xdim ydim HW Hgrid) as (Hmul & Hx & Hy & Hshape).
  specialize (Hshape Hp).
  unfold simulate. rewrite Hgrid. simpl. unfold run_grid.
  destruct (exchange_total W xdim ydim (NX ÷ xdim) (NY ÷ ydim) Hnull Hx Hy Hmul Hshape
              0 (scatter NX NY xdim ydim (NX ÷ xdim) (NY ÷ ydim) u fresh)) as [w1 Hw1].
  rewrite Hw1. simpl. eexists. split; [done|].
  change (Z.rem 0 2) with 0. apply gather_of_scattered.
  intros k a b Hk Ha Hb.
  rewrite (exchange_frame W xdim ydim (NX ÷ xdim) (NY ÷ ydim) 0 _ w1 _ _ _ _
             Hcolumns Hw1) by lia.
  by apply scatter_interior.
Qed.

End Heat2D.

(** * Concrete runs *)

Local Open Scope Z_scope.



Lemma prime_7 : Z.prime 7.
Proof.
  destruct (isPrime_spec 7) as [[H _]|[_ H]]; [lia| |done].
  vm_compute in H. discriminate.
Qed.

Lemma not_prime_4 : ~ Z.prime 4.
Proof. intros [_ H]. apply (H 2); [lia|]. by exists 2. Qed.

Lemma interior_independent_of_halo_witness :
  (forall ix iy, 1 <= ix <= 3 -> 1 <= iy <= 3 ->
     ramp (at_ 3 ix iy) = ramp_inside 3 3 (at_ 3 ix iy)) /\
  ((forall off, nxt (exec (updateInternal 2 (3 - 1) 3) ramp zeros) off =
                nxt (exec (updateInternal 2 (3 - 1) 3) (ramp_inside 3 3) zeros) off) /\
   trace (exec (updateInternal 2 (3 - 1) 3) ramp zeros) =
   trace (exec (updateInternal 2 (3 - 1) 3) (ramp_inside 3 3) zeros)).
Proof.
  assert (H : forall ix iy, 1 <= ix <= 3 -> 1 <= iy <= 3 ->
     ramp (at_ 3 ix iy) = ramp_inside 3 3 (at_ 3 ix iy)).
  { intros ix iy Hx Hy.
    assert (ix = 1 \/ ix = 2 \/ ix = 3) as [-> | [-> | ->]] by lia;
    assert (iy = 1 \/ iy = 2 \/ iy = 3) as [-> | [-> | ->]] by lia; reflexivity. }
  split; [exact H|]. exact (interior_independent_of_halo 3 3 ramp (ramp_inside 3 3) zeros H).
Defined.

(** A 3 x 3 block with a neighbour on every side: all eight ring cells. *)
Lemma exterior_pass_ring_witness :
  2 <= 3 /\ 2 <= 3 /\
  ~ (3 = 2 /\ is_null null (up (Nbrs 1 2 3 4)) = true /\
              is_null null (down (Nbrs 1 2 3 4)) = true) /\
  ~ (3 = 2 /\ is_null null (left (Nbrs 1 2 3 4)) = true /\
              is_null null (right (Nbrs 1 2 3 4)) = true) /\
  exterior_pass_spec null 3 3 (Nbrs 1 2 3 4) ramp zeros /\
  forall ix iy, on_ring 3 3 ix iy ->
    nxt (exec (updateExternal null 1 3 3 (right (Nbrs 1 2 3 4)) (left (Nbrs 1 2 3 4))
                              (up (Nbrs 1 2 3 4)) (down (Nbrs 1 2 3 4)))
              ramp zeros) (at_ 3 ix iy) = cell_val (3 + 2) ramp (ix, iy).
Proof.
  assert (H1 : 2 <= 3) by lia.
  assert (H2 : ~ (3 = 2 /\ is_null null (up (Nbrs 1 2 3 4)) = true /\
                  is_null null (down (Nbrs 1 2 3 4)) = true)) by (intros [? _]; lia).
  assert (H3 : ~ (3 = 2 /\ is_null null (left (Nbrs 1 2 3 4)) = true /\
                  is_null null (right (Nbrs 1 2 3 4)) = true)) by (intros [? _]; lia).
  repeat (split; [assumption|]).
  destruct (exterior_pass_ring null 3 3 (Nbrs 1 2 3 4) ramp zeros H1 H1 H2 H3) as [Hspec Hall].
  split; [exact Hspec|]. exact (Hall eq_refl eq_refl eq_refl eq_refl).
Defined.


(** A one-row block between rank 0 above and rank 2 below, at the left
    and right edges of the domain. *)
Lemma passes_keep_off_halo_witness :
  1 <= 1 /\ 1 <= 3 /\
  (1 = 1 -> is_null null (up (Nbrs null null 0 2)) = false /\
            is_null null (down (Nbrs null null 0 2)) = false) /\
  (3 = 1 -> is_null null (left (Nbrs null null 0 2)) = false /\
            is_null null (right (Nbrs null null 0 2)) = false) /\
  keeps_off_halo 1 3 (updateInternal 2 (1 - 1) 3) ramp zeros /\
  keeps_off_halo 1 3
    (updateExternal null 1 1 3
       (right (Nbrs null null 0 2)) (left (Nbrs null null 0 2))
       (up (Nbrs null null 0 2)) (down (Nbrs null null 0 2)))
    ramp zeros.
Proof.
  assert (Hr : 1 <= 1) by lia.
  assert (Hc : 1 <= 3) by lia.
  assert (H1 : 1 = 1 -> is_null null (up (Nbrs null null 0 2)) = false /\
                        is_null null (down (Nbrs null null 0 2)) = false)
    by (intros _; split; reflexivity).
  assert (H2 : 3 = 1 -> is_null null (left (Nbrs null null 0 2)) = false /\
                        is_null null (right (Nbrs null null 0 2)) = false)
    by (intros ?; lia).
  split; [exact Hr|]. split; [exact Hc|]. split; [exact H1|]. split; [exact H2|].
  exact (passes_keep_off_halo null 1 3 (Nbrs null null 0 2) ramp zeros Hr Hc H1 H2).
Defined.

(** C9 fails on blocks of one row.  With the program's own NXPROB = 256
    and NYPROB = 320, 81920 workers pass both start-up checks and get one
    cell each: a 256 x 320 grid of 1 x 1 blocks.  Rank 81601, block row
    255, block column 1, has neighbours on three sides and none below.
    Its last-row loop, moved off row 1, runs on row 0, the upper halo row:
    the pass assigns halo cell (0,1), offset 1 of the 3 x 3 floats, and
    computes the value from offset -2, outside them. *)
Theorem one_row_block_writes_halo :
  isPrime 81920 = Some 0 /\ Z.rem (256 * 320) 81920 = 0 /\
  snd (main_startup null 256 320 100 1 0 81601 81920) =
    Ready (Setup 256 320 1 1 (Nbrs 81600 81602 81281 null)) /\
  let s' := exec (updateExternal null 1 1 1 81602 81600 81281 null) ones zeros in
  trace s' = [Rd 1; Rd 4; Rd (-2); Rd 1; Rd 2; Rd 0; Rd 1; Wr 1] /\
  at_ 1 0 1 = 1 /\
  nxt s' (at_ 1 0 1) <> zeros (at_ 1 0 1) /\
  ~ keeps_off_halo 1 1 (updateExternal null 1 1 1 81602 81600 81281 null) ones zeros.
Proof.
  do 5 (split; [reflexivity|]). split; [vm_compute; discriminate|].
  intros [_ H].
  assert (Hval : nxt (exec (updateExternal null 1 1 1 81602 81600 81281 null) ones zeros)
                     (at_ 1 0 1) = zeros (at_ 1 0 1)) by (apply H; lia).
  vm_compute in Hval. discriminate.
Qed.

(** The same on a block with no neighbour at all, one row of three cells:
    the first-row loop runs on row 2, the lower halo row, and assigns its
    cell (2,2). *)
Example external_pass_writes_halo :
  ~ keeps_off_halo 1 3
      (updateExternal null 1 1 3 (right no_nbrs) (left no_nbrs) (up no_nbrs) (down no_nbrs))
      ones zeros.
Proof.
  intros [_ H]. specialize (H 2 2). unfold at_ in H.
  assert (Hval : nxt (exec (updateExternal null 1 1 3 null null null null) ones zeros) 12
                 = zeros 12) by (apply H; lia).
  vm_compute in Hval. discriminate.
Qed.

Lemma block_grid_factor_pair_witness :
  1 <= 4 /\ ~ Z.prime 4 /\
  exists x,
    find_dims 4 = Some (x, 4 ÷ x) /\
    1 <= x <= Z.sqrt 4 + 1 /\ (x | 4) /\
    (forall d, 1 <= d <= Z.sqrt 4 + 1 -> (d | 4) -> d <= x) /\
    block_grid 256 320 4 =
      Some (if (320 >? 256) && (4 ÷ x <? x) then (4 ÷ x, x) else (x, 4 ÷ x)) /\
    (forall xdim ydim, block_grid 256 320 4 = Some (xdim, ydim) ->
       xdim * ydim = 4 /\ 1 <= xdim /\ 1 <= ydim).
Proof.
  assert (H : 1 <= 4) by lia.
  split; [exact H|]. split; [exact not_prime_4|].
  exact (block_grid_factor_pair 256 320 4 H not_prime_4).
Defined.

Lemma neighbours_on_block_grid_witness :
  null < 0 /\ 1 <= 4 /\ ~ Z.prime 4 /\ block_grid 256 320 4 = Some (2, 2) /\ 0 <= 3 < 4 /\
  let nb := nbrs_of null 4 2 2 3 in
  (up nb = null <-> 3 ÷ 2 = 0) /\ (3 ÷ 2 <> 0 -> up nb = 3 - 2) /\
  (down nb = null <-> 3 ÷ 2 = 2 - 1) /\ (3 ÷ 2 <> 2 - 1 -> down nb = 3 + 2) /\
  (left nb = null <-> Z.rem 3 2 = 0) /\ (Z.rem 3 2 <> 0 -> left nb = 3 - 1) /\
  (right nb = null <-> Z.rem 3 2 = 2 - 1) /\ (Z.rem 3 2 <> 2 - 1 -> right nb = 3 + 1).
Proof.
  assert (H1 : null < 0) by (unfold null; lia).
  assert (H2 : 1 <= 4) by lia.
  assert (H3 : block_grid 256 320 4 = Some (2, 2)) by reflexivity.
  assert (H4 : 0 <= 3 < 4) by lia.
  split; [exact H1|]. split; [exact H2|]. split; [exact not_prime_4|].
  split; [exact H3|]. split; [exact H4|].
  exact (neighbours_on_block_grid null 256 320 4 2 2 3 H1 H2 not_prime_4 H3 H4).
Defined.

Lemma configuration_errors_witness :
  1 <= 7 /\
  main_startup null 256 320 100 3 0 0 7 =
    ([Printf "ERROR: You gave wrong parameters\n\n" []], Returned 32) /\
  main_startup null 256 320 100 2 0 0 7 =
    ([Printf "ERROR: You gave wrong number of threads!\n\n" []], Returned 32) /\
  snd (main_startup null 256 320 100 2 4 MASTER 7) = Aborted 22.
Proof.
  assert (H : 1 <= 7) by lia.
  pose proof (configuration_errors null 256 320 100 3 0 0 7 H) as (Hargs & _ & _).
  pose proof (configuration_errors null 256 320 100 2 0 0 7 H) as (_ & Hthreads & _).
  pose proof (configuration_errors null 256 320 100 2 4 MASTER 7 H) as (_ & _ & Hprime).
  split; [exact H|]. split; [apply Hargs; lia|]. split; [apply Hthreads; lia|].
  destruct (Hprime 4 eq_refl ltac:(lia)) as [Hp _]. exact (proj2 (Hp prime_7)).
Defined.

(** C2 as stated fails after an odd number of steps on a field that is
    not zero on the boundary: one step on the 4 x 4 field of ones, one
    worker, leaves 0 in the corner cell (0,0). *)
Lemma boundary_cell_zeroed_after_one_step :
  exists fin,
    simulate null 4 4 1 1 ones (fun _ _ => zeros) = Some fin /\
    fin (0 * 4 + 0) <> ones (0 * 4 + 0).
Proof.
  eexists. split; [reflexivity|]. vm_compute. discriminate.
Qed.

Lemma boundary_cells_after_run_witness :
  null < 0 /\ 1 <= 4 /\ ~ Z.prime 4 /\ 0 <= 3 /\
  block_grid 8 8 4 = Some (2, 2) /\
  2 * (8 ÷ 2) = 8 /\ 2 <= 8 ÷ 2 /\ 2 <= 8 ÷ 2 /\
  (3 <= 8 ÷ 2 \/ 2 <= 2) /\ (3 <= 8 ÷ 2 \/ 2 <= 2) /\
  exists fin,
    simulate null 8 8 3 4 ramp (fun _ _ => zeros) = Some fin /\
    (forall i j, 0 <= i < 8 -> 0 <= j < 8 ->
       i = 0 \/ i = 8 - 1 \/ j = 0 \/ j = 8 - 1 ->
       fin (i * 8 + j) =
       if Z.odd 3 && (i <? 2 * (8 ÷ 2)) then to_flt lit_0_0 else ramp (i * 8 + j)) /\
    (Z.even 3 = true ->
     forall i j, 0 <= i < 8 -> 0 <= j < 8 ->
       i = 0 \/ i = 8 - 1 \/ j = 0 \/ j = 8 - 1 ->
       fin (i * 8 + j) = ramp (i * 8 + j)) /\
    ((forall i j, 0 <= i < 8 -> 0 <= j < 8 ->
        i = 0 \/ i = 8 - 1 \/ j = 0 \/ j = 8 - 1 ->
        ramp (i * 8 + j) = to_flt lit_0_0) ->
     forall i j, 0 <= i < 8 -> 0 <= j < 8 ->
       i = 0 \/ i = 8 - 1 \/ j = 0 \/ j = 8 - 1 ->
       fin (i * 8 + j) = ramp (i * 8 + j)).
Proof.
  assert (H1 : null < 0) by (unfold null; lia).
  assert (H2 : 1 <= 4) by lia.
  assert (H3 : 0 <= 3) by lia.
  assert (H4 : block_grid 8 8 4 = Some (2, 2)) by reflexivity.
  assert (H6 : 2 * (8 ÷ 2) = 8) by reflexivity.
  assert (H7 : 2 <= 8 ÷ 2) by (vm_compute; discriminate).
  assert (H8 : 3 <= 8 ÷ 2 \/ 2 <= 2) by (right; lia).
  repeat (split; [assumption || exact not_prime_4|]).
  exact (boundary_cells_after_run null 8 8 4 3 2 2 ramp (fun _ _ => zeros)
           H1 H2 not_prime_4 H3 H4 H6 H7 H7 H8 H8).
Defined.

(** C6 fails where the columns do not divide evenly.  With the
    program's own NXPROB = 256 and NYPROB = 320, 8192 workers pass both
    start-up checks and get a 64 x 128 grid of 4 x 2 blocks, which leaves
    64 columns over.  Block (1,0), rank 128, is then read from row 3,
    column 64 of the grid on, not from row 4, column 0, and that cell is
    also the last row of block (0,32), rank 32. *)
Lemma scatter_with_column_remainder :
  isPrime 8192 = Some 0 /\ Z.rem (256 * 320) 8192 = 0 /\
  block_grid 256 320 8192 = Some (64, 128) /\ 256 ÷ 64 = 4 /\ 320 ÷ 128 = 2 /\
  displs 64 128 4 128 = 512 /\
  scatter 256 320 64 128 4 2 ramp (fun _ _ => zeros) 128 0 (at_ 2 1 1)
    = ramp (3 * 320 + 64) /\
  ramp (3 * 320 + 64) <> ramp (4 * 320 + 0) /\
  (exists off, off ∈ block_of 256 320 64 128 4 2 32 /\
               off ∈ block_of 256 320 64 128 4 2 128).
Proof.
  repeat (split; [vm_compute; reflexivity|]). split; [vm_compute; discriminate|].
  exists 1024. split; vm_compute; apply list_elem_of_In; simpl; tauto.
Qed.

(** The same on a grid small enough to follow by hand: 8 x 7 cells and
    four workers, a 2 x 2 grid of 4 x 3 blocks.  Block (1,0), rank 2, is
    read from row 3, column 3 on, and its first row is the last row of
    block (0,1), rank 1. *)
Example scatter_small_remainder :
  isPrime 4 = Some 0 /\ Z.rem (8 * 7) 4 = 0 /\
  block_grid 8 7 4 = Some (2, 2) /\ 8 ÷ 2 = 4 /\ 7 ÷ 2 = 3 /\
  scatter 8 7 2 2 4 3 ramp (fun _ _ => zeros) 2 0 (at_ 3 1 1) = ramp (3 * 7 + 3) /\
  ramp (3 * 7 + 3) <> ramp (4 * 7 + 0) /\
  (exists off, off ∈ block_of 8 7 2 2 4 3 1 /\ off ∈ block_of 8 7 2 2 4 3 2).
Proof.
  repeat (split; [reflexivity|]). split; [vm_compute; discriminate|].
  exists 24. split; vm_compute; apply list_elem_of_In; simpl; tauto.
Qed.

(** ** Sample values *)

Example isPrime_samples :
  isPrime 1 = Some 0 /\ isPrime 2 = Some 1 /\ isPrime 9 = Some 0 /\
  isPrime 97 = Some 1 /\ isPrime 91 = Some 0.
Proof. repeat split; reflexivity. Qed.

(** The largest [int] is prime, and the compiled [isPrime] returns 0 for
    it: every wrapped product is at most [INT_MAX], so the loop runs until
    [i] is the argument itself. *)
Example isPrime_int_max :
  Z.prime 2147483647 /\ isPrime 2147483647 = Some 1 /\ isPrime_int 2147483647 = Some 0.
Proof.
  assert (H : isPrime 2147483647 = Some 1) by (lazy; reflexivity).
  split; [|split; [exact H|]].
  - destruct (isPrime_spec 2147483647) as [[H0 _]|[_ Hp]]; [lia|congruence|exact Hp].
  - change (isPrime_int 2147483647)
      with (isPrime_loop_int (S (Z.to_nat INT_MAX)) INT_MAX 3).
    apply isPrime_loop_int_max; unfold INT_MAX; [lia|done|lia].
Qed.

(** On a grid of 432 x 432 cells the product for the centre cell,
    216 * 215 * 216 * 215 = 2156673600, no longer fits an [int]: the cell
    receives -2138293696. *)
Example inidat_432 :
  forall u : @buf exact_arith,
    inidat 432 432 u (216 * 432 + 216) = inject_Z (-2138293696).
Proof. intros u. rewrite inidat_spec by lia. reflexivity. Qed.

(** The grids the program picks for 256 x 320 cells. *)
Example block_grid_samples :
  block_grid 256 320 1 = Some (1, 1) /\
  block_grid 256 320 4 = Some (2, 2) /\
  block_grid 256 320 20 = Some (4, 5) /\
  block_grid 256 320 40 = Some (5, 8) /\
  block_grid 256 320 80 = Some (8, 10).
Proof. repeat split; reflexivity. Qed.

(** Rank 5 of a 3 x 4 grid sits at block row 1, block column 1. *)
Example nbrs_sample :
  nbrs_of null 12 3 4 5 = Nbrs 4 6 1 9 /\
  nbrs_of null 12 3 4 0 = Nbrs null 1 null 4 /\
  nbrs_of null 12 3 4 11 = Nbrs 10 null 7 null.
Proof. repeat split; reflexivity. Qed.

(** One step on the 4 x 4 field of [inidat]: 4 + 0.1*(4+0-8) + 0.1*(4+0-8). *)
Example one_step_4x4_value :
  exists fin,
    simulate null 4 4 1 1 (inidat 4 4 zeros) (fun _ _ => zeros) = Some fin /\
    fin (1 * 4 + 1) = Qmake 16 5 /\ fin (0 * 4 + 1) = Qmake 0 1.
Proof. eexists. split; [reflexivity|]. split; vm_compute; reflexivity. Qed.

(** One step on a 6 x 6 field split among four workers: cell (1,3) is in
    the first column of block (0,1) and takes its left value from the
    halo received from block (0,0). *)
Example one_step_across_blocks :
  exists fin,
    @simulate exact_arith null 6 6 1 4 (fun k => inject_Z (k * k)) (fun _ _ => zeros)
      = Some fin /\
    fin (1 * 6 + 3) = Qmake 442 5.
Proof. eexists. split; [reflexivity|]. vm_compute. reflexivity. Qed.

(** The same step in IEEE arithmetic: the interior cells get
    13421773 * 2^-22, the float nearest to 3.2, and the boundary +0. *)
Example one_step_4x4_ieee :
  exists fin,
    simulate null 4 4 1 1 (inidat 4 4 nans) (fun _ _ => nans) = Some fin /\
    fin (1 * 4 + 1) = S754_finite false 13421773 (-22) /\
    fin (2 * 4 + 2) = S754_finite false 13421773 (-22) /\
    fin (0 * 4 + 1) = S754_zero false /\
    fin (3 * 4 + 3) = S754_zero false.
Proof. eexists. split; [reflexivity|]. repeat split; vm_compute; reflexivity. Qed.

(** * Instances of the further properties *)

Lemma not_prime_16 : ~ Z.prime 16.
Proof. intros [_ H]. apply (H 2); [lia|]. by exists 8. Qed.

Lemma not_prime_40 : ~ Z.prime 40.
Proof. intros [_ H]. apply (H 2); [lia|]. by exists 20. Qed.

(** The program's grid of 256 x 320 cells on 4 and on 16 workers. *)
Lemma cuts_evenly_4 : cuts_evenly 256 320 4 2 2.
Proof.
  split; [lia|]. split; [exact not_prime_4|]. do 3 (split; [reflexivity|]).
  do 2 (split; [vm_compute; discriminate|]). split; left; vm_compute; discriminate.
Qed.

Lemma cuts_evenly_16 : cuts_evenly 256 320 16 4 4.
Proof.
  split; [lia|]. split; [exact not_prime_16|]. do 3 (split; [reflexivity|]).
  do 2 (split; [vm_compute; discriminate|]). split; left; vm_compute; discriminate.
Qed.

Lemma isPrime_decides_primality_witness :
  1 <= 97 <= INT_MAX /\
  exists b,
    isPrime_int 97 = Some b /\ (b = 0 \/ b = 1) /\
    (b = 1 -> Z.prime 97) /\
    (97 < 46339 * 46339 -> isPrime 97 = Some b /\ (Z.prime 97 -> b = 1)).
Proof.
  assert (H : 1 <= 97 <= INT_MAX) by (unfold INT_MAX; lia).
  split; [exact H|]. exact (isPrime_decides_primality 97 H).
Defined.

Lemma isPrime_nonpositive_witness :
  -7 <= 0 /\ isPrime (-7) = Some (if Z.even (-7) then 0 else 1).
Proof. split; [lia|]. apply isPrime_nonpositive. lia. Defined.

Lemma inidat_symmetric_witness :
  0 <= 1 < 4 /\ 0 <= 2 < 5 /\
  inidat 4 5 zeros ((4 - 1 - 1) * 5 + 2) = inidat 4 5 zeros (1 * 5 + 2) /\
  inidat 4 5 zeros (1 * 5 + (5 - 1 - 2)) = inidat 4 5 zeros (1 * 5 + 2).
Proof.
  assert (H1 : 0 <= 1 < 4) by lia. assert (H2 : 0 <= 2 < 5) by lia.
  split; [exact H1|]. split; [exact H2|]. exact (inidat_symmetric 4 5 zeros 1 2 H1 H2).
Defined.


Lemma prtdat_layout_witness :
  0 <= 2 /\ 0 <= 3 /\
  length (prtdat 2 3 ramp "final.dat") = Z.to_nat (2 * 2 * 3 + 2) /\
  prtdat 2 3 ramp "final.dat" !! 0%nat = Some (Fopen "final.dat" "w") /\
  prtdat 2 3 ramp "final.dat" !! Z.to_nat (2 * 2 * 3 + 1) = Some Fclose /\
  forall line pos : nat, Z.of_nat line < 3 -> Z.of_nat pos < 2 ->
    let iy := 3 - 1 - Z.of_nat line in
    let ix := Z.of_nat pos in
    prtdat 2 3 ramp "final.dat" !! (1 + (line * (Z.to_nat 2 * 2) + (pos * 2 + 0)))%nat
      = Some (Fprintf_float "%6.1f" (ramp (ix * 3 + iy))) /\
    prtdat 2 3 ramp "final.dat" !! (1 + (line * (Z.to_nat 2 * 2) + (pos * 2 + 1)))%nat
      = Some (Fprintf_text (if ix =? 2 - 1 then "\n" else " ")).
Proof.
  assert (H1 : 0 <= 2) by lia. assert (H2 : 0 <= 3) by lia.
  split; [exact H1|]. split; [exact H2|].
  exact (prtdat_layout 2 3 ramp "final.dat" H1 H2).
Defined.

Lemma malloc2darr_free2darr_witness :
  1 <= 3 /\
  let '(rc, array', calls) :=
    malloc2darr 4 8 (Float2d None (fun _ => None)) (fun _ => None) 3 4 (Some 1000) (Some 2000) in
  let '(rc', calls') := free2darr array' in
  rc = 0 /\ rc' = 0 /\
  calls' = [Free (Some 1000); Free (Some 2000)] /\
  allocated (calls ++ calls') = [].
Proof.
  assert (H : 1 <= 3) by lia. split; [exact H|].
  exact (malloc2darr_free2darr 4 8 (Float2d None (fun _ => None)) (fun _ => None)
           3 4 1000 2000 H).
Defined.

(** A 3 x 3 block with a neighbour on every side: the stencil at cell
    (1,1) reads cell (0,1) of the upper halo row. *)
Lemma passes_read_received_cells_witness :
  2 <= 3 /\ 2 <= 3 /\
  ~ (3 = 2 /\ is_null null (up (Nbrs 1 2 3 4)) = true /\
              is_null null (down (Nbrs 1 2 3 4)) = true) /\
  ~ (3 = 2 /\ is_null null (left (Nbrs 1 2 3 4)) = true /\
              is_null null (right (Nbrs 1 2 3 4)) = true) /\
  Rd (at_ 3 0 1) ∈ trace (exec (updateInternal 2 (3 - 1) 3 ;;;
                                updateExternal null 1 3 3 (right (Nbrs 1 2 3 4))
                                               (left (Nbrs 1 2 3 4)) (up (Nbrs 1 2 3 4))
                                               (down (Nbrs 1 2 3 4)))
                               ramp zeros) /\
  exists ix iy,
    at_ 3 0 1 = at_ 3 ix iy /\ 0 <= ix <= 3 + 1 /\ 0 <= iy <= 3 + 1 /\
    (ix = 0 -> is_null null (up (Nbrs 1 2 3 4)) = false /\ 1 <= iy <= 3) /\
    (ix = 3 + 1 -> is_null null (down (Nbrs 1 2 3 4)) = false /\ 1 <= iy <= 3) /\
    (iy = 0 -> is_null null (left (Nbrs 1 2 3 4)) = false /\ 1 <= ix <= 3) /\
    (iy = 3 + 1 -> is_null null (right (Nbrs 1 2 3 4)) = false /\ 1 <= ix <= 3).
Proof.
  assert (H1 : 2 <= 3) by lia.
  assert (H2 : ~ (3 = 2 /\ is_null null (up (Nbrs 1 2 3 4)) = true /\
                  is_null null (down (Nbrs 1 2 3 4)) = true)) by (intros [? _]; lia).
  assert (H3 : ~ (3 = 2 /\ is_null null (left (Nbrs 1 2 3 4)) = true /\
                  is_null null (right (Nbrs 1 2 3 4)) = true)) by (intros [? _]; lia).
  assert (H4 : Rd (at_ 3 0 1) ∈
                 trace (exec (updateInternal 2 (3 - 1) 3 ;;;
                              updateExternal null 1 3 3 (right (Nbrs 1 2 3 4))
                                             (left (Nbrs 1 2 3 4)) (up (Nbrs 1 2 3 4))
                                             (down (Nbrs 1 2 3 4)))
                             ramp zeros)).
  { apply list_elem_of_In. vm_compute. tauto. }
  split; [exact H1|]. split; [exact H1|]. split; [exact H2|]. split; [exact H3|].
  split; [exact H4|].
  exact (passes_read_received_cells null 3 3 (Nbrs 1 2 3 4) ramp zeros (at_ 3 0 1)
           H1 H1 H2 H3 H4).
Defined.

(** A 4 x 4 block with a neighbour on every side, the iterations of each
    pass taken last to first.  The exterior pass visits 13 cells: the
    corner (1,1) belongs to the first row and to the first column. *)
Lemma passes_order_independent_witness :
  1 <= 4 /\
  reverse (internal_cells 2 (4 - 1) 4) ≡ₚ internal_cells 2 (4 - 1) 4 /\
  reverse (internal_cells 2 (4 - 1) 4) <> internal_cells 2 (4 - 1) 4 /\
  (forall off,
     nxt (exec (for_each (reverse (internal_cells 2 (4 - 1) 4))
                         (fun c => stencil_stmt (4 + 2) c.1 c.2)) ramp zeros) off =
     nxt (exec (updateInternal 2 (4 - 1) 4) ramp zeros) off) /\
  reverse (external_cells null 4 4 (Nbrs 1 2 3 4)) ≡ₚ external_cells null 4 4 (Nbrs 1 2 3 4) /\
  reverse (external_cells null 4 4 (Nbrs 1 2 3 4)) <> external_cells null 4 4 (Nbrs 1 2 3 4) /\
  length (external_cells null 4 4 (Nbrs 1 2 3 4)) = 13%nat /\
  (forall off,
     nxt (exec (for_each (reverse (external_cells null 4 4 (Nbrs 1 2 3 4)))
                         (fun c => stencil_stmt (4 + 2) c.1 c.2)) ramp zeros) off =
     nxt (exec (updateExternal null 1 4 4 (right (Nbrs 1 2 3 4)) (left (Nbrs 1 2 3 4))
                               (up (Nbrs 1 2 3 4)) (down (Nbrs 1 2 3 4))) ramp zeros) off).
Proof.
  assert (H : 1 <= 4) by lia.
  assert (Hi : reverse (internal_cells 2 (4 - 1) 4) ≡ₚ internal_cells 2 (4 - 1) 4)
    by apply reverse_Permutation.
  assert (He : reverse (external_cells null 4 4 (Nbrs 1 2 3 4))
               ≡ₚ external_cells null 4 4 (Nbrs 1 2 3 4))
    by apply reverse_Permutation.
  destruct (passes_order_independent null 4 4 (Nbrs 1 2 3 4) ramp zeros H) as [Hint Hext].
  split; [exact H|]. split; [exact Hi|]. split; [vm_compute; discriminate|].
  split; [exact (Hint _ Hi)|]. split; [exact He|]. split; [vm_compute; discriminate|].
  split; [reflexivity|]. exact (Hext _ He).
Defined.

Lemma run_is_two_buffer_steps_witness :
  null < 0 /\ 0 <= 100 /\ cuts_evenly 256 320 4 2 2 /\
  exists fin,
    simulate null 256 320 100 4 ramp (fun _ _ => zeros) = Some fin /\
    forall i j, 0 <= i < 256 -> 0 <= j < 320 ->
      fin (i * 320 + j) = two_buffer_steps 256 320 (grid_of 320 ramp) (Z.to_nat 100) i j.
Proof.
  assert (H1 : null < 0) by (unfold null; lia). assert (H2 : 0 <= 100) by lia.
  split; [exact H1|]. split; [exact H2|]. split; [exact cuts_evenly_4|].
  exact (run_is_two_buffer_steps null 256 320 4 100 2 2 ramp (fun _ _ => zeros)
           H1 H2 cuts_evenly_4).
Defined.

Lemma run_is_serial_witness :
  null < 0 /\ 0 <= 100 /\ cuts_evenly 256 320 4 2 2 /\
  (forall i j, 0 <= i < 256 -> 0 <= j < 320 ->
     i = 0 \/ i = 256 - 1 \/ j = 0 \/ j = 320 - 1 ->
     inidat 256 320 zeros (i * 320 + j) = to_flt lit_0_0) /\
  exists fin,
    simulate null 256 320 100 4 (inidat 256 320 zeros) (fun _ _ => zeros) = Some fin /\
    forall i j, 0 <= i < 256 -> 0 <= j < 320 ->
      fin (i * 320 + j) =
      serial_steps 256 320 (Z.to_nat 100) (grid_of 320 (inidat 256 320 zeros)) i j.
Proof.
  assert (H1 : null < 0) by (unfold null; lia). assert (H2 : 0 <= 100) by lia.
  assert (H3 : forall i j, 0 <= i < 256 -> 0 <= j < 320 ->
            i = 0 \/ i = 256 - 1 \/ j = 0 \/ j = 320 - 1 ->
            inidat 256 320 zeros (i * 320 + j) = to_flt lit_0_0).
  { intros i j Hi Hj Hbd. rewrite inidat_spec by lia.
    replace (i * (256 - i - 1) * j * (320 - j - 1)) with 0; [reflexivity|].
    destruct Hbd as [-> | [-> | [-> | ->]]]; ring. }
  split; [exact H1|]. split; [exact H2|]. split; [exact cuts_evenly_4|]. split; [exact H3|].
  exact (run_is_serial null 256 320 4 100 2 2 (inidat 256 320 zeros) (fun _ _ => zeros)
           H1 H2 cuts_evenly_4 H3).
Defined.

Lemma result_independent_of_workers_witness :
  null < 0 /\ 0 <= 100 /\ cuts_evenly 256 320 4 2 2 /\ cuts_evenly 256 320 16 4 4 /\
  exists fin fin',
    simulate null 256 320 100 4 ramp (fun _ _ => zeros) = Some fin /\
    simulate null 256 320 100 16 ramp (fun _ _ => ones) = Some fin' /\
    forall i j, 0 <= i < 256 -> 0 <= j < 320 -> fin (i * 320 + j) = fin' (i * 320 + j).
Proof.
  assert (H1 : null < 0) by (unfold null; lia). assert (H2 : 0 <= 100) by lia.
  split; [exact H1|]. split; [exact H2|]. split; [exact cuts_evenly_4|].
  split; [exact cuts_evenly_16|].
  exact (result_independent_of_workers null 256 320 100 4 2 2 16 4 4 ramp
           (fun _ _ => zeros) (fun _ _ => ones) H1 H2 cuts_evenly_4 cuts_evenly_16).
Defined.

Lemma halo_exchange_delivers_witness :
  null < 0 /\ 1 <= 4 /\ ~ Z.prime 4 /\ block_grid 256 320 4 = Some (2, 2) /\
  1 <= 128 /\ 1 <= 160 /\
  exists w',
    exchange null 4 2 2 128 160 0 (fun _ _ => ramp) = Some w' /\
    forall r c, 0 <= r < 2 -> 0 <= c < 2 ->
      let k := r * 2 + c in
      (forall iy, 1 <= iy <= 160 ->
         w' k 0 (at_ 160 0 iy) =
         if r =? 0 then ramp (at_ 160 0 iy) else ramp (at_ 160 128 iy)) /\
      (forall iy, 1 <= iy <= 160 ->
         w' k 0 (at_ 160 (128 + 1) iy) =
         if r =? 2 - 1 then ramp (at_ 160 (128 + 1) iy) else ramp (at_ 160 1 iy)) /\
      (forall ix, 1 <= ix <= 128 ->
         w' k 0 (at_ 160 ix 0) =
         if c =? 0 then ramp (at_ 160 ix 0) else ramp (at_ 160 ix 160)) /\
      (forall ix, 1 <= ix <= 128 ->
         w' k 0 (at_ 160 ix (160 + 1)) =
         if c =? 2 - 1 then ramp (at_ 160 ix (160 + 1)) else ramp (at_ 160 ix 1)) /\
      (forall ix iy, ix = 0 \/ ix = 128 + 1 -> iy = 0 \/ iy = 160 + 1 ->
         w' k 0 (at_ 160 ix iy) = ramp (at_ 160 ix iy)) /\
      (forall ix iy, 1 <= ix <= 128 -> 1 <= iy <= 160 ->
         w' k 0 (at_ 160 ix iy) = ramp (at_ 160 ix iy)) /\
      (forall z, z <> 0 -> w' k z = ramp).
Proof.
  assert (H1 : null < 0) by (unfold null; lia). assert (H2 : 1 <= 4) by lia.
  assert (H3 : block_grid 256 320 4 = Some (2, 2)) by reflexivity.
  assert (H4 : 1 <= 128) by lia. assert (H5 : 1 <= 160) by lia.
  split; [exact H1|]. split; [exact H2|]. split; [exact not_prime_4|]. split; [exact H3|].
  split; [exact H4|]. split; [exact H5|].
  exact (halo_exchange_delivers null 256 320 4 2 2 128 160 0 (fun _ _ => ramp)
           H1 H2 not_prime_4 H3 H4 H5).
Defined.

Lemma neighbours_mutual_witness :
  null < 0 /\ 1 <= 4 /\ ~ Z.prime 4 /\ block_grid 256 320 4 = Some (2, 2) /\
  0 <= 0 < 4 /\ 0 <= 1 < 4 /\
  (right (nbrs_of null 4 2 2 0) = 1 <-> left (nbrs_of null 4 2 2 1) = 0) /\
  (down (nbrs_of null 4 2 2 0) = 1 <-> up (nbrs_of null 4 2 2 1) = 0).
Proof.
  assert (H1 : null < 0) by (unfold null; lia). assert (H2 : 1 <= 4) by lia.
  assert (H3 : block_grid 256 320 4 = Some (2, 2)) by reflexivity.
  assert (H4 : 0 <= 0 < 4) by lia. assert (H5 : 0 <= 1 < 4) by lia.
  split; [exact H1|]. split; [exact H2|]. split; [exact not_prime_4|]. split; [exact H3|].
  split; [exact H4|]. split; [exact H5|].
  exact (neighbours_mutual null 256 320 4 2 2 0 1 H1 H2 not_prime_4 H3 H4 H5).
Defined.

Lemma startup_proceeds_witness :
  1 <= 4 /\
  let out := snd (main_startup null 256 320 100 1 0 3 4) in
  ((exists s, out = Ready s) <->
   (1 = 1 \/ (1 = 2 /\ 0 < 0)) /\ ~ Z.prime 4 /\ Z.rem (256 * 320) 4 = 0) /\
  out <> Stuck /\
  (forall s, out = Ready s ->
     block_grid 256 320 4 = Some (s_xdim s, s_ydim s) /\
     s_rows s = 256 ÷ s_xdim s /\ s_columns s = 320 ÷ s_ydim s /\
     s_nbrs s = nbrs_of null 4 (s_xdim s) (s_ydim s) 3).
Proof.
  assert (H : 1 <= 4) by lia. split; [exact H|].
  exact (startup_proceeds null 256 320 100 1 0 3 4 H).
Defined.

Lemma buffers_start_defined_witness :
  0 <= 0 <= 4 + 1 /\ 0 <= 2 <= 4 + 1 /\
  scatter 8 8 2 2 4 4 ramp (fun _ _ => ones) 3 1 (at_ 4 0 2) = to_flt lit_0_0 /\
  (0 = 0 \/ 0 = 4 + 1 \/ 2 = 0 \/ 2 = 4 + 1 ->
   scatter 8 8 2 2 4 4 ramp (fun _ _ => ones) 3 0 (at_ 4 0 2) = to_flt lit_0_0) /\
  (1 <= 0 <= 4 -> 1 <= 2 <= 4 ->
   scatter 8 8 2 2 4 4 ramp (fun _ _ => ones) 3 0 (at_ 4 0 2) =
   ramp (displs 2 2 4 3 * 4 + ((0 - 1) * 8 + (2 - 1)))) /\
  (forall z, z = 0 \/ z = 1 ->
   scatter 8 8 2 2 4 4 ramp (fun _ _ => ones) 3 z (at_ 4 0 2) =
   scatter 8 8 2 2 4 4 ramp (fun _ _ => zeros) 3 z (at_ 4 0 2)).
Proof.
  assert (H1 : 0 <= 0 <= 4 + 1) by lia. assert (H2 : 0 <= 2 <= 4 + 1) by lia.
  split; [exact H1|]. split; [exact H2|].
  exact (buffers_start_defined 8 8 2 2 4 4 ramp (fun _ _ => ones) (fun _ _ => zeros)
           3 0 2 H1 H2).
Defined.

Lemma round_trip_on_even_columns_witness :
  null < 0 /\ 1 <= 4 /\ ~ Z.prime 4 /\ block_grid 256 320 4 = Some (2, 2) /\
  2 * (320 ÷ 2) = 320 /\ 1 <= 256 ÷ 2 /\ 1 <= 320 ÷ 2 /\
  (forall r c a b,
     0 <= r < 2 -> 0 <= c < 2 -> 0 <= a < 256 ÷ 2 -> 0 <= b < 320 ÷ 2 ->
     scatter 256 320 2 2 (256 ÷ 2) (320 ÷ 2) ramp (fun _ _ => zeros) (r * 2 + c) 0
             (at_ (320 ÷ 2) (1 + a) (1 + b))
     = ramp ((r * (256 ÷ 2) + a) * 320 + (c * (320 ÷ 2) + b))) /\
  exists fin,
    simulate null 256 320 0 4 ramp (fun _ _ => zeros) = Some fin /\
    forall i j, 0 <= i -> 0 <= j < 320 -> fin (i * 320 + j) = ramp (i * 320 + j).
Proof.
  assert (H1 : null < 0) by (unfold null; lia). assert (H2 : 1 <= 4) by lia.
  assert (H3 : block_grid 256 320 4 = Some (2, 2)) by reflexivity.
  assert (H4 : 2 * (320 ÷ 2) = 320) by reflexivity.
  assert (H5 : 1 <= 256 ÷ 2) by (vm_compute; discriminate).
  assert (H6 : 1 <= 320 ÷ 2) by (vm_compute; discriminate).
  split; [exact H1|]. split; [exact H2|]. split; [exact not_prime_4|]. split; [exact H3|].
  split; [exact H4|]. split; [exact H5|]. split; [exact H6|].
  exact (round_trip_on_even_columns null 256 320 4 2 2 ramp (fun _ _ => zeros)
           H1 H2 not_prime_4 H3 H4 H5 H6).
Defined.

(** 40 workers on the program's grid: 5 x 8 blocks of 51 x 40 cells, and
    row 255 left over. *)
Lemma leftover_rows_untouched_witness :
  null < 0 /\ 1 <= 40 /\ ~ Z.prime 40 /\ 0 <= 100 /\
  block_grid 256 320 40 = Some (5, 8) /\
  8 * (320 ÷ 8) = 320 /\ 2 <= 256 ÷ 5 /\ 2 <= 320 ÷ 8 /\
  (3 <= 256 ÷ 5 \/ 2 <= 5) /\ (3 <= 320 ÷ 8 \/ 2 <= 8) /\
  exists fin,
    simulate null 256 320 100 40 ramp (fun _ _ => zeros) = Some fin /\
    (forall i j, 5 * (256 ÷ 5) <= i -> 0 <= j < 320 ->
       fin (i * 320 + j) = ramp (i * 320 + j)) /\
    (forall j, 0 <= j < 320 ->
       fin ((5 * (256 ÷ 5) - 1) * 320 + j) =
       if Z.odd 100 then to_flt lit_0_0 else ramp ((5 * (256 ÷ 5) - 1) * 320 + j)).
Proof.
  assert (H1 : null < 0) by (unfold null; lia). assert (H2 : 1 <= 40) by lia.
  assert (H3 : 0 <= 100) by lia.
  assert (H4 : block_grid 256 320 40 = Some (5, 8)) by reflexivity.
  assert (H5 : 8 * (320 ÷ 8) = 320) by reflexivity.
  assert (H6 : 2 <= 256 ÷ 5) by (vm_compute; discriminate).
  assert (H7 : 2 <= 320 ÷ 8) by (vm_compute; discriminate).
  assert (H8 : 3 <= 256 ÷ 5 \/ 2 <= 5) by (right; lia).
  assert (H9 : 3 <= 320 ÷ 8 \/ 2 <= 8) by (right; lia).
  split; [exact H1|]. split; [exact H2|]. split; [exact not_prime_40|]. split; [exact H3|].
  split; [exact H4|]. split; [exact H5|]. split; [exact H6|]. split; [exact H7|].
  split; [exact H8|]. split; [exact H9|].
  exact (leftover_rows_untouched null 256 320 40 100 5 8 ramp (fun _ _ => zeros)
           H1 H2 not_prime_40 H3 H4 H5 H6 H7 H8 H9).
Defined.

(** Rank 0 of four, with rank 1 to its right and rank 2 below.  The
    exchange changes its halo (cell (1,4) takes rank 1's cell (1,1)), and
    the values the exterior pass computes depend on it (cell (2,3)). *)
Lemma overlap_is_safe_witness :
  0 <= 3 /\
  nbrs_of null 4 2 2 0 = Nbrs null 1 null 2 /\
  exists w',
    exchange null 4 2 2 3 3 0 ranked = Some w' /\
    w' 0 0 (at_ 3 1 4) = ranked 1 0 (at_ 3 1 1) /\
    w' 0 0 (at_ 3 1 4) <> ranked 0 0 (at_ 3 1 4) /\
    update_block null 3 3 (Nbrs null 1 null 2) (ranked 0 0) zeros (at_ 3 2 3) <>
    update_block null 3 3 (Nbrs null 1 null 2) (w' 0 0) zeros (at_ 3 2 3) /\
    (forall ix iy, 1 <= ix <= 3 -> 1 <= iy <= 3 ->
       ranked 0 0 (at_ 3 ix iy) = w' 0 0 (at_ 3 ix iy)) /\
    forall off,
      update_block_overlapped null 3 3 (Nbrs null 1 null 2) (ranked 0 0) (w' 0 0) zeros off =
      update_block null 3 3 (Nbrs null 1 null 2) (w' 0 0) zeros off.
Proof.
  assert (H1 : 0 <= 3) by lia.
  assert (H2 : exchange null 4 2 2 3 3 0 ranked =
               Some (default ranked (exchange null 4 2 2 3 3 0 ranked))) by reflexivity.
  split; [exact H1|]. split; [reflexivity|].
  exists (default ranked (exchange null 4 2 2 3 3 0 ranked)).
  split; [exact H2|]. split; [vm_compute; reflexivity|].
  do 2 (split; [vm_compute; discriminate|]).
  exact (overlap_is_safe null 4 2 2 3 3 0 0 ranked
           (default ranked (exchange null 4 2 2 3 3 0 ranked))
           (Nbrs null 1 null 2) zeros H1 H2).
Defined.

(** 8192 workers on the program's grid: 64 x 128 blocks of 4 x 2 cells,
    64 columns left over. *)
Lemma scatter_gather_in_bounds_witness :
  0 <= 256 /\ 0 <= 320 /\ 1 <= 8192 /\
  block_grid 256 320 8192 = Some (64, 128) /\ 0 <= 128 < 8192 /\
  (forall off, off ∈ block_of 256 320 64 128 (256 ÷ 64) (320 ÷ 128) 128 ->
     0 <= off < 256 * 320) /\
  (forall off, off ∈ recvsubarrtype (256 ÷ 64) (320 ÷ 128) ->
     0 <= off < (256 ÷ 64 + 2) * (320 ÷ 128 + 2)).
Proof.
  assert (H1 : 0 <= 256) by lia. assert (H2 : 0 <= 320) by lia.
  assert (H3 : 1 <= 8192) by lia.
  assert (H4 : block_grid 256 320 8192 = Some (64, 128)) by (vm_compute; reflexivity).
  assert (H5 : 0 <= 128 < 8192) by lia.
  split; [exact H1|]. split; [exact H2|]. split; [exact H3|]. split; [exact H4|].
  split; [exact H5|].
  exact (scatter_gather_in_bounds 256 320 8192 64 128 128 H1 H2 H3 H4 H5).
Defined.

Lemma block_origin_witness :
  1 <= 8192 /\ block_grid 256 320 8192 = Some (64, 128) /\
  0 <= 1 < 64 /\ 0 <= 0 < 128 /\ 0 <= 0 < 256 ÷ 64 /\ 0 <= 0 < 320 ÷ 128 /\
  scatter 256 320 64 128 (256 ÷ 64) (320 ÷ 128) ramp (fun _ _ => zeros) (1 * 128 + 0) 0
          (at_ (320 ÷ 128) (1 + 0) (1 + 0))
  = ramp ((1 * (256 ÷ 64) * 128 + 0) * (320 ÷ 128) + (0 * 320 + 0)) /\
  (1 <= 1 ->
   ((1 * (256 ÷ 64) * 128 + 0) * (320 ÷ 128) + (0 * 320 + 0)
    = (1 * (256 ÷ 64) + 0) * 320 + (0 * (320 ÷ 128) + 0)
    <-> 128 * (320 ÷ 128) = 320)).
Proof.
  assert (H1 : 1 <= 8192) by lia.
  assert (H2 : block_grid 256 320 8192 = Some (64, 128)) by (vm_compute; reflexivity).
  assert (H3 : 0 <= 1 < 64) by lia. assert (H4 : 0 <= 0 < 128) by lia.
  assert (H5 : 0 <= 0 < 256 ÷ 64) by (vm_compute; split; [discriminate|reflexivity]).
  assert (H6 : 0 <= 0 < 320 ÷ 128) by (vm_compute; split; [discriminate|reflexivity]).
  split; [exact H1|]. split; [exact H2|]. split; [exact H3|]. split; [exact H4|].
  split; [exact H5|]. split; [exact H6|].
  exact (block_origin 256 320 8192 64 128 1 0 0 0 ramp (fun _ _ => zeros)
           H1 H2 H3 H4 H5 H6).
Defined.

Lemma passes_compute_block_witness :
  2 <= 3 /\ 2 <= 3 /\
  ~ (3 = 2 /\ is_null null (up no_nbrs) = true /\ is_null null (down no_nbrs) = true) /\
  ~ (3 = 2 /\ is_null null (left no_nbrs) = true /\ is_null null (right no_nbrs) = true) /\
  1 <= 2 <= 3 /\ 1 <= 2 <= 3 /\
  (at_domain_edge null 3 3 no_nbrs 2 2 ->
   update_block null 3 3 no_nbrs ramp zeros (at_ 3 2 2) = zeros (at_ 3 2 2)) /\
  (~ at_domain_edge null 3 3 no_nbrs 2 2 ->
   update_block null 3 3 no_nbrs ramp zeros (at_ 3 2 2) =
   to_flt (dadd (dadd (to_dbl (ramp (at_ 3 2 2)))
                      (dmul (to_dbl (cx parms))
                            (dsub (to_dbl (fadd (ramp (at_ 3 (2+1) 2)) (ramp (at_ 3 (2-1) 2))))
                                  (dmul lit_2_0 (to_dbl (ramp (at_ 3 2 2)))))))
                (dmul (to_dbl (cy parms))
                      (dsub (to_dbl (fadd (ramp (at_ 3 2 (2+1))) (ramp (at_ 3 2 (2-1)))))
                            (dmul lit_2_0 (to_dbl (ramp (at_ 3 2 2)))))))).
Proof.
  assert (H1 : 2 <= 3) by lia.
  assert (H2 : ~ (3 = 2 /\ is_null null (up no_nbrs) = true /\
                  is_null null (down no_nbrs) = true)) by (intros [? _]; lia).
  assert (H3 : ~ (3 = 2 /\ is_null null (left no_nbrs) = true /\
                  is_null null (right no_nbrs) = true)) by (intros [? _]; lia).
  assert (H4 : 1 <= 2 <= 3) by lia.
  split; [exact H1|]. split; [exact H1|]. split; [exact H2|]. split; [exact H3|].
  split; [exact H4|]. split; [exact H4|].
  exact (passes_compute_block null 3 3 no_nbrs ramp zeros 2 2 H1 H1 H2 H3 H4 H4).
Defined.

Lemma exchange_twice_witness :
  null < 0 /\ 1 <= 4 /\ ~ Z.prime 4 /\ block_grid 8 8 4 = Some (2, 2) /\
  1 <= 4 /\ 1 <= 4 /\
  exchange null 4 2 2 4 4 0 (fun _ _ => ramp) =
    Some (default (fun _ _ => ramp) (exchange null 4 2 2 4 4 0 (fun _ _ => ramp))) /\
  exists w2,
    exchange null 4 2 2 4 4 0
      (default (fun _ _ => ramp) (exchange null 4 2 2 4 4 0 (fun _ _ => ramp))) = Some w2 /\
    forall k z ix iy,
      0 <= k < 4 -> 0 <= ix <= 4 + 1 -> 0 <= iy <= 4 + 1 ->
      w2 k z (at_ 4 ix iy) =
      default (fun _ _ => ramp) (exchange null 4 2 2 4 4 0 (fun _ _ => ramp)) k z (at_ 4 ix iy).
Proof.
  assert (H1 : null < 0) by (unfold null; lia). assert (H2 : 1 <= 4) by lia.
  assert (H3 : block_grid 8 8 4 = Some (2, 2)) by reflexivity.
  assert (H4 : exchange null 4 2 2 4 4 0 (fun _ _ => ramp) =
               Some (default (fun _ _ => ramp)
                             (exchange null 4 2 2 4 4 0 (fun _ _ => ramp)))) by reflexivity.
  split; [exact H1|]. split; [exact H2|]. split; [exact not_prime_4|]. split; [exact H3|].
  split; [exact H2|]. split; [exact H2|]. split; [exact H4|].
  exact (exchange_twice null 8 8 4 2 2 4 4 0 (fun _ _ => ramp)
           (default (fun _ _ => ramp) (exchange null 4 2 2 4 4 0 (fun _ _ => ramp)))
           H1 H2 not_prime_4 H3 H2 H2 H4).
Defined.

Lemma run_on_covered_rows_witness :
  null < 0 /\ 1 <= 40 /\ ~ Z.prime 40 /\ 0 <= 100 /\
  block_grid 256 320 40 = Some (5, 8) /\
  8 * (320 ÷ 8) = 320 /\ 2 <= 256 ÷ 5 /\ 2 <= 320 ÷ 8 /\
  (3 <= 256 ÷ 5 \/ 2 <= 5) /\ (3 <= 320 ÷ 8 \/ 2 <= 8) /\
  exists fin,
    simulate null 256 320 100 40 ramp (fun _ _ => zeros) = Some fin /\
    (forall i j, 0 <= i < 5 * (256 ÷ 5) -> 0 <= j < 320 ->
       fin (i * 320 + j) =
       two_buffer_steps (5 * (256 ÷ 5)) 320 (grid_of 320 ramp) (Z.to_nat 100) i j) /\
    (forall i j, 5 * (256 ÷ 5) <= i -> 0 <= j < 320 ->
       fin (i * 320 + j) = ramp (i * 320 + j)).
Proof.
  assert (H1 : null < 0) by (unfold null; lia). assert (H2 : 1 <= 40) by lia.
  assert (H3 : 0 <= 100) by lia.
  assert (H4 : block_grid 256 320 40 = Some (5, 8)) by reflexivity.
  assert (H5 : 8 * (320 ÷ 8) = 320) by reflexivity.
  assert (H6 : 2 <= 256 ÷ 5) by (vm_compute; discriminate).
  assert (H7 : 2 <= 320 ÷ 8) by (vm_compute; discriminate).
  assert (H8 : 3 <= 256 ÷ 5 \/ 2 <= 5) by (right; lia).
  assert (H9 : 3 <= 320 ÷ 8 \/ 2 <= 8) by (right; lia).
  split; [exact H1|]. split; [exact H2|]. split; [exact not_prime_40|]. split; [exact H3|].
  split; [exact H4|]. split; [exact H5|]. split; [exact H6|]. split; [exact H7|].
  split; [exact H8|]. split; [exact H9|].
  exact (run_on_covered_rows null 256 320 40 100 5 8 ramp (fun _ _ => zeros)
           H1 H2 not_prime_40 H3 H4 H5 H6 H7 H8 H9).
Defined.

Lemma files_independent_of_workers_witness :
  null < 0 /\ 0 <= 100 /\ cuts_evenly 256 320 4 2 2 /\ cuts_evenly 256 320 16 4 4 /\
  exists files,
    main_files null 256 320 100 4 zeros (fun _ _ => zeros) = Some files /\
    main_files null 256 320 100 16 ones (fun _ _ => ones) = Some files.
Proof.
  assert (H1 : null < 0) by (unfold null; lia). assert (H2 : 0 <= 100) by lia.
  split; [exact H1|]. split; [exact H2|]. split; [exact cuts_evenly_4|].
  split; [exact cuts_evenly_16|].
  exact (files_independent_of_workers null 256 320 100 4 2 2 16 4 4 zeros ones
           (fun _ _ => zeros) (fun _ _ => ones) H1 H2 cuts_evenly_4 cuts_evenly_16).
Defined.

Lemma zero_steps_identity_witness :
  null < 0 /\ 1 <= 8192 /\ ~ Z.prime 8192 /\
  block_grid 256 320 8192 = Some (64, 128) /\ 0 <= 320 ÷ 128 /\
  exists fin,
    simulate null 256 320 0 8192 ramp (fun _ _ => zeros) = Some fin /\
    forall off, fin off = ramp off.
Proof.
  assert (H1 : null < 0) by (unfold null; lia). assert (H2 : 1 <= 8192) by lia.
  assert (H3 : ~ Z.prime 8192) by (intros [_ H]; apply (H 2); [lia|]; by exists 4096).
  assert (H4 : block_grid 256 320 8192 = Some (64, 128)) by (vm_compute; reflexivity).
  assert (H5 : 0 <= 320 ÷ 128) by (vm_compute; discriminate).
  split; [exact H1|]. split; [exact H2|]. split; [exact H3|]. split; [exact H4|].
  split; [exact H5|].
  exact (zero_steps_identity null 256 320 8192 64 128 ramp (fun _ _ => zeros)
           H1 H2 H3 H4 H5).
Defined.
